(** * Goth_Dog: the diagram graph engine

    A shallow embedding of the graph core of the three programs of the
    repository:

    - [src/app.py]: the block editor's data model ([Port], [Block],
      [Connection], [BlockCanvas]) with its connection management and its
      JSON persistence;
    - [src/urdf_block_diagram.py] and [src/urdf_block_diagram_pygame.py]:
      the URDF reader ([Joint.__post_init__], [URDFParser.parse]) and the
      tree layout ([_calculate_layout], [_layout_subtree]); the two files
      agree on these functions up to the place the spacing constants are
      stored in.

    Python objects are modelled by value: a block object is stored under
    one key of the canvas and its port objects belong to it alone, as
    [add_input] and [add_output] make them, so an assignment to a field of
    a port is an update of the block stored under that key.  A [dict] is
    an association list in insertion order with the update and deletion
    behaviour of Python's [dict]; identifiers drawn from [uuid.uuid4()]
    are arguments of the operation that draws them.  A [str] is the
    string of the bytes of its UTF-8 encoding; the values of the
    properties of a block are the values [json] writes. *)

From Stdlib Require Import ZArith QArith Ascii String.
From stdpp Require Import base tactics option list strings gmap.

Set Warnings "-clear-no-such-hyp".

Open Scope Z_scope.
Open Scope string_scope.
Open Scope list_scope.

(** ** Python dictionaries *)

Section PyDict.
Context {K V : Type} `{EqDecision K}.

(** [d.get(k)] *)
Fixpoint dict_get (k : K) (d : list (K * V)) : option V :=
  match d with
  | [] => None
  | (k', v) :: r => if decide (k' = k) then Some v else dict_get k r
  end.

(** [k in d] *)
Definition dict_mem (k : K) (d : list (K * V)) : bool :=
  match dict_get k d with Some _ => true | None => false end.

(** [d[k] = v]: an existing key keeps its place, a new one goes last. *)
Fixpoint dict_set (k : K) (v : V) (d : list (K * V)) : list (K * V) :=
  match d with
  | [] => [(k, v)]
  | (k', v') :: r =>
      if decide (k' = k) then (k, v) :: r else (k', v') :: dict_set k v r
  end.

(** [del d[k]] *)
Fixpoint dict_del (k : K) (d : list (K * V)) : list (K * V) :=
  match d with
  | [] => []
  | (k', v') :: r =>
      if decide (k' = k) then dict_del k r else (k', v') :: dict_del k r
  end.

(** [list(d.keys())] *)
Definition dict_keys (d : list (K * V)) : list K := d.*1.

(** The keys of a Python dictionary are pairwise distinct. *)
Definition dict_wf (d : list (K * V)) : Prop := NoDup (dict_keys d).
End PyDict.

(** ** [src/app.py]: the block editor *)

Module Editor.

(** Numbers as [json] and Python know them: [int] or (finite) [float]. *)
Inductive pynum : Type :=
| PyInt (z : Z)
| PyFloat (q : Q).

(** A two-element sequence is a [tuple] when the program builds it and a
    [list] when [json.load] reads it back. *)
Inductive seq_kind : Type := PyTuple | PyList.

(** A value of the [properties] dictionary of a block ([Dict[str, Any]]):
    the values [json] writes, [None], [bool], numbers, [str], lists and
    tuples of values, and dictionaries from [str] to values. *)
#[local] Unset Elimination Schemes.
Inductive pyvalue : Type :=
| VNone
| VBool (b : bool)
| VNum (n : pynum)
| VStr (s : string)
| VSeq (k : seq_kind) (l : list pyvalue)
| VDict (l : list (string * pyvalue)).
#[local] Set Elimination Schemes.

Record Port : Type := mkPort {
  port_id : string;
  port_name : string;
  data_type : string;
  position : seq_kind * (pynum * pynum);
  is_input : bool;
  connected_to : option string
}.

Record Block : Type := mkBlock {
  block_id : string;
  block_name : string;
  block_type : string;
  block_x : Z;
  block_y : Z;
  width : Z;
  height : Z;
  inputs : list Port;
  outputs : list Port;
  properties : list (string * pyvalue)
}.

Record Connection : Type := mkConnection {
  conn_id : string;
  source_block_id : string;
  source_port_id : string;
  target_block_id : string;
  target_port_id : string
}.

Record BlockCanvas : Type := mkBlockCanvas {
  blocks : list (string * Block);
  connections : list (string * Connection)
}.

(** [BlockCanvas()] *)
Definition empty_canvas : BlockCanvas := mkBlockCanvas [] [].

(** [port.connected_to = v] *)
Definition set_connected_to (v : option string) (p : Port) : Port :=
  mkPort (port_id p) (port_name p) (data_type p) (position p) (is_input p) v.

(** The loop of [Block.get_port_by_id] over a list of ports. *)
Fixpoint find_port (port_id' : string) (ps : list Port) : option Port :=
  match ps with
  | [] => None
  | port :: r =>
      if String.eqb (port_id port) port_id' then Some port
      else find_port port_id' r
  end.

(** [Block.get_port_by_id]: the first match in [inputs + outputs]. *)
Definition get_port_by_id (self : Block) (port_id' : string) : option Port :=
  find_port port_id' (inputs self ++ outputs self).

(** Assignment to a field of the port object that [get_port_by_id] returned:
    the first port of the list carrying that id is the one that changes. *)
Fixpoint update_port (port_id' : string) (f : Port -> Port) (ps : list Port)
  : list Port :=
  match ps with
  | [] => []
  | port :: r =>
      if String.eqb (port_id port) port_id' then f port :: r
      else port :: update_port port_id' f r
  end.

Definition block_update_port (port_id' : string) (f : Port -> Port)
    (b : Block) : Block :=
  match find_port port_id' (inputs b) with
  | Some _ =>
      mkBlock (block_id b) (block_name b) (block_type b) (block_x b) (block_y b)
        (width b) (height b) (update_port port_id' f (inputs b)) (outputs b)
        (properties b)
  | None =>
      mkBlock (block_id b) (block_name b) (block_type b) (block_x b) (block_y b)
        (width b) (height b) (inputs b) (update_port port_id' f (outputs b))
        (properties b)
  end.

(** The data type test of [connect_ports]. *)
Definition types_compatible (t1 t2 : string) : bool :=
  negb (negb (String.eqb t1 "any") && negb (String.eqb t2 "any")
        && negb (String.eqb t1 t2)).

(** [BlockCanvas.add_block] *)
Definition add_block (block : Block) (self : BlockCanvas) : BlockCanvas :=
  mkBlockCanvas (dict_set (block_id block) block (blocks self))
                (connections self).

(** The first loop of [remove_block]. *)
Definition conn_involves (block_id' : string) (conn : Connection) : bool :=
  String.eqb (source_block_id conn) block_id'
  || String.eqb (target_block_id conn) block_id'.

Fixpoint conn_to_remove (block_id' : string) (cs : list (string * Connection))
  : list string :=
  match cs with
  | [] => []
  | (cid, conn) :: r =>
      if conn_involves block_id' conn then cid :: conn_to_remove block_id' r
      else conn_to_remove block_id' r
  end.

(** [BlockCanvas.remove_block] *)
Definition remove_block (block_id' : string) (self : BlockCanvas)
  : BlockCanvas :=
  if dict_mem block_id' (blocks self) then
    mkBlockCanvas
      (dict_del block_id' (blocks self))
      (foldl (fun cs cid => dict_del cid cs) (connections self)
             (conn_to_remove block_id' (connections self)))
  else self.

(** [BlockCanvas.connect_ports]; [fresh] is the value of
    [str(uuid.uuid4())]. *)
Definition connect_ports (fresh : string)
    (source_block_id' source_port_id' target_block_id' target_port_id' : string)
    (self : BlockCanvas) : option Connection * BlockCanvas :=
  match dict_get source_block_id' (blocks self),
        dict_get target_block_id' (blocks self) with
  | Some source_block, Some target_block =>
      match get_port_by_id source_block source_port_id',
            get_port_by_id target_block target_port_id' with
      | Some source_port, Some target_port =>
          if is_input source_port || negb (is_input target_port) then
            (None, self)
          else if negb (String.eqb (data_type source_port) "any")
                  && negb (String.eqb (data_type target_port) "any")
                  && negb (String.eqb (data_type source_port)
                                      (data_type target_port)) then
            (None, self)
          else
            let conn := mkConnection fresh source_block_id' source_port_id'
                                     target_block_id' target_port_id' in
            (Some conn,
             mkBlockCanvas
               (dict_set target_block_id'
                  (block_update_port target_port_id'
                     (set_connected_to (Some source_port_id')) target_block)
                  (blocks self))
               (dict_set fresh conn (connections self)))
      | _, _ => (None, self)
      end
  | _, _ => (None, self)
  end.

(** [BlockCanvas.disconnect_ports] *)
Definition disconnect_ports (conn_id' : string) (self : BlockCanvas)
  : BlockCanvas :=
  match dict_get conn_id' (connections self) with
  | Some conn =>
      let blocks' :=
        match dict_get (target_block_id conn) (blocks self) with
        | Some target_block =>
            match get_port_by_id target_block (target_port_id conn) with
            | Some _ =>
                dict_set (target_block_id conn)
                  (block_update_port (target_port_id conn)
                     (set_connected_to None) target_block)
                  (blocks self)
            | None => blocks self
            end
        | None => blocks self
        end in
      mkBlockCanvas blocks' (dict_del conn_id' (connections self))
  | None => self
  end.

(** *** Persistence

    The file written by [save_to_json] holds one JSON document; the model
    takes the document for the file ([json.dump] followed by [json.load]
    gives back the value tree it was given, a tuple coming back as a
    list). *)

#[local] Unset Elimination Schemes.
Inductive json : Type :=
| JNull
| JBool (b : bool)
| JNum (n : pynum)
| JStr (s : string)
| JArr (l : list json)
| JObj (l : list (string * json)).
#[local] Set Elimination Schemes.

(** What [json.dump] writes for a value: a tuple is written as a list
    is. *)
Fixpoint json_of_value (v : pyvalue) : json :=
  match v with
  | VNone => JNull
  | VBool b => JBool b
  | VNum n => JNum n
  | VStr s => JStr s
  | VSeq _ l => JArr (map json_of_value l)
  | VDict l =>
      JObj (map (fun kv => let '(k, x) := kv in (k, json_of_value x)) l)
  end.

(** What [json.load] returns for a document: every array is a [list]. *)
Fixpoint value_of_json (j : json) : pyvalue :=
  match j with
  | JNull => VNone
  | JBool b => VBool b
  | JNum n => VNum n
  | JStr s => VStr s
  | JArr l => VSeq PyList (map value_of_json l)
  | JObj l =>
      VDict (map (fun kv => let '(k, x) := kv in (k, value_of_json x)) l)
  end.

(** [dataclasses.asdict] followed by [json.dump], field by field. *)
Definition json_of_connected_to (o : option string) : json :=
  match o with Some s => JStr s | None => JNull end.

Definition asdict_port (p : Port) : json :=
  JObj [("id", JStr (port_id p));
        ("name", JStr (port_name p));
        ("data_type", JStr (data_type p));
        ("position", JArr [JNum (position p).2.1; JNum (position p).2.2]);
        ("is_input", JBool (is_input p));
        ("connected_to", json_of_connected_to (connected_to p))].

Definition asdict_block (b : Block) : json :=
  JObj [("id", JStr (block_id b));
        ("name", JStr (block_name b));
        ("block_type", JStr (block_type b));
        ("x", JNum (PyInt (block_x b)));
        ("y", JNum (PyInt (block_y b)));
        ("width", JNum (PyInt (width b)));
        ("height", JNum (PyInt (height b)));
        ("inputs", JArr (map asdict_port (inputs b)));
        ("outputs", JArr (map asdict_port (outputs b)));
        ("properties",
         JObj (map (fun kv => (kv.1, json_of_value kv.2)) (properties b)))].

Definition asdict_connection (c : Connection) : json :=
  JObj [("id", JStr (conn_id c));
        ("source_block_id", JStr (source_block_id c));
        ("source_port_id", JStr (source_port_id c));
        ("target_block_id", JStr (target_block_id c));
        ("target_port_id", JStr (target_port_id c))].

(** [BlockCanvas.save_to_json]: the document handed to [json.dump]. *)
Definition save_to_json (self : BlockCanvas) : json :=
  JObj [("blocks",
         JObj (map (fun kv => (kv.1, asdict_block kv.2)) (blocks self)));
        ("connections",
         JObj (map (fun kv => (kv.1, asdict_connection kv.2))
                   (connections self)))].

(** Reading a field at the type the dataclass declares for it.  [None]
    stands for a document that does not have the shape [save_to_json]
    writes: Python raises [KeyError] or [TypeError] there, or builds an
    object whose fields hold values of other types. *)
Definition as_str (j : json) : option string :=
  match j with JStr s => Some s | _ => None end.

Definition as_int (j : json) : option Z :=
  match j with JNum (PyInt z) => Some z | _ => None end.

Definition as_bool (j : json) : option bool :=
  match j with JBool b => Some b | _ => None end.

Definition as_obj (j : json) : option (list (string * json)) :=
  match j with JObj l => Some l | _ => None end.

Definition as_arr (j : json) : option (list json) :=
  match j with JArr l => Some l | _ => None end.

Definition as_opt_str (j : json) : option (option string) :=
  match j with JNull => Some None | JStr s => Some (Some s) | _ => None end.

Definition as_position (j : json) : option (seq_kind * (pynum * pynum)) :=
  match j with
  | JArr [JNum a; JNum b] => Some (PyList, (a, b))
  | _ => None
  end.

(** [d[k]] at a given type. *)
Definition field {A : Type} (k : string) (dec : json -> option A)
    (d : list (string * json)) : option A :=
  match dict_get k d with Some j => dec j | None => None end.

(** A keyword argument with a default value. *)
Definition field_default {A : Type} (k : string) (dec : json -> option A)
    (default : A) (d : list (string * json)) : option A :=
  match dict_get k d with Some j => dec j | None => Some default end.

Definition Port_fields : list string :=
  ["id"; "name"; "data_type"; "position"; "is_input"; "connected_to"].

(** [Port] called with the keyword arguments of the dictionary [p]: every
    key of [p] names a field, the three fields without a default are
    present. *)
Definition Port_of_kwargs (j : json) : option Port :=
  match j with
  | JObj p =>
      if forallb (fun k => bool_decide (k ∈ Port_fields)) (dict_keys p) then
        match field "id" as_str p, field "name" as_str p,
              field "data_type" as_str p,
              field_default "position" as_position
                (PyTuple, (PyInt 0, PyInt 0)) p,
              field_default "is_input" as_bool true p,
              field_default "connected_to" as_opt_str None p with
        | Some i, Some n, Some t, Some pos, Some inp, Some c =>
            Some (mkPort i n t pos inp c)
        | _, _, _, _, _, _ => None
        end
      else None
  | _ => None
  end.

(** The list comprehensions that build [inputs] and [outputs]. *)
Fixpoint Ports_of_json (l : list json) : option (list Port) :=
  match l with
  | [] => Some []
  | j :: r =>
      match Port_of_kwargs j, Ports_of_json r with
      | Some p, Some ps => Some (p :: ps)
      | _, _ => None
      end
  end.

(** [block_data["properties"]] as [json.load] returned it. *)
Definition properties_of_json (l : list (string * json))
  : list (string * pyvalue) :=
  map (fun kv => (kv.1, value_of_json kv.2)) l.

(** The [Block(...)] call of [load_from_json]. *)
Definition Block_of_json (j : json) : option Block :=
  match j with
  | JObj block_data =>
      match field "inputs" as_arr block_data,
            field "outputs" as_arr block_data with
      | Some ji, Some jo =>
          match Ports_of_json ji, Ports_of_json jo,
                field "id" as_str block_data, field "name" as_str block_data,
                field "block_type" as_str block_data,
                field "x" as_int block_data, field "y" as_int block_data,
                field "width" as_int block_data,
                field "height" as_int block_data,
                field "properties" as_obj block_data with
          | Some inputs', Some outputs', Some i, Some n, Some t,
            Some x, Some y, Some w, Some h, Some jp =>
              Some (mkBlock i n t x y w h inputs' outputs'
                            (properties_of_json jp))
          | _, _, _, _, _, _, _, _, _, _ => None
          end
      | _, _ => None
      end
  | _ => None
  end.

(** The [Connection(...)] call of [load_from_json]. *)
Definition Connection_of_json (j : json) : option Connection :=
  match j with
  | JObj conn_data =>
      match field "id" as_str conn_data,
            field "source_block_id" as_str conn_data,
            field "source_port_id" as_str conn_data,
            field "target_block_id" as_str conn_data,
            field "target_port_id" as_str conn_data with
      | Some i, Some sb, Some sp, Some tb, Some tp =>
          Some (mkConnection i sb sp tb tp)
      | _, _, _, _, _ => None
      end
  | _ => None
  end.

(** First loop of [load_from_json]. *)
Fixpoint load_blocks (items : list (string * json)) (canvas : BlockCanvas)
  : option BlockCanvas :=
  match items with
  | [] => Some canvas
  | (bid, block_data) :: r =>
      match Block_of_json block_data with
      | Some block =>
          load_blocks r
            (mkBlockCanvas (dict_set bid block (blocks canvas))
                           (connections canvas))
      | None => None
      end
  end.

(** One round of the second loop: register the connection, then point the
    target port at the source port. *)
Definition load_connection (cid : string) (conn : Connection)
    (canvas : BlockCanvas) : BlockCanvas :=
  let connections' := dict_set cid conn (connections canvas) in
  match dict_get (target_block_id conn) (blocks canvas) with
  | Some target_block =>
      match get_port_by_id target_block (target_port_id conn) with
      | Some _ =>
          mkBlockCanvas
            (dict_set (target_block_id conn)
               (block_update_port (target_port_id conn)
                  (set_connected_to (Some (source_port_id conn)))
                  target_block)
               (blocks canvas))
            connections'
      | None => mkBlockCanvas (blocks canvas) connections'
      end
  | None => mkBlockCanvas (blocks canvas) connections'
  end.

Fixpoint load_connections (items : list (string * json))
    (canvas : BlockCanvas) : option BlockCanvas :=
  match items with
  | [] => Some canvas
  | (cid, conn_data) :: r =>
      match Connection_of_json conn_data with
      | Some conn => load_connections r (load_connection cid conn canvas)
      | None => None
      end
  end.

(** [BlockCanvas.load_from_json] on the document read by [json.load]. *)
Definition load_from_json (data : json) : option BlockCanvas :=
  match data with
  | JObj top =>
      match field "blocks" as_obj top with
      | Some jb =>
          match load_blocks jb empty_canvas with
          | Some canvas =>
              match field "connections" as_obj top with
              | Some jc => load_connections jc canvas
              | None => None
              end
          | None => None
          end
      | None => None
      end
  | _ => None
  end.

(** *** Notions the properties are stated with *)

(** The port a (block id, port id) pair resolves to, the way
    [connect_ports] resolves it. *)
Definition resolve (g : BlockCanvas) (block_id' port_id' : string)
  : option Port :=
  match dict_get block_id' (blocks g) with
  | Some b => get_port_by_id b port_id'
  | None => None
  end.

(** Every field of a port but its back-reference. *)
Definition port_fields (p : Port)
  : string * string * string * (seq_kind * (pynum * pynum)) * bool :=
  (port_id p, port_name p, data_type p, position p, is_input p).

(** The three tests of [connect_ports] on the resolved ports. *)
Definition connectable (g : BlockCanvas) (sb sp tb tp : string) : bool :=
  match resolve g sb sp, resolve g tb tp with
  | Some a, Some b =>
      negb (is_input a) && is_input b
      && types_compatible (data_type a) (data_type b)
  | _, _ => false
  end.

(** The blocks after [target_port.connected_to = v], when the target port
    resolves. *)
Definition point_back (tb tp : string) (v : option string)
    (bs : list (string * Block)) : list (string * Block) :=
  match dict_get tb bs with
  | Some target_block =>
      match get_port_by_id target_block tp with
      | Some _ =>
          dict_set tb (block_update_port tp (set_connected_to v) target_block)
                   bs
      | None => bs
      end
  | None => bs
  end.

(** The edges of the connection map that target a given input port. *)
Definition edges_into (g : BlockCanvas) (block_id' port_id' : string)
  : list (string * Connection) :=
  List.filter
    (fun kv => String.eqb (target_block_id kv.2) block_id'
               && String.eqb (target_port_id kv.2) port_id')
    (connections g).

(** At most one edge of the connection map targets any input port. *)
Definition single_incoming (g : BlockCanvas) : Prop :=
  forall tb tp, (length (edges_into g tb tp) <= 1)%nat.

(** Some block of the graph owns an output port with this id. *)
Definition output_port_exists (g : BlockCanvas) (port_id' : string) : bool :=
  existsb
    (fun kv => existsb (fun p => String.eqb (port_id p) port_id')
                       (outputs kv.2))
    (blocks g).

(** Every back-reference of an input port names an output port of some
    block of the graph. *)
Definition backrefs_valid (g : BlockCanvas) : Prop :=
  forall bid b p o,
    (bid, b) ∈ blocks g -> p ∈ inputs b -> connected_to p = Some o ->
    output_port_exists g o = true.

(** Both dictionaries of a canvas are Python dictionaries. *)
Definition canvas_wf (g : BlockCanvas) : Prop :=
  dict_wf (blocks g) /\ dict_wf (connections g).

(** A block as [Block(...)], [add_input] and [add_output] build it: inputs
    are input ports, outputs are output ports, nothing is connected. *)
Definition new_block (b : Block) : Prop :=
  Forall (fun p => is_input p = true /\ connected_to p = None) (inputs b)
  /\ Forall (fun p => is_input p = false /\ connected_to p = None) (outputs b).

(** The states of a canvas driven through its four operations. *)
Inductive reachable : BlockCanvas -> Prop :=
| reach_empty : reachable empty_canvas
| reach_add_block g b :
    reachable g -> new_block b -> reachable (add_block b g)
| reach_remove_block g block_id' :
    reachable g -> reachable (remove_block block_id' g)
| reach_connect_ports g fresh sb sp tb tp :
    reachable g -> reachable (connect_ports fresh sb sp tb tp g).2
| reach_disconnect_ports g conn_id' :
    reachable g -> reachable (disconnect_ports conn_id' g).

(** A value with every tuple in it turned into the list of the same
    elements. *)
Fixpoint as_loaded_value (v : pyvalue) : pyvalue :=
  match v with
  | VSeq _ l => VSeq PyList (map as_loaded_value l)
  | VDict l =>
      VDict (map (fun kv => let '(k, x) := kv in (k, as_loaded_value x)) l)
  | _ => v
  end.

(** No tuple occurs in the value. *)
Fixpoint no_tuple (v : pyvalue) : bool :=
  match v with
  | VSeq PyTuple _ => false
  | VSeq PyList l => forallb no_tuple l
  | VDict l => forallb (fun kv => let '(_, x) := kv in no_tuple x) l
  | _ => true
  end.

(** A saved port, block and canvas with every tuple turned into a list:
    the position of a port and the tuples inside the property values. *)
Definition as_loaded_port (p : Port) : Port :=
  mkPort (port_id p) (port_name p) (data_type p) (PyList, (position p).2)
         (is_input p) (connected_to p).

Definition as_loaded_block (b : Block) : Block :=
  mkBlock (block_id b) (block_name b) (block_type b) (block_x b) (block_y b)
    (width b) (height b) (map as_loaded_port (inputs b))
    (map as_loaded_port (outputs b))
    (map (fun kv => (kv.1, as_loaded_value kv.2)) (properties b)).

Definition as_loaded (g : BlockCanvas) : BlockCanvas :=
  mkBlockCanvas (map (fun kv => (kv.1, as_loaded_block kv.2)) (blocks g))
                (connections g).

(** *** Sample canvases *)

Definition tuple00 : seq_kind * (pynum * pynum) :=
  (PyTuple, (PyInt 0, PyInt 0)).

Definition out_a : Port := mkPort "out_a" "value" "number" tuple00 false None.
Definition out_b : Port := mkPort "out_b" "value" "number" tuple00 false None.
Definition in_c : Port := mkPort "in_c" "value" "any" tuple00 true None.
Definition in_d : Port := mkPort "in_d" "text" "string" tuple00 true None.
Definition loop_in : Port := mkPort "loop_in" "param1" "any" tuple00 true None.
Definition loop_out : Port :=
  mkPort "loop_out" "return_value" "any" tuple00 false None.

Definition block_A : Block :=
  mkBlock "A" "Input Value" "input_value" 10 10 150 100 [] [out_a]
          [("default_value", VStr "0")].
Definition block_B : Block :=
  mkBlock "B" "Input Value" "input_value" 10 200 150 100 [] [out_b]
          [("default_value", VStr "0")].
Definition block_C : Block :=
  mkBlock "C" "Output Value" "output_value" 300 10 150 100 [in_c] [] [].
Definition block_D : Block :=
  mkBlock "D" "Output Value" "output_value" 300 200 150 100 [in_d] [] [].
Definition block_L : Block :=
  mkBlock "L" "Function" "function" 0 0 150 100 [loop_in] [loop_out]
          [("function_name", VStr "my_function")].
(** A block whose default value is the tuple [(1, 2)]. *)
Definition block_T : Block :=
  mkBlock "T" "Input Value" "input_value" 0 0 150 100 [] []
          [("default_value", VSeq PyTuple [VNum (PyInt 1); VNum (PyInt 2)])].
(** A second block built under the id of [block_A]. *)
Definition block_A' : Block :=
  mkBlock "A" "Operation" "operation" 0 0 150 100 [] []
          [("operation", VStr "+")].

Definition canvas_ABC : BlockCanvas :=
  add_block block_C (add_block block_B (add_block block_A empty_canvas)).

(** [A.out_a -> C.in_c] under the id ["c1"]. *)
Definition canvas_one_edge : BlockCanvas :=
  (connect_ports "c1" "A" "out_a" "C" "in_c" canvas_ABC).2.

(** Then [B.out_b -> C.in_c] under the id ["c2"]. *)
Definition canvas_two_edges : BlockCanvas :=
  (connect_ports "c2" "B" "out_b" "C" "in_c" canvas_one_edge).2.

(** Then the second edge is disconnected again. *)
Definition canvas_disconnected : BlockCanvas :=
  disconnect_ports "c2" canvas_two_edges.

(** Block [C] once its input port points back to ["out_a"]. *)
Definition block_C_connected : Block :=
  block_update_port "in_c" (set_connected_to (Some "out_a")) block_C.

(** One edge, then the block that owns its source port is removed. *)
Definition canvas_A_removed : BlockCanvas :=
  remove_block "A" canvas_one_edge.

(** *** Code generation *)

Definition newline : string := String (Ascii.ascii_of_nat 10) "".

(** [sep.join(l)] *)
Fixpoint join (sep : string) (l : list string) : string :=
  match l with
  | [] => ""
  | [x] => x
  | x :: r => x +:+ sep +:+ join sep r
  end.

(** [self.properties.get(k, default)] *)
Definition properties_get (k : string) (default : pyvalue) (self : Block)
  : pyvalue :=
  match dict_get k (properties self) with
  | Some v => v
  | None => default
  end.

(** A replacement field of an f-string puts [str(v)] into the text: a
    [str] as it is, any other value as its [repr], which is a parameter. *)
Section CodeGeneration.
Variable py_repr : pyvalue -> string.

Definition py_str (v : pyvalue) : string :=
  match v with
  | VStr s => s
  | _ => py_repr v
  end.

(** [Block.to_code] *)
Definition to_code (self : Block) : string :=
  if String.eqb (block_type self) "input_value" then
    block_name self +:+ " = "
      +:+ py_str (properties_get "default_value" (VStr "0") self)
  else if String.eqb (block_type self) "output_value" then
    "# Output: " +:+ block_name self
  else if String.eqb (block_type self) "operation" then
    let op := properties_get "operation" (VStr "+") self in
    "result = input1 " +:+ py_str op +:+ " input2"
  else if String.eqb (block_type self) "function" then
    let func_name :=
      properties_get "function_name" (VStr "my_function") self in
    let params := join ", " (map port_name (inputs self)) in
    "def " +:+ py_str func_name +:+ "(" +:+ params +:+ "):" +:+ newline
      +:+ "    return "
      +:+ match outputs self with o :: _ => port_name o | [] => "None" end
  else "# Block: " +:+ block_name self.

(** The key [generate_code] sorts the blocks by. *)
Definition block_sort_key (b : Block) : nat :=
  if String.eqb (block_type b) "input_value" then 0
  else if String.eqb (block_type b) "operation" then 1 else 2.

(** [l.sort(key=key)].  Python's sort is stable, which fixes its result:
    the elements in the order of their keys, elements of equal key in the
    order they had.  Insertion from the right, each element going before
    the first element whose key is not smaller, computes it. *)
Fixpoint insert_by {A : Type} (key : A -> nat) (x : A) (l : list A) : list A :=
  match l with
  | [] => [x]
  | y :: r =>
      if (key x <=? key y)%nat then x :: y :: r else y :: insert_by key x r
  end.

Fixpoint sort_by {A : Type} (key : A -> nat) (l : list A) : list A :=
  match l with
  | [] => []
  | x :: r => insert_by key x (sort_by key r)
  end.

(** [BlockCanvas.generate_code] *)
Definition generate_code (self : BlockCanvas) : string :=
  let code_lines := ["# Generated Code"; ""] in
  let blocks_list := sort_by block_sort_key (map snd (blocks self)) in
  join newline (code_lines ++ map to_code blocks_list).

(** Blocks the generator cannot tell apart. *)
Definition same_code (b b' : Block) : Prop :=
  block_sort_key b = block_sort_key b' /\ to_code b = to_code b'.
End CodeGeneration.

(** *** Building a block

    Port positions are computed in floating point; the two operations of
    Python's [float] that [_update_port_positions] uses are parameters. *)

Section PortPositions.
(** [a / b] on two [int]; [n * x] on an [int] and a [float]. *)
Variable truediv : Z -> Z -> Q.
Variable mul_int_float : Z -> Q -> Q.

(** [n * s] *)
Definition mul_int (n : Z) (s : pynum) : pynum :=
  match s with
  | PyInt z => PyInt (n * z)
  | PyFloat q => PyFloat (mul_int_float n q)
  end.

(** [port.position = pos] *)
Definition set_position (pos : seq_kind * (pynum * pynum)) (p : Port) : Port :=
  mkPort (port_id p) (port_name p) (data_type p) pos (is_input p)
         (connected_to p).

(** [self.height / (len(ports) + 1) if ports else 0] *)
Definition port_spacing (height' : Z) (ports : list Port) : pynum :=
  match ports with
  | [] => PyInt 0
  | _ :: _ => PyFloat (truediv height' (Z.of_nat (length ports) + 1))
  end.

(** [for i, port in enumerate(ports): port.position = (x, (i + 1) *
    spacing)], from index [i] on. *)
Fixpoint place_ports (x : Z) (spacing : pynum) (i : Z) (ports : list Port)
  : list Port :=
  match ports with
  | [] => []
  | port :: r =>
      set_position (PyTuple, (PyInt x, mul_int (i + 1) spacing)) port
      :: place_ports x spacing (i + 1) r
  end.

(** [Block._update_port_positions] *)
Definition update_port_positions (self : Block) : Block :=
  let input_spacing := port_spacing (height self) (inputs self) in
  let output_spacing := port_spacing (height self) (outputs self) in
  mkBlock (block_id self) (block_name self) (block_type self)
    (block_x self) (block_y self) (width self) (height self)
    (place_ports 0 input_spacing 0 (inputs self))
    (place_ports (width self) output_spacing 0 (outputs self))
    (properties self).

(** [Port.create_input], [Port.create_output]; [fresh] is the value of
    [str(uuid.uuid4())]. *)
Definition create_input (fresh name data_type' : string) : Port :=
  mkPort fresh name data_type' (PyTuple, (PyInt 0, PyInt 0)) true None.

Definition create_output (fresh name data_type' : string) : Port :=
  mkPort fresh name data_type' (PyTuple, (PyInt 0, PyInt 0)) false None.

(** [Block.add_input]: the block afterwards; the port returned is its last
    input. *)
Definition add_input (fresh name data_type' : string) (self : Block) : Block :=
  update_port_positions
    (mkBlock (block_id self) (block_name self) (block_type self)
       (block_x self) (block_y self) (width self) (height self)
       (inputs self ++ [create_input fresh name data_type']) (outputs self)
       (properties self)).

(** [Block.add_output] *)
Definition add_output (fresh name data_type' : string) (self : Block) : Block :=
  update_port_positions
    (mkBlock (block_id self) (block_name self) (block_type self)
       (block_x self) (block_y self) (width self) (height self)
       (inputs self) (outputs self ++ [create_output fresh name data_type'])
       (properties self)).
End PortPositions.

(** Two ports that differ in their position at most. *)
Definition same_port (p q : Port) : Prop :=
  port_id p = port_id q /\ port_name p = port_name q
  /\ data_type p = data_type q /\ is_input p = is_input q
  /\ connected_to p = connected_to q.

(** The first coordinate of every port is [x], in a tuple. *)
Definition ports_at (x : Z) (ports : list Port) : Prop :=
  Forall (fun p => (position p).1 = PyTuple /\ (position p).2.1 = PyInt x) ports.

(** The source port of the last edge of the connection map into a port. *)
Definition last_source_into (g : BlockCanvas) (block_id' port_id' : string)
  : option string :=
  match last (edges_into g block_id' port_id') with
  | Some kv => Some (source_port_id kv.2)
  | None => None
  end.

(** A port of [g] as it is after saving and loading. *)
Definition reloaded_port (g : BlockCanvas) (block_id' port_id' : string)
    (p : Port) : Port :=
  as_loaded_port
    (match last_source_into g block_id' port_id' with
     | Some s => set_connected_to (Some s) p
     | None => p
     end).

(** The assignments of the second loop of [load_from_json]. *)
Definition rederive (l : list (string * Connection))
    (bs : list (string * Block)) : list (string * Block) :=
  foldl (fun bs' kv =>
           point_back (target_block_id kv.2) (target_port_id kv.2)
                      (Some (source_port_id kv.2)) bs')
        bs l.

(** Every port that is the target of edges points back to the source port
    of the last of them in the connection map. *)
Definition backrefs_follow_last (g : BlockCanvas) : Prop :=
  forall bid pid p s,
    resolve g bid pid = Some p ->
    last_source_into g bid pid = Some s ->
    connected_to p = Some s.

(** An edge into the port [(tb, tp)]: the test of [edges_into]. *)
Definition edge_into (tb tp : string) (kv : string * Connection) : bool :=
  String.eqb (target_block_id kv.2) tb && String.eqb (target_port_id kv.2) tp.

End Editor.


(** ** [src/urdf_block_diagram.py], [src/urdf_block_diagram_pygame.py] *)

Module Urdf.

(** A [str], or [None] where [Element.get] finds no such attribute. *)
Abbreviation pystr := (option string).

Record Link : Type := mkLink {
  link_name : pystr;
  visual : bool;
  collision : bool;
  inertial : bool
}.

(** [F] is the type of Python's [float] values. *)
Record Joint (F : Type) : Type := mkJoint {
  joint_name : pystr;
  joint_type : pystr;
  parent : pystr;
  child : pystr;
  axis : option (list F);
  limit : option (list (string * F));
  state_interfaces : list pystr;
  command_interfaces : list pystr;
  hardware_interfaces : list pystr
}.
Arguments mkJoint {F}.
Arguments joint_name {F}.
Arguments joint_type {F}.
Arguments parent {F}.
Arguments child {F}.
Arguments axis {F}.
Arguments limit {F}.
Arguments state_interfaces {F}.
Arguments command_interfaces {F}.
Arguments hardware_interfaces {F}.

(** [x in ["revolute", "prismatic", "continuous"]] *)
Definition is_moving_type (joint_type' : pystr) : bool :=
  bool_decide (joint_type' ∈ [Some "revolute"; Some "prismatic";
                               Some "continuous"]).

(** [if self.f is None: self.f = []] *)
Definition list_or_empty {A : Type} (o : option (list A)) : list A :=
  match o with Some l => l | None => [] end.

(** [not l], for a list. *)
Definition is_empty {A : Type} (l : list A) : bool :=
  match l with [] => true | _ :: _ => false end.

(** The second half of [Joint.__post_init__], for one of the two fields. *)
Definition default_interfaces (joint_type' : pystr) (given moving : list pystr)
  : list pystr :=
  if is_empty given then
    if is_moving_type joint_type' then moving
    else if bool_decide (joint_type' = Some "fixed") then []
    else given
  else given.

(** The generated [Joint.__init__] followed by [Joint.__post_init__]. *)
Definition Joint_init {F : Type} (name joint_type' parent' child' : pystr)
    (axis' : option (list F)) (limit' : option (list (string * F)))
    (state_interfaces' command_interfaces' hardware_interfaces'
       : option (list pystr)) : Joint F :=
  let state0 := list_or_empty state_interfaces' in
  let command0 := list_or_empty command_interfaces' in
  let hardware0 := list_or_empty hardware_interfaces' in
  mkJoint name joint_type' parent' child' axis' limit'
    (default_interfaces joint_type' state0 [Some "position"; Some "velocity"])
    (default_interfaces joint_type' command0 [Some "position"])
    hardware0.

(** *** The XML tree of [xml.etree.ElementTree] *)

#[local] Unset Elimination Schemes.
Inductive Element : Type :=
| mkElement (tag : string) (attrib : list (string * string))
            (text : pystr) (children : list Element).
#[local] Set Elimination Schemes.

Definition tag (e : Element) : string :=
  match e with mkElement t _ _ _ => t end.
Definition attrib (e : Element) : list (string * string) :=
  match e with mkElement _ a _ _ => a end.
Definition text (e : Element) : pystr :=
  match e with mkElement _ _ t _ => t end.
Definition children (e : Element) : list Element :=
  match e with mkElement _ _ _ c => c end.

(** [e.get(key)] *)
Definition get (e : Element) (key : string) : pystr := dict_get key (attrib e).

(** [e.findall('t')], [e.findall('./t')]: the direct children with tag [t]. *)
Definition findall (t : string) (e : Element) : list Element :=
  List.filter (fun c => String.eqb (tag c) t) (children e).

(** [e.find('t')], [e.find('./t')] *)
Definition find (t : string) (e : Element) : option Element :=
  head (findall t e).

(** [e.find('./t[@k="v"]')] *)
Definition find_with_attr (t k v : string) (e : Element) : option Element :=
  head (List.filter (fun c => bool_decide (get c k = Some v)) (findall t e)).

(** [if s:] for a value that is [None] or a [str]. *)
Definition truthy (s : pystr) : bool :=
  match s with Some "" => false | Some _ => true | None => false end.

(** *** Text

    A [str] is held as the bytes of its UTF-8 encoding, so a text in any
    script is a [string] and a character is the run of one to four bytes
    [utf8] gives for its code point. *)
Definition byte (n : N) : ascii := ascii_of_N n.

Definition utf8 (n : N) : list ascii :=
  (if n <? 0x80 then [byte n]
   else if n <? 0x800 then [byte (0xC0 + n / 64); byte (0x80 + n mod 64)]
   else if n <? 0x10000 then
     [byte (0xE0 + n / 64 / 64); byte (0x80 + (n / 64) mod 64);
      byte (0x80 + n mod 64)]
   else
     [byte (0xF0 + n / 64 / 64 / 64); byte (0x80 + (n / 64 / 64) mod 64);
      byte (0x80 + (n / 64) mod 64); byte (0x80 + n mod 64)])%N.

(** The characters [str.split()] and [str.strip()] take for white space,
    those [str.isspace] accepts: the controls U+0009 to U+000D and U+001C
    to U+001F, the space, U+0085, U+00A0, U+1680, U+2000 to U+200A,
    U+2028, U+2029, U+202F, U+205F and U+3000. *)
Definition white_space : list N :=
  [0x09; 0x0A; 0x0B; 0x0C; 0x0D; 0x1C; 0x1D; 0x1E; 0x1F; 0x20; 0x85; 0xA0;
   0x1680; 0x2000; 0x2001; 0x2002; 0x2003; 0x2004; 0x2005; 0x2006; 0x2007;
   0x2008; 0x2009; 0x200A; 0x2028; 0x2029; 0x202F; 0x205F; 0x3000]%N.

Definition space_chars : list (list ascii) := map utf8 white_space.

Fixpoint is_prefix (p l : list ascii) : bool :=
  match p, l with
  | [], _ => true
  | a :: p', b :: l' => Ascii.eqb a b && is_prefix p' l'
  | _ :: _, [] => false
  end.

(** The number of bytes of the character of [chars] the text [l] starts
    with, 0 when it starts with none of them. *)
Definition space_width (chars : list (list ascii)) (l : list ascii) : nat :=
  match List.find (fun p => is_prefix p l) chars with
  | Some p => length p
  | None => 0%nat
  end.

(** *** [str.split()] *)

(** The word read so far, if any; [cur] holds its bytes, last one first. *)
Definition flush (cur : list ascii) : list string :=
  match cur with
  | [] => []
  | _ => [string_of_list_ascii (rev cur)]
  end.

(** [skip] counts the bytes still to pass of the white space character
    being read. *)
Fixpoint split_aux (skip : nat) (cur : list ascii) (l : list ascii)
  : list string :=
  match l with
  | [] => flush cur
  | c :: r =>
      match skip with
      | S k => split_aux k cur r
      | O =>
          match space_width space_chars l with
          | S k => flush cur ++ split_aux k [] r
          | O => split_aux O (c :: cur) r
          end
      end
  end.

Definition py_split (s : string) : list string :=
  split_aux 0 [] (list_ascii_of_string s).

(** *** Exceptions *)

Inductive exn : Type :=
| ValueError
| AttributeError
| SystemExit (code : Z).

Inductive outcome (A : Type) : Type :=
| Returns (a : A)
| Raises (e : exn).
Arguments Returns {A}.
Arguments Raises {A}.

#[global] Instance outcome_bind : MBind outcome :=
  fun A B k m => match m with Returns a => k a | Raises e => Raises e end.

Section Parser.
Context {F : Type}.
(** Python's [float(s)]; [None] where it raises [ValueError]. *)
Variable py_float : string -> option F.

Definition float (s : string) : outcome F :=
  match py_float s with Some x => Returns x | None => Raises ValueError end.

(** [tuple(map(float, l))] *)
Fixpoint map_float (l : list string) : outcome (list F) :=
  match l with
  | [] => Returns []
  | s :: r => x ← float s; xs ← map_float r; Returns (x :: xs)
  end.

(** The four rounds of [for attr in ['lower', 'upper', 'effort',
    'velocity']] on the dictionary [limit]. *)
Fixpoint parse_limit (limit_elem : Element) (attrs : list string)
    (limit' : list (string * F)) : outcome (list (string * F)) :=
  match attrs with
  | [] => Returns limit'
  | attr :: r =>
      match get limit_elem attr with
      | Some val =>
          if truthy (Some val) then
            x ← float val;
            parse_limit limit_elem r (dict_set attr x limit')
          else parse_limit limit_elem r limit'
      | None => parse_limit limit_elem r limit'
      end
  end.

(** [l.text] for a list [l]: lists have no such attribute. *)
Definition list_text (l : list pystr) : outcome string :=
  Raises AttributeError.

(** One round of the loop over the [joint] elements: the joint to append,
    if any. *)
Definition parse_joint (joint_elem : Element) : outcome (option (Joint F)) :=
  let name := get joint_elem "name" in
  let joint_type' := get joint_elem "type" in
  match find "parent" joint_elem, find "child" joint_elem with
  | Some parent_elem, Some child_elem =>
      let parent' := get parent_elem "link" in
      let child' := get child_elem "link" in
      axis' ←
        match find "axis" joint_elem with
        | Some axis_elem =>
            match get axis_elem "xyz" with
            | Some xyz =>
                if truthy (Some xyz) then
                  t ← map_float (py_split xyz); Returns (Some t)
                else Returns None
            | None => Returns None
            end
        | None => Returns None
        end;
      limit' ←
        match find "limit" joint_elem with
        | Some limit_elem =>
            l ← parse_limit limit_elem
                      ["lower"; "upper"; "effort"; "velocity"] [];
            Returns (Some l)
        | None => Returns None
        end;
      let state0 :=
        match find "ros2_control" joint_elem with
        | Some ros2_control =>
            match find "state_interfaces" ros2_control with
            | Some state_interfaces_elem =>
                map (fun interface => get interface "name")
                    (findall "interface" state_interfaces_elem)
            | None => []
            end
        | None => []
        end in
      let command0 :=
        match find "ros2_control" joint_elem with
        | Some ros2_control =>
            match find "command_interfaces" ros2_control with
            | Some command_interfaces_elem =>
                map (fun interface => get interface "name")
                    (findall "interface" command_interfaces_elem)
            | None => []
            end
        | None => []
        end in
      ifaces ←
        match find "gazebo" joint_elem with
        | Some gazebo =>
            match find_with_attr "plugin" "name" "gazebo_ros_control"
                    gazebo with
            | Some plugin =>
                let state1 :=
                  match find "state_interface" plugin with
                  | Some state_ifaces =>
                      match text state_ifaces with
                      | Some t =>
                          if truthy (Some t) then map Some (py_split t)
                          else state0
                      | None => state0
                      end
                  | None => state0
                  end in
                match find "command_interface" plugin with
                | Some command_ifaces =>
                    if truthy (text command_ifaces) then
                      t ← list_text command0;
                      Returns (state1, map Some (py_split t))
                    else Returns (state1, command0)
                | None => Returns (state1, command0)
                end
            | None => Returns (state0, command0)
            end
        | None => Returns (state0, command0)
        end;
      Returns (Some (Joint_init name joint_type' parent' child' axis' limit'
                       (Some ifaces.1) (Some ifaces.2) None))
  | _, _ => Returns None
  end.

(** The loop over [root.findall('link')]. *)
Definition parse_link (link_elem : Element) : Link :=
  mkLink (get link_elem "name")
         (bool_decide (0 < length (findall "visual" link_elem))%nat)
         (bool_decide (0 < length (findall "collision" link_elem))%nat)
         (bool_decide (is_Some (find "inertial" link_elem))).

Fixpoint parse_links (elems : list Element) (links : list (pystr * Link))
  : list (pystr * Link) :=
  match elems with
  | [] => links
  | link_elem :: r =>
      let l := parse_link link_elem in
      parse_links r (dict_set (link_name l) l links)
  end.

(** The loop over [root.findall('joint')]. *)
Fixpoint parse_joints (elems : list Element) (joints : list (Joint F))
  : outcome (list (Joint F)) :=
  match elems with
  | [] => Returns joints
  | joint_elem :: r =>
      j ← parse_joint joint_elem;
      parse_joints r (match j with Some j' => joints ++ [j'] | None => joints end)
  end.

(** The [try] block of [URDFParser.parse], from [root = tree.getroot()]
    on. *)
Definition parse_body (root : Element)
  : outcome (list (pystr * Link) * list (Joint F)) :=
  let links := parse_links (findall "link" root) [] in
  joints ← parse_joints (findall "joint" root) [];
  Returns (links, joints).

(** [URDFParser.parse] on the tree of a well-formed document: both
    handlers end in [sys.exit(1)]. *)
Definition parse (root : Element)
  : outcome (list (pystr * Link) * list (Joint F)) :=
  match parse_body root with
  | Returns r => Returns r
  | Raises _ => Raises (SystemExit 1)
  end.
End Parser.

(** *** The tree layout

    [self.layout] is only ever tested for membership and assigned to by
    the layout pass, so it is a finite map here.  The recursion of
    [_layout_subtree] is bounded by [fuel]; [None] means the fuel ran
    out.  The depth limit of the Python interpreter is not part of the
    model. *)

Section Layout.
Context {F : Type}.
(** [spacing_x], [spacing_y] and [margin] of the canvas (180, 100 and 50
    in both programs). *)
Variables spacing_x spacing_y margin : Z.

(** A [for] loop whose body may run out of fuel. *)
Fixpoint for_each {A S : Type} (body : A -> S -> option S) (l : list A)
    (s : S) : option S :=
  match l with
  | [] => Some s
  | a :: r =>
      match body a s with
      | Some s' => for_each body r s'
      | None => None
      end
  end.

(** [enumerate(l)], counting from [i]. *)
Fixpoint enumerate_from {A : Type} (i : Z) (l : list A) : list (Z * A) :=
  match l with
  | [] => []
  | a :: r => (i, a) :: enumerate_from (i + 1) r
  end.

Definition enumerate {A : Type} (l : list A) : list (Z * A) :=
  enumerate_from 0 l.

(** The loop that collects [children] in [_layout_subtree]. *)
Fixpoint children_of (link_name' : pystr) (joints : list (Joint F))
  : list (pystr * Joint F) :=
  match joints with
  | [] => []
  | joint :: r =>
      if bool_decide (parent joint = link_name') then
        (child joint, joint) :: children_of link_name' r
      else children_of link_name' r
  end.

(** [_layout_subtree] *)
Fixpoint layout_subtree (fuel : nat) (joints : list (Joint F))
    (link_name' : pystr) (depth y_offset : Z)
    (layout : gmap pystr (Z * Z)) : option (gmap pystr (Z * Z)) :=
  match fuel with
  | O => None
  | S fuel' =>
      match layout !! link_name' with
      | Some _ => Some layout
      | None =>
          let x := margin + depth * spacing_x in
          let y := margin + y_offset in
          let layout1 := <[link_name' := (x, y)]> layout in
          let children := children_of link_name' joints in
          for_each
            (fun ic layout' =>
               let child_y_offset := y_offset + ic.1 * spacing_y in
               layout_subtree fuel' joints ic.2.1 (depth + 1) child_y_offset
                              layout')
            (enumerate children) layout1
      end
  end.

(** The root links of [_calculate_layout]. *)
Definition root_links (links : list (pystr * Link))
    (joints : list (Joint F)) : list pystr :=
  let child_links : gset pystr := list_to_set (map child joints) in
  let roots :=
    List.filter (fun link => bool_decide (link ∉ child_links))
                (dict_keys links) in
  if is_empty roots && negb (is_empty links) then
    match dict_keys links with
    | first :: _ => [first]
    | [] => roots
    end
  else roots.

(** [_calculate_layout] *)
Definition calculate_layout (fuel : nat) (links : list (pystr * Link))
    (joints : list (Joint F)) (layout : gmap pystr (Z * Z))
  : option (gmap pystr (Z * Z)) :=
  for_each
    (fun ir layout' => layout_subtree fuel joints ir.2 0
                         (ir.1 * spacing_y * 2) layout')
    (enumerate (root_links links joints)) layout.

(** *** The reference placement of the specification

    Written from the words of the specification over a node list and an
    edge list (source, target) in insertion order, as a big-step
    relation between the position map before and after. *)

(** All edges whose source equals [n], in edge-insertion order: their
    targets. *)
Definition ref_children (edges : list (pystr * pystr)) (n : pystr)
  : list pystr :=
  map snd (List.filter (fun e => bool_decide (e.1 = n)) edges).

Inductive ref_place (edges : list (pystr * pystr))
  : gmap pystr (Z * Z) -> pystr -> Z -> Z -> gmap pystr (Z * Z) -> Prop :=
| ref_place_sticky pos n depth yOffset p :
    pos !! n = Some p ->
    ref_place edges pos n depth yOffset pos
| ref_place_assign pos n depth yOffset pos' :
    pos !! n = None ->
    ref_place_children edges
      (<[n := (margin + depth * spacing_x, margin + yOffset)]> pos)
      (ref_children edges n) 0 (depth + 1) yOffset pos' ->
    ref_place edges pos n depth yOffset pos'
with ref_place_children (edges : list (pystr * pystr))
  : gmap pystr (Z * Z) -> list pystr -> Z -> Z -> Z ->
    gmap pystr (Z * Z) -> Prop :=
| ref_children_nil pos k depth yOffset :
    ref_place_children edges pos [] k depth yOffset pos
| ref_children_cons pos c cs k depth yOffset pos1 pos2 :
    ref_place edges pos c depth (yOffset + k * spacing_y) pos1 ->
    ref_place_children edges pos1 cs (k + 1) depth yOffset pos2 ->
    ref_place_children edges pos (c :: cs) k depth yOffset pos2.

(** A root never appears as an edge target; without any, the first node
    by iteration order is the sole root. *)
Definition ref_roots (nodes : list pystr) (edges : list (pystr * pystr))
  : list pystr :=
  match List.filter (fun n => bool_decide (n ∉ map snd edges)) nodes with
  | [] => take 1 nodes
  | r :: rs => r :: rs
  end.

(** The root of index [i] starts at [yOffset = i * verticalSpacing * 2]. *)
Inductive ref_place_roots (edges : list (pystr * pystr))
  : gmap pystr (Z * Z) -> list pystr -> Z -> gmap pystr (Z * Z) -> Prop :=
| ref_roots_nil pos i : ref_place_roots edges pos [] i pos
| ref_roots_cons pos r rs i pos1 pos2 :
    ref_place edges pos r 0 (i * spacing_y * 2) pos1 ->
    ref_place_roots edges pos1 rs (i + 1) pos2 ->
    ref_place_roots edges pos (r :: rs) i pos2.

Definition ref_layout (nodes : list pystr) (edges : list (pystr * pystr))
    (prior pos : gmap pystr (Z * Z)) : Prop :=
  ref_place_roots edges prior (ref_roots nodes edges) 0 pos.

(** The graph a parsed robot description stands for. *)
Definition nodes_of (links : list (pystr * Link)) : list pystr :=
  dict_keys links.

Definition edges_of (joints : list (Joint F)) : list (pystr * pystr) :=
  map (fun joint => (parent joint, child joint)) joints.
End Layout.

(** *** Notions the layout properties are stated with *)

(** A link the pass gets to: a root, or the child of a joint whose parent
    the pass gets to. *)
Inductive reached {F : Type} (links : list (pystr * Link))
    (joints : list (Joint F)) : pystr -> Prop :=
| reached_root r :
    r ∈ root_links links joints -> reached links joints r
| reached_child j :
    j ∈ joints -> reached links joints (parent j) ->
    reached links joints (child j).

(** A position of the grid the pass draws on. *)
Definition on_grid (spacing_x spacing_y margin : Z) (p : Z * Z) : Prop :=
  exists depth k : Z,
    0 <= depth /\ 0 <= k
    /\ p = (margin + depth * spacing_x, margin + k * spacing_y).

(** What a call of [_layout_subtree] does to the position map: it keeps
    what was there, the links it adds are on the grid, and the children of
    a link it adds have a position when it returns. *)
Definition layout_step {F : Type} (spacing_x spacing_y margin : Z)
    (joints : list (Joint F)) (pos pos' : gmap pystr (Z * Z)) : Prop :=
  pos ⊆ pos'
  /\ (forall n p, pos !! n = None -> pos' !! n = Some p ->
        on_grid spacing_x spacing_y margin p)
  /\ (forall j, j ∈ joints -> pos !! parent j = None ->
        is_Some (pos' !! parent j) -> is_Some (pos' !! child j)).

(** *** Sample robot descriptions *)

Definition elem (t : string) (a : list (string * string))
    (c : list Element) : Element :=
  mkElement t a None c.

Definition link_base : Element := elem "link" [("name", "base")] [].
Definition link_arm : Element := elem "link" [("name", "arm")] [].

(** A revolute joint [base -> arm] whose [gazebo_ros_control] plugin names
    its interfaces in text. *)
Definition joint_gazebo (plugin_children : list Element) : Element :=
  elem "joint" [("name", "shoulder"); ("type", "revolute")]
    [elem "parent" [("link", "base")] [];
     elem "child" [("link", "arm")] [];
     elem "gazebo" []
       [elem "plugin" [("name", "gazebo_ros_control")] plugin_children]].

Definition state_interface_text : Element :=
  mkElement "state_interface" [] (Some "position velocity") [].

Definition command_interface_text : Element :=
  mkElement "command_interface" [] (Some "effort") [].

Definition robot_gazebo_both : Element :=
  elem "robot" [("name", "r")]
    [link_base; link_arm;
     joint_gazebo [state_interface_text; command_interface_text]].

Definition robot_gazebo_state_only : Element :=
  elem "robot" [("name", "r")]
    [link_base; link_arm; joint_gazebo [state_interface_text]].

(** Links [L1], [L2], [L3] with joints [L1 -> L2] and [L1 -> L3]. *)
Definition three_links : list (pystr * Link) :=
  [(Some "L1", mkLink (Some "L1") false false false);
   (Some "L2", mkLink (Some "L2") false false false);
   (Some "L3", mkLink (Some "L3") false false false)].

Definition two_joints : list (Joint Q) :=
  [Joint_init (Some "j12") (Some "fixed") (Some "L1") (Some "L2")
              None None None None None;
   Joint_init (Some "j13") (Some "fixed") (Some "L1") (Some "L3")
              None None None None None].

(** *** Notions the reader properties are stated with *)

(** A text given by its code points. *)
Definition encode (points : list N) : string :=
  string_of_list_ascii (concat (map utf8 points)).

(** What a [joint] element says about the structure of the robot, when it
    has a [parent] and a [child] element: name, type, parent link and
    child link. *)
Definition joint_endpoints (joint_elem : Element)
  : option (pystr * pystr * pystr * pystr) :=
  match find "parent" joint_elem, find "child" joint_elem with
  | Some parent_elem, Some child_elem =>
      Some (get joint_elem "name", get joint_elem "type",
            get parent_elem "link", get child_elem "link")
  | _, _ => None
  end.

Definition joint_signature {F : Type} (j : Joint F)
  : pystr * pystr * pystr * pystr :=
  (joint_name j, joint_type j, parent j, child j).

(** A joint whose axis has a component that is no number. *)
Definition robot_bad_axis : Element :=
  elem "robot" [("name", "r")]
    [link_base; link_arm;
     elem "joint" [("name", "shoulder"); ("type", "revolute")]
       [elem "parent" [("link", "base")] [];
        elem "child" [("link", "arm")] [];
        elem "axis" [("xyz", "0 0 one")] []]].

(** A [float] that reads no string at all, and one that reads ["0"]. *)
Definition no_float (s : string) : option Q := None.
Definition zero_float (s : string) : option Q :=
  if String.eqb s "0" then Some 0%Q else None.

(** What [parse] returns on [robot_gazebo_state_only]. *)
Definition links_base_arm : list (pystr * Link) :=
  [(Some "base", mkLink (Some "base") false false false);
   (Some "arm", mkLink (Some "arm") false false false)].

Definition joint_shoulder : Joint Q :=
  Joint_init (Some "shoulder") (Some "revolute") (Some "base") (Some "arm")
             None None (Some [Some "position"; Some "velocity"]) (Some [])
             None.

(** *** Hardware interfaces typed in by the user *)

(** [s.split(",")]; [cur] holds the characters of the piece being read,
    last one first. *)
Fixpoint split_on_aux (sep : ascii) (cur : list ascii) (s : string)
  : list string :=
  match s with
  | EmptyString => [string_of_list_ascii (rev cur)]
  | String c r =>
      if Ascii.eqb c sep then
        string_of_list_ascii (rev cur) :: split_on_aux sep [] r
      else split_on_aux sep (c :: cur) r
  end.

Definition split_on (sep : ascii) (s : string) : list string :=
  split_on_aux sep [] s.

Definition comma : ascii := Ascii.ascii_of_nat 44.

(** The text [l] without the characters of [chars] it starts with. *)
Fixpoint drop_space (chars : list (list ascii)) (skip : nat)
    (l : list ascii) : list ascii :=
  match l with
  | [] => []
  | _ :: r =>
      match skip with
      | S k => drop_space chars k r
      | O =>
          match space_width chars l with
          | S k => drop_space chars k r
          | O => l
          end
      end
  end.

(** [s.strip()]: white space is cut off in front, then, read backwards,
    at the end. *)
Definition strip (s : string) : string :=
  string_of_list_ascii
    (rev (drop_space (map (@rev ascii) space_chars) 0
            (rev (drop_space space_chars 0 (list_ascii_of_string s))))).

(** [[iface.strip() for iface in hw_interface.split(",") if
    iface.strip()]] *)
Definition interface_names (hw_interface : string) : list string :=
  List.filter (fun iface => truthy (Some iface))
              (map strip (split_on comma hw_interface)).

(** The end of [_on_add_hardware_interface] and of
    [_add_hardware_interface], from [if hw_interface:] on; [hw_interface]
    is the answer of the dialog, [None] when it was cancelled. *)
Definition set_hardware_interfaces {F : Type} (hw_interface : pystr)
    (joint : Joint F) : Joint F :=
  match hw_interface with
  | Some s =>
      if truthy (Some s) then
        mkJoint (joint_name joint) (joint_type joint) (parent joint)
                (child joint) (axis joint) (limit joint)
                (state_interfaces joint) (command_interfaces joint)
                (map Some (interface_names s))
      else joint
  | None => joint
  end.

(** The white space of Python, by the ranges of its code points. *)
Definition space_point (n : N) : bool :=
  ((0x09 <=? n) && (n <=? 0x0D) || (0x1C <=? n) && (n <=? 0x20)
   || (n =? 0x85) || (n =? 0xA0) || (n =? 0x1680)
   || (0x2000 <=? n) && (n <=? 0x200A) || (n =? 0x2028) || (n =? 0x2029)
   || (n =? 0x202F) || (n =? 0x205F) || (n =? 0x3000))%N.

(** The bytes 0x80 to 0xBF continue a character; any other byte starts
    one, and tells how many bytes follow it. *)
Definition continuation (c : ascii) : bool :=
  let n := N_of_ascii c in ((0x80 <=? n) && (n <? 0xC0))%N.

Definition tail_length (c : ascii) : nat :=
  let n := N_of_ascii c in
  if (n <? 0xC0)%N then 0%nat
  else if (n <? 0xE0)%N then 1%nat
  else if (n <? 0xF0)%N then 2%nat else 3%nat.

(** An entry of the answer typed into the dialog, by its code points:
    white space, a name, white space.  The name may be missing; when it
    is there it has no comma and neither starts nor ends with white
    space. *)
Record entry : Type := mkEntry {
  before : list N;
  name_points : list N;
  after : list N
}.

Definition entry_text (e : entry) : string :=
  encode (before e ++ name_points e ++ after e).

Definition well_formed_entry (e : entry) : Prop :=
  Forall (fun n => space_point n = true) (before e)
  /\ Forall (fun n => space_point n = true) (after e)
  /\ Forall (fun n => (n < 0x110000)%N /\ n <> 44%N) (name_points e)
  /\ (forall n, head (name_points e) = Some n -> space_point n = false)
  /\ (forall n, last (name_points e) = Some n -> space_point n = false).

End Urdf.

(** * Properties *)

(** ** Dictionaries *)

Section PyDictFacts.
Context {K V : Type} `{EqDecision K}.
Implicit Types (k : K) (v : V) (d : list (K * V)).

Lemma dict_get_set k k' v d :
  dict_get k' (dict_set k v d) =
  if decide (k = k') then Some v else dict_get k' d.
Proof.
  induction d as [|[k0 v0] d IH]; simpl.
  - repeat case_decide; congruence.
  - destruct (decide (k0 = k)) as [->|Hne]; simpl.
    + repeat case_decide; congruence.
    + rewrite IH. repeat case_decide; congruence.
Qed.

Lemma dict_get_set_eq k v d : dict_get k (dict_set k v d) = Some v.
Proof. rewrite dict_get_set. by rewrite decide_True. Qed.

Lemma dict_get_set_ne k k' v d :
  k <> k' -> dict_get k' (dict_set k v d) = dict_get k' d.
Proof. intros. rewrite dict_get_set. by rewrite decide_False. Qed.

Lemma dict_get_Some_elem k v d : dict_get k d = Some v -> (k, v) ∈ d.
Proof.
  induction d as [|[k0 v0] d IH]; simpl; [done|].
  case_decide; intros Hg.
  - simplify_eq. left.
  - right. auto.
Qed.

Lemma dict_get_None k d : dict_get k d = None <-> k ∉ dict_keys d.
Proof.
  unfold dict_keys.
  induction d as [|[k0 v0] d IH]; simpl.
  - split; [intros _; apply not_elem_of_nil | done].
  - rewrite not_elem_of_cons. case_decide; split.
    + done.
    + intros [? _]. congruence.
    + intros. split; [congruence | by apply IH].
    + intros [_ ?]. by apply IH.
Qed.

Lemma dict_get_elem_wf k v d :
  dict_wf d -> (k, v) ∈ d -> dict_get k d = Some v.
Proof.
  unfold dict_wf, dict_keys.
  induction d as [|[k0 v0] d IH]; simpl; intros Hwf Hin.
  - by apply elem_of_nil in Hin.
  - apply NoDup_cons in Hwf as [Hk0 Hwf].
    apply elem_of_cons in Hin as [Heq|Hin].
    + simplify_eq. by rewrite decide_True.
    + rewrite decide_False; [by apply IH|].
      intros ->. apply Hk0. apply list_elem_of_fmap. by exists (k, v).
Qed.

Lemma dict_get_Some_elem_inv k v kv d :
  kv ∈ dict_set k v d -> kv.1 = k \/ kv ∈ d.
Proof.
  induction d as [|[k0 v0] d IH]; simpl.
  - intros ->%list_elem_of_singleton. by left.
  - case_decide; subst.
    + intros [->|?]%elem_of_cons; [by left | right; by right].
    + intros [->|?]%elem_of_cons; [right; left|].
      destruct IH as [?|?]; [done | by left | right; by right].
Qed.

(** Assigning a value the key already has changes nothing. *)
Lemma dict_set_same k v d : dict_get k d = Some v -> dict_set k v d = d.
Proof.
  induction d as [|[k0 v0] d IH]; simpl; [done|].
  case_decide; intros Hg.
  - by simplify_eq.
  - by rewrite IH.
Qed.

(** A new key goes to the end. *)
Lemma dict_set_new k v d : k ∉ dict_keys d -> dict_set k v d = d ++ [(k, v)].
Proof.
  unfold dict_keys.
  induction d as [|[k0 v0] d IH]; simpl; [done|].
  rewrite not_elem_of_cons. intros [Hne Hnin].
  rewrite decide_False by congruence. by rewrite IH.
Qed.

Lemma dict_keys_set_present k v d :
  is_Some (dict_get k d) -> dict_keys (dict_set k v d) = dict_keys d.
Proof.
  unfold dict_keys.
  induction d as [|[k0 v0] d IH]; simpl.
  - by intros [? ?].
  - case_decide; intros Hs; simpl; [by subst | f_equal; by apply IH].
Qed.

Lemma dict_get_del k k' d :
  dict_get k' (dict_del k d) = if decide (k = k') then None else dict_get k' d.
Proof.
  induction d as [|[k0 v0] d IH]; simpl.
  - by case_decide.
  - destruct (decide (k0 = k)) as [->|Hne]; simpl.
    + rewrite IH. repeat case_decide; congruence.
    + rewrite IH. repeat case_decide; congruence.
Qed.

Lemma elem_of_dict_del k kv d : kv ∈ dict_del k d <-> kv ∈ d /\ kv.1 <> k.
Proof.
  induction d as [|[k0 v0] d IH]; simpl.
  - split; [by intros ?%elem_of_nil | by intros [?%elem_of_nil _]].
  - case_decide; rewrite ?elem_of_cons, IH.
    + split; [naive_solver|]. intros [[->|?] ?]; [done | naive_solver].
    + split; [|naive_solver]. intros [->|[? ?]]; naive_solver.
Qed.

Lemma dict_del_absent k d : k ∉ dict_keys d -> dict_del k d = d.
Proof.
  unfold dict_keys.
  induction d as [|[k0 v0] d IH]; simpl; [done|].
  rewrite not_elem_of_cons. intros [Hne Hnin].
  rewrite decide_False by congruence. by rewrite IH.
Qed.

Lemma elem_of_foldl_dict_del ks kv d :
  kv ∈ foldl (fun cs k => dict_del k cs) d ks <-> kv ∈ d /\ kv.1 ∉ ks.
Proof.
  revert d. induction ks as [|k ks IH]; intros d; simpl.
  - split; [intros; split; [done | apply not_elem_of_nil] | by intros [? _]].
  - rewrite IH, elem_of_dict_del, not_elem_of_cons. naive_solver.
Qed.
Lemma dict_wf_set k v d : dict_wf d -> dict_wf (dict_set k v d).
Proof.
  unfold dict_wf, dict_keys.
  induction d as [|[k0 v0] d IH]; simpl; intros Hwf.
  - apply NoDup_singleton.
  - apply NoDup_cons in Hwf as [Hk0 Hwf]. case_decide; subst; simpl.
    + by apply NoDup_cons.
    + apply NoDup_cons. split; [|by apply IH].
      intros ([k' v'] & Heq & Hin)%list_elem_of_fmap. simpl in Heq. subst k'.
      apply dict_get_Some_elem_inv in Hin as [Heq | Hin]; [done|].
      apply Hk0, list_elem_of_fmap. by exists (k0, v').
Qed.

Lemma dict_wf_del k d : dict_wf d -> dict_wf (dict_del k d).
Proof.
  unfold dict_wf, dict_keys.
  induction d as [|[k0 v0] d IH]; simpl; intros Hwf; [done|].
  apply NoDup_cons in Hwf as [Hk0 Hwf]. case_decide; subst; [by apply IH|].
  simpl. apply NoDup_cons. split; [|by apply IH].
  intros ([k' v'] & Heq & [Hin _]%elem_of_dict_del)%list_elem_of_fmap.
  simpl in Heq. subst k'.
  apply Hk0, list_elem_of_fmap. by exists (k0, v').
Qed.

Lemma dict_wf_foldl_del ks d :
  dict_wf d -> dict_wf (foldl (fun cs k => dict_del k cs) d ks).
Proof.
  revert d. induction ks as [|k ks IH]; intros d Hwf; simpl; [done|].
  by apply IH, dict_wf_del.
Qed.

Lemma elem_of_dict_set k v kv d : kv ∈ dict_set k v d -> kv = (k, v) \/ kv ∈ d.
Proof.
  induction d as [|[k0 v0] d IH]; simpl.
  - intros ->%list_elem_of_singleton. by left.
  - case_decide; subst.
    + intros [->|?]%elem_of_cons; [by left | right; by right].
    + intros [->|?]%elem_of_cons; [right; left|].
      destruct IH as [?|?]; [done | by left | right; by right].
Qed.

(** Deleting a key that was just added undoes the assignment. *)
Lemma dict_del_set_new k v d : k ∉ dict_keys d -> dict_del k (dict_set k v d) = d.
Proof.
  unfold dict_keys.
  induction d as [|[k0 v0] d IH]; simpl.
  - intros _. by rewrite decide_True.
  - rewrite not_elem_of_cons. intros [Hne Hnin].
    rewrite decide_False by congruence. simpl.
    rewrite decide_False by congruence. by rewrite IH.
Qed.

Lemma dict_set_set k v1 v2 d : dict_set k v2 (dict_set k v1 d) = dict_set k v2 d.
Proof.
  induction d as [|[k0 v0] d IH]; simpl.
  - by rewrite decide_True.
  - case_decide; simpl.
    + by rewrite decide_True.
    + rewrite decide_False by done. by rewrite IH.
Qed.

End PyDictFacts.

(** ** The block editor *)

Module EditorFacts.
Import Editor.

(** *** Ports of a block *)


Lemma find_port_app pid ps qs :
  find_port pid (ps ++ qs) =
  match find_port pid ps with Some p => Some p | None => find_port pid qs end.
Proof.
  induction ps as [|q ps IH]; simpl; [done|].
  by destruct (String.eqb (port_id q) pid).
Qed.

Lemma find_port_update pid pid' f ps :
  (forall p, port_id (f p) = port_id p) ->
  find_port pid' (update_port pid f ps) =
  if decide (pid = pid') then f <$> find_port pid ps else find_port pid' ps.
Proof.
  intros Hf. induction ps as [|q ps IH]; simpl.
  - by case_decide.
  - destruct (String.eqb_spec (port_id q) pid) as [Hq|Hq]; simpl.
    + rewrite Hf. case_decide; subst.
      * by rewrite String.eqb_refl.
      * by destruct (String.eqb_spec (port_id q) pid').
    + rewrite IH. case_decide; subst.
      * by destruct (String.eqb_spec (port_id q) pid').
      * done.
Qed.

Lemma find_port_update_None pid f ps :
  find_port pid ps = None -> update_port pid f ps = ps.
Proof.
  induction ps as [|q ps IH]; simpl; [done|].
  destruct (String.eqb (port_id q) pid); [done|]. intros. by rewrite IH.
Qed.

Lemma get_port_by_id_update pid pid' f b :
  (forall p, port_id (f p) = port_id p) ->
  get_port_by_id (block_update_port pid f b) pid' =
  if decide (pid = pid') then f <$> get_port_by_id b pid
  else get_port_by_id b pid'.
Proof.
  intros Hf. unfold get_port_by_id, block_update_port.
  destruct (find_port pid (inputs b)) as [p0|] eqn:Hin; simpl;
    rewrite !find_port_app, ?find_port_update by done.
  - rewrite Hin. by case_decide.
  - rewrite Hin. case_decide; [subst; by rewrite Hin | done].
Qed.

Lemma set_connected_to_id v p : port_id (set_connected_to v p) = port_id p.
Proof. done. Qed.

(** Resolution after the port [(tb, tp)] went through [f]. *)
Lemma resolve_update g tb tp f b cs bid pid :
  (forall p, port_id (f p) = port_id p) ->
  dict_get tb (blocks g) = Some b ->
  resolve (mkBlockCanvas (dict_set tb (block_update_port tp f b) (blocks g)) cs)
          bid pid =
  if decide (tb = bid /\ tp = pid) then f <$> resolve g bid pid
  else resolve g bid pid.
Proof.
  intros Hf Hb. unfold resolve; simpl. rewrite dict_get_set.
  destruct (decide (tb = bid)) as [->|Hne].
  - rewrite Hb, get_port_by_id_update by done.
    destruct (decide (tp = pid)) as [->|Hne'].
    + by rewrite decide_True.
    + by rewrite decide_False by naive_solver.
  - by rewrite decide_False by naive_solver.
Qed.

(** *** [connect_ports] *)


(** [connect_ports] as a test followed by two assignments. *)
Lemma connect_ports_unfold g fresh sb sp tb tp :
  connect_ports fresh sb sp tb tp g =
  if connectable g sb sp tb tp then
    (Some (mkConnection fresh sb sp tb tp),
     mkBlockCanvas (point_back tb tp (Some sp) (blocks g))
       (dict_set fresh (mkConnection fresh sb sp tb tp) (connections g)))
  else (None, g).
Proof.
  unfold connect_ports, connectable, point_back, resolve, types_compatible.
  destruct (dict_get sb (blocks g)) as [sblk|];
    destruct (dict_get tb (blocks g)) as [tblk|]; try done.
  - destruct (get_port_by_id sblk sp) as [a|];
      destruct (get_port_by_id tblk tp) as [b|]; try done.
    destruct (is_input a), (is_input b); simpl; try done.
    by destruct (_ && _).
  - by destruct (get_port_by_id sblk sp).
Qed.

Lemma resolve_point_back g tb tp v cs bid pid :
  resolve (mkBlockCanvas (point_back tb tp v (blocks g)) cs) bid pid =
  if decide (tb = bid /\ tp = pid) then set_connected_to v <$> resolve g bid pid
  else resolve g bid pid.
Proof.
  unfold point_back.
  destruct (dict_get tb (blocks g)) as [tblk|] eqn:Htb.
  - destruct (get_port_by_id tblk tp) as [b|] eqn:Hb.
    + by apply resolve_update.
    + case_decide as Hd; [|done]. destruct Hd as [<- <-].
      unfold resolve; simpl. by rewrite Htb, Hb.
  - case_decide as Hd; [|done]. destruct Hd as [<- <-].
    unfold resolve; simpl. by rewrite Htb.
Qed.

(** Pointing a port back leaves every test of [connect_ports] as it was. *)
Lemma connectable_point_back g tb tp v cs sb' sp' tb' tp' :
  connectable (mkBlockCanvas (point_back tb tp v (blocks g)) cs) sb' sp' tb' tp'
  = connectable g sb' sp' tb' tp'.
Proof.
  unfold connectable. rewrite !resolve_point_back.
  repeat case_decide;
    destruct (resolve g sb' sp') as [a|]; destruct (resolve g tb' tp') as [b|];
    done.
Qed.

Lemma point_back_wf tb tp v bs : dict_wf bs -> dict_wf (point_back tb tp v bs).
Proof.
  intros Hwf. unfold point_back.
  destruct (dict_get tb bs) as [b|]; [|done].
  destruct (get_port_by_id b tp); [by apply dict_wf_set | done].
Qed.

Lemma disconnect_ports_unfold cid g :
  disconnect_ports cid g =
  match dict_get cid (connections g) with
  | Some conn =>
      mkBlockCanvas
        (point_back (target_block_id conn) (target_port_id conn) None (blocks g))
        (dict_del cid (connections g))
  | None => g
  end.
Proof.
  unfold disconnect_ports, point_back.
  destruct (dict_get cid (connections g)) as [conn|]; [|done].
  destruct (dict_get _ (blocks g)) as [tblk|]; [|done].
  by destruct (get_port_by_id tblk _).
Qed.

(** The canvases the four operations build hold Python dictionaries. *)
Lemma reachable_wf g : reachable g -> canvas_wf g.
Proof.
  induction 1 as [|g b _ [IHb IHc] _|g bid _ [IHb IHc]
                  |g fresh sb sp tb tp _ [IHb IHc]|g cid _ [IHb IHc]].
  - split; apply NoDup_nil_2.
  - split; [by apply dict_wf_set | done].
  - unfold remove_block. destruct (dict_mem bid (blocks g)); [|done].
    split; [by apply dict_wf_del | by apply dict_wf_foldl_del].
  - rewrite connect_ports_unfold.
    destruct (connectable g sb sp tb tp); [|done].
    split; [by apply point_back_wf | by apply dict_wf_set].
  - rewrite disconnect_ports_unfold.
    destruct (dict_get cid (connections g)); [|done].
    split; [by apply point_back_wf | by apply dict_wf_del].
Qed.

(** C10.  [connect_ports] does not compare its two block arguments: on the
    canvas made of one block that owns an output port [o] and an input
    port [i] of compatible data types, connecting the block to itself
    returns an edge from the block to the block, and afterwards [i] points
    back to [o], a port of the same block. *)
Theorem connect_ports_self_loop (b : Block) (o i : Port) (fresh : string) :
  get_port_by_id b (port_id o) = Some o ->
  get_port_by_id b (port_id i) = Some i ->
  is_input o = false ->
  is_input i = true ->
  types_compatible (data_type o) (data_type i) = true ->
  let g := add_block b empty_canvas in
  let r := connect_ports fresh (block_id b) (port_id o)
                         (block_id b) (port_id i) g in
  blocks g = [(block_id b, b)]
  /\ r.1 = Some (mkConnection fresh (block_id b) (port_id o)
                              (block_id b) (port_id i))
  /\ dict_get fresh (connections r.2)
     = Some (mkConnection fresh (block_id b) (port_id o)
                          (block_id b) (port_id i))
  /\ dict_keys (blocks r.2) = [block_id b]
  /\ (exists i',
        resolve r.2 (block_id b) (port_id i) = Some i'
        /\ connected_to i' = Some (port_id o)
        /\ port_fields i' = port_fields i)
  /\ resolve r.2 (block_id b) (port_id o) = Some o.
Proof.
  intros Ho Hi Hout Hin Hty g r.
  assert (Hro : resolve g (block_id b) (port_id o) = Some o).
  { unfold resolve, g; simpl. by rewrite decide_True. }
  assert (Hri : resolve g (block_id b) (port_id i) = Some i).
  { unfold resolve, g; simpl. by rewrite decide_True. }
  assert (Hne : port_id i <> port_id o).
  { intros Heq. rewrite Heq in Hi. congruence. }
  subst r. rewrite connect_ports_unfold. unfold connectable.
  rewrite Hro, Hri, Hout, Hin, Hty. cbn [negb andb fst snd].
  split_and!; try done.
  - cbn [connections]. apply dict_get_set_eq.
  - unfold point_back, g; simpl. rewrite decide_True by done. rewrite Hi.
    simpl. by rewrite decide_True.
  - exists (set_connected_to (Some (port_id o)) i). split_and!; [|done|done].
    rewrite resolve_point_back, decide_True by done. by rewrite Hri.
  - rewrite resolve_point_back, decide_False by naive_solver. done.
Qed.

(** The function block of the editor, connected to itself. *)
Lemma connect_ports_self_loop_witness :
  let r := connect_ports "c1" "L" "loop_out" "L" "loop_in"
             (add_block block_L empty_canvas) in
  r.1 = Some (mkConnection "c1" "L" "loop_out" "L" "loop_in")
  /\ (connected_to <$> resolve r.2 "L" "loop_in") = Some (Some "loop_out").
Proof.
  destruct (connect_ports_self_loop block_L loop_out loop_in "c1"
              eq_refl eq_refl eq_refl eq_refl eq_refl)
    as (_ & Hr & _ & _ & (i' & Hi & Hc & _) & _).
  split; [exact Hr|].
  apply (f_equal (fmap connected_to)) in Hi.
  cbn [fmap option_fmap option_map] in Hi. rewrite Hc in Hi. exact Hi.
Defined.

(** *** [add_block] *)

(** C9, as the specification has it, fails: on a canvas that holds a
    block under the id ["A"], adding another block built with the id
    ["A"] returns normally, and the canvas then holds the new block in
    place of the old one. *)
Lemma add_block_duplicate_id_replaces :
  let g := add_block block_A empty_canvas in
  dict_get "A" (blocks g) = Some block_A
  /\ block_id block_A' = "A"
  /\ block_A' <> block_A
  /\ dict_get "A" (blocks (add_block block_A' g)) = Some block_A'
  /\ blocks (add_block block_A' g) = [("A", block_A')].
Proof. by split_and!. Qed.

(** C9, amended.  [add_block] has no duplicate test and no failing path:
    it stores the block under its id, in place of a block already stored
    under that id (whose place in the iteration order it takes) and as a
    new last entry otherwise; every other block and the connection map
    are left as they were. *)
Theorem add_block_spec (g : BlockCanvas) (b : Block) :
  let g' := add_block b g in
  dict_get (block_id b) (blocks g') = Some b
  /\ (forall k, k <> block_id b ->
        dict_get k (blocks g') = dict_get k (blocks g))
  /\ connections g' = connections g
  /\ (is_Some (dict_get (block_id b) (blocks g)) ->
        dict_keys (blocks g') = dict_keys (blocks g))
  /\ (dict_get (block_id b) (blocks g) = None ->
        blocks g' = blocks g ++ [(block_id b, b)]).
Proof.
  cbv zeta. unfold add_block; cbn [blocks connections]. split_and!.
  - apply dict_get_set_eq.
  - intros k Hk. by apply dict_get_set_ne.
  - done.
  - apply dict_keys_set_present.
  - intros Hn. apply dict_set_new. by apply dict_get_None.
Qed.

(** *** [remove_block] *)

Lemma dict_mem_true {V} (k : string) (d : list (string * V)) :
  dict_mem k d = true <-> is_Some (dict_get k d).
Proof.
  unfold dict_mem. destruct (dict_get k d); split; try done.
Qed.

Lemma elem_of_conn_to_remove bid cid cs :
  cid ∈ conn_to_remove bid cs <->
  exists conn, (cid, conn) ∈ cs /\ conn_involves bid conn = true.
Proof.
  induction cs as [|[k c] cs IH]; simpl.
  - split; [by intros ?%elem_of_nil | by intros (? & ?%elem_of_nil & _)].
  - destruct (conn_involves bid c) eqn:Hc.
    + rewrite elem_of_cons, IH. split.
      * intros [->|(conn & ? & ?)]; [exists c | exists conn];
          split; try done; [left | by right].
      * intros (conn & [?|?]%elem_of_cons & ?); simplify_eq; [by left|].
        right. by exists conn.
    + rewrite IH. split.
      * intros (conn & ? & ?). exists conn. split; [by right | done].
      * intros (conn & [?|?]%elem_of_cons & ?); simplify_eq; [congruence|].
        by exists conn.
Qed.

Lemma conn_involves_true bid conn :
  conn_involves bid conn = true <->
  source_block_id conn = bid \/ target_block_id conn = bid.
Proof.
  unfold conn_involves. rewrite orb_true_iff, !String.eqb_eq. done.
Qed.

Lemma dict_del_filter {V} (k : string) (d : list (string * V)) :
  dict_del k d = List.filter (fun kv => negb (bool_decide (kv.1 = k))) d.
Proof.
  induction d as [|[k0 v0] d IH]; cbn [dict_del List.filter fst]; [done|].
  case_decide; case_bool_decide; try done. cbn [negb]. by rewrite IH.
Qed.

Lemma foldl_dict_del_filter {V} (ks : list string) (d : list (string * V)) :
  foldl (fun cs k => dict_del k cs) d ks
  = List.filter (fun kv => negb (bool_decide (kv.1 ∈ ks))) d.
Proof.
  revert d. induction ks as [|k ks IH]; intros d; cbn [foldl].
  - induction d as [|kv d IHd]; cbn [List.filter]; [done|].
    case_bool_decide as Hin; [by apply elem_of_nil in Hin|].
    cbn [negb]. by rewrite <- IHd.
  - rewrite IH, dict_del_filter. clear IH.
    induction d as [|kv d IHd]; cbn [List.filter]; [done|].
    repeat case_bool_decide; cbn [negb List.filter]; rewrite ?IHd;
      repeat case_bool_decide; cbn [negb];
      try done; set_solver.
Qed.

(** C8.  [remove_block] on an id the canvas does not hold returns the
    canvas as it is.  On an id it holds, the block is gone, every other
    block is kept, every edge kept was there before, and no edge whose
    source or target block is the removed one remains: the connection map
    is the old one without exactly those edges. *)
Theorem remove_block_spec (g : BlockCanvas) (bid : string) :
  let g' := remove_block bid g in
  (dict_get bid (blocks g) = None -> g' = g)
  /\ (is_Some (dict_get bid (blocks g)) ->
      dict_get bid (blocks g') = None
      /\ (forall k, k <> bid -> dict_get k (blocks g') = dict_get k (blocks g))
      /\ (forall cid conn, (cid, conn) ∈ connections g' ->
            (cid, conn) ∈ connections g
            /\ source_block_id conn <> bid /\ target_block_id conn <> bid)
      /\ (forall cid conn, (cid, conn) ∈ connections g ->
            source_block_id conn = bid \/ target_block_id conn = bid ->
            ((cid, conn) ∉ connections g')
            /\ dict_get cid (connections g') = None)
      /\ (dict_wf (connections g) ->
            connections g'
            = List.filter (fun kv => negb (conn_involves bid kv.2))
                          (connections g))).
Proof.
  cbv zeta. unfold remove_block. split.
  - intros Hn. unfold dict_mem. by rewrite Hn.
  - intros Hs. apply dict_mem_true in Hs as Hm. rewrite Hm.
    cbn [blocks connections].
    assert (Hkept : forall cid conn,
      (cid, conn) ∈ foldl (fun cs k => dict_del k cs) (connections g)
                      (conn_to_remove bid (connections g)) ->
      (cid, conn) ∈ connections g
      /\ source_block_id conn <> bid /\ target_block_id conn <> bid).
    { intros cid conn [Hin Hnot]%elem_of_foldl_dict_del. split; [done|].
      simpl in Hnot. rewrite elem_of_conn_to_remove in Hnot.
      split; intros Heq; apply Hnot; exists conn;
        (split; [done | apply conn_involves_true; auto]). }
    split_and!.
    + rewrite dict_get_del. by rewrite decide_True.
    + intros k Hk. rewrite dict_get_del. by rewrite decide_False.
    + done.
    + intros cid conn Hin Hinv.
      assert (Hrm : cid ∈ conn_to_remove bid (connections g)).
      { apply elem_of_conn_to_remove. exists conn.
        split; [done | by apply conn_involves_true]. }
      split.
      * rewrite elem_of_foldl_dict_del. intros [_ Hnot]. by apply Hnot.
      * apply dict_get_None. unfold dict_keys.
        intros ([k c] & -> & Hkc)%list_elem_of_fmap.
        apply elem_of_foldl_dict_del in Hkc as [_ Hnot]. by apply Hnot.
    + intros Hwf. rewrite foldl_dict_del_filter.
      apply List.filter_ext_in. intros [k c] Hin%list_elem_of_In. simpl.
      f_equal. destruct (conn_involves bid c) eqn:Hc.
      * apply bool_decide_eq_true_2, elem_of_conn_to_remove. by exists c.
      * apply bool_decide_eq_false_2.
        intros (c' & Hin' & Hc')%elem_of_conn_to_remove.
        apply (dict_get_elem_wf _ _ _ Hwf) in Hin, Hin'. congruence.
Qed.

(** *** Edges into one input port *)

Lemma new_block_A : new_block block_A.
Proof. split; repeat constructor. Qed.

Lemma new_block_B : new_block block_B.
Proof. split; repeat constructor. Qed.

Lemma new_block_C : new_block block_C.
Proof. split; repeat constructor. Qed.

Lemma reachable_ABC : reachable canvas_ABC.
Proof.
  unfold canvas_ABC.
  repeat (apply reach_add_block;
          [| apply new_block_A || apply new_block_B || apply new_block_C]).
  apply reach_empty.
Qed.

Lemma reachable_one_edge : reachable canvas_one_edge.
Proof. apply reach_connect_ports, reachable_ABC. Qed.

Lemma reachable_two_edges : reachable canvas_two_edges.
Proof. apply reach_connect_ports, reachable_one_edge. Qed.

(** C2, as the specification has it, fails: after [A.out_a -> C.in_c], the
    call connecting [B.out_b] to the same input port returns an edge, and
    the connection map of the canvas reached holds both edges into
    [C.in_c]. *)
Lemma two_edges_into_one_input :
  reachable canvas_two_edges
  /\ (connect_ports "c2" "B" "out_b" "C" "in_c" canvas_one_edge).1
     = Some (mkConnection "c2" "B" "out_b" "C" "in_c")
  /\ edges_into canvas_two_edges "C" "in_c"
     = [("c1", mkConnection "c1" "A" "out_a" "C" "in_c");
        ("c2", mkConnection "c2" "B" "out_b" "C" "in_c")]
  /\ ~ single_incoming canvas_two_edges.
Proof.
  split; [apply reachable_two_edges|]. split_and!; [done | done |].
  intros H. specialize (H "C" "in_c"). vm_compute in H. lia.
Qed.

(** C2, amended.  An input port holds one back-reference, and
    [connect_ports] never looks at the edges already there: making an
    edge changes the answer to no later connection, whatever its ports.
    So when an edge into the port [(tb, tp)] has just been made, a
    connection into the same port that would have been accepted before is
    accepted still; it overwrites the back-reference of the port with the
    new source port, and, the two ids being different, the connection map
    holds both edges. *)
Theorem connect_ports_second_edge
    (g g1 : BlockCanvas) (c1 c2 sb1 sp1 sb2 sp2 tb tp : string)
    (conn1 : Connection) :
  connect_ports c1 sb1 sp1 tb tp g = (Some conn1, g1) ->
  connectable g sb2 sp2 tb tp = true ->
  c1 <> c2 ->
  let r := connect_ports c2 sb2 sp2 tb tp g1 in
  r.1 = Some (mkConnection c2 sb2 sp2 tb tp)
  /\ dict_get c1 (connections r.2) = Some conn1
  /\ dict_get c2 (connections r.2) = Some (mkConnection c2 sb2 sp2 tb tp)
  /\ (target_block_id conn1, target_port_id conn1) = (tb, tp)
  /\ (connected_to <$> resolve g1 tb tp) = Some (Some sp1)
  /\ (connected_to <$> resolve r.2 tb tp) = Some (Some sp2)
  /\ (forall sb' sp' tb' tp',
        connectable g1 sb' sp' tb' tp' = connectable g sb' sp' tb' tp').
Proof.
  intros H1 H2 Hne. cbv zeta.
  rewrite connect_ports_unfold in H1.
  destruct (connectable g sb1 sp1 tb tp) eqn:Hc1; [|done].
  injection H1 as <- <-.
  assert (Htp : is_Some (resolve g tb tp)).
  { unfold connectable in H2. destruct (resolve g sb2 sp2); [|done].
    destruct (resolve g tb tp); [by eexists | done]. }
  destruct Htp as [b Hb].
  rewrite connect_ports_unfold, connectable_point_back, H2.
  cbn [fst snd connections target_block_id target_port_id].
  split_and!; try done.
  - rewrite dict_get_set_ne by done. apply dict_get_set_eq.
  - apply dict_get_set_eq.
  - rewrite resolve_point_back, decide_True by done. by rewrite Hb.
  - rewrite resolve_point_back, decide_True by done.
    rewrite resolve_point_back, decide_True by done. by rewrite Hb.
  - intros. apply connectable_point_back.
Qed.

(** The three sample blocks: both edges into [C.in_c] are in the map. *)
Lemma connect_ports_second_edge_witness :
  dict_get "c1" (connections canvas_two_edges)
  = Some (mkConnection "c1" "A" "out_a" "C" "in_c")
  /\ dict_get "c2" (connections canvas_two_edges)
     = Some (mkConnection "c2" "B" "out_b" "C" "in_c").
Proof.
  pose proof (connect_ports_second_edge canvas_ABC canvas_one_edge
                "c1" "c2" "A" "out_a" "B" "out_b" "C" "in_c"
                (mkConnection "c1" "A" "out_a" "C" "in_c")
                eq_refl eq_refl ltac:(discriminate)) as H.
  exact (conj (proj1 (proj2 H)) (proj1 (proj2 (proj2 H)))).
Defined.

(** *** Back-references after [remove_block] *)

(** C5 at the failing input: [A.out_a -> C.in_c] is connected, then block
    [A] is removed.  The canvas reached has no edge and no output port
    ["out_a"] left, and [C.in_c] still points back to ["out_a"]. *)
Theorem remove_block_keeps_backref :
  reachable canvas_A_removed
  /\ connections canvas_A_removed = []
  /\ dict_get "A" (blocks canvas_A_removed) = None
  /\ (connected_to <$> resolve canvas_A_removed "C" "in_c")
     = Some (Some "out_a")
  /\ output_port_exists canvas_A_removed "out_a" = false
  /\ ~ backrefs_valid canvas_A_removed.
Proof.
  split; [apply reach_remove_block, reachable_one_edge|].
  split_and!; try done.
  intros H.
  specialize (H "C" block_C_connected (set_connected_to (Some "out_a") in_c)
                "out_a").
  assert (output_port_exists canvas_A_removed "out_a" = true); [|done].
  apply H; [|left|done].
  vm_compute. right. left.
Qed.

(** The sibling path: [disconnect_ports] clears the back-reference of the
    target port before it drops the edge. *)
Lemma disconnect_ports_clears_backref :
  (connected_to <$> resolve (disconnect_ports "c1" canvas_one_edge) "C" "in_c")
  = Some None.
Proof. done. Qed.

(** *** Persistence *)

Lemma reachable_disconnected : reachable canvas_disconnected.
Proof. apply reach_disconnect_ports, reachable_two_edges. Qed.

(** C4, as the specification has it, fails: two edges are made into
    [C.in_c] and the second one is disconnected, which clears the
    back-reference of the port while the first edge stays; saving and
    loading this canvas gives a canvas in which [C.in_c] points back to
    ["out_a"]. *)
Lemma load_save_changes_backref :
  reachable canvas_disconnected
  /\ (connected_to <$> resolve canvas_disconnected "C" "in_c") = Some None
  /\ (exists g',
       load_from_json (save_to_json canvas_disconnected) = Some g'
       /\ (connected_to <$> resolve g' "C" "in_c") = Some (Some "out_a"))
  /\ load_from_json (save_to_json canvas_disconnected)
     <> Some canvas_disconnected
  /\ load_from_json (save_to_json canvas_disconnected)
     <> Some (as_loaded canvas_disconnected).
Proof.
  split; [apply reachable_disconnected|]. split; [done|]. split_and!.
  - eexists. split; [vm_compute; reflexivity | done].
  - vm_compute. discriminate.
  - vm_compute. discriminate.
Qed.

Lemma Port_roundtrip p : Port_of_kwargs (asdict_port p) = Some (as_loaded_port p).
Proof. destruct p as [i n t [k [a b]] inp [c|]]; reflexivity. Qed.

Lemma Ports_roundtrip ps :
  Ports_of_json (map asdict_port ps) = Some (map as_loaded_port ps).
Proof.
  induction ps as [|p ps IH]; [done|].
  cbn [map Ports_of_json]. by rewrite Port_roundtrip, IH.
Qed.

(** Induction on a value and on the values inside it. *)
Lemma pyvalue_nested_ind (P : pyvalue -> Prop) :
  P VNone -> (forall b, P (VBool b)) -> (forall n, P (VNum n)) ->
  (forall s, P (VStr s)) ->
  (forall k l, Forall P l -> P (VSeq k l)) ->
  (forall l, Forall (fun kv => P kv.2) l -> P (VDict l)) ->
  forall v, P v.
Proof.
  intros HNone HBool HNum HStr HSeq HDict. fix IH 1.
  intros [|b|n|s|k l|l]; [done..| |].
  - apply HSeq. induction l as [|x l IHl]; constructor; [apply IH | apply IHl].
  - apply HDict. induction l as [|[k x] l IHl]; constructor;
      [apply IH | apply IHl].
Qed.

Lemma map_fixed {A} (f : A -> A) l : map f l = l <-> Forall (fun x => f x = x) l.
Proof.
  induction l as [|x l IH]; cbn [map].
  - split; [constructor | done].
  - rewrite Forall_cons, <- IH. split; [by intros [= -> ->] | by intros [-> ->]].
Qed.

(** Writing a value and reading it back turns its tuples into lists. *)
Lemma value_roundtrip v : value_of_json (json_of_value v) = as_loaded_value v.
Proof.
  induction v as [|b|n|s|k l IH|l IH] using pyvalue_nested_ind; [done..| |];
    cbn [json_of_value value_of_json as_loaded_value]; f_equal;
    rewrite map_map.
  - induction IH as [|x l Hx _ IHl]; cbn [map]; [done|]. by rewrite Hx, IHl.
  - induction IH as [|[k x] l Hx _ IHl]; cbn [map]; [done|].
    cbn [snd] in Hx. by rewrite Hx, IHl.
Qed.

Lemma Forall_iff_transfer {A} (P Q : A -> Prop) l :
  Forall (fun x => P x <-> Q x) l -> Forall P l <-> Forall Q l.
Proof.
  induction 1 as [|x l Hx _ IH]; [split; constructor|].
  rewrite !Forall_cons. naive_solver.
Qed.

(** The values that come back as they were written are those without a
    tuple. *)
Lemma as_loaded_value_fixed v : as_loaded_value v = v <-> no_tuple v = true.
Proof.
  induction v as [|b|n|s|k l IH|l IH] using pyvalue_nested_ind; [done..| |];
    cbn [as_loaded_value no_tuple].
  - destruct k; [split; [by intros [=] | done]|].
    rewrite forallb_forall, <- List.Forall_forall.
    rewrite <- (Forall_iff_transfer _ _ _ IH), <- map_fixed.
    split; [by intros [=] | by intros ->].
  - rewrite forallb_forall, <- List.Forall_forall.
    rewrite <- (Forall_iff_transfer
                  (fun kv => (let '(k, x) := kv in (k, as_loaded_value x)) = kv)
                  _ l), <- map_fixed.
    + split; [by intros [=] | by intros ->].
    + eapply Forall_impl; [exact IH|]. intros [k x] Hx. cbn [snd] in Hx.
      split; [intros [= E]; by apply Hx | intros E; f_equal; by apply Hx].
Qed.

Lemma properties_roundtrip (props : list (string * pyvalue)) :
  properties_of_json (map (fun kv => (kv.1, json_of_value kv.2)) props)
  = map (fun kv => (kv.1, as_loaded_value kv.2)) props.
Proof.
  unfold properties_of_json. rewrite map_map. apply map_ext.
  intros [k v]. cbn [fst snd]. by rewrite value_roundtrip.
Qed.

Lemma Block_roundtrip b : Block_of_json (asdict_block b) = Some (as_loaded_block b).
Proof.
  destruct b as [i n t x y w h ins outs props].
  unfold Block_of_json, asdict_block.
  change (field "inputs" as_arr _) with (Some (map asdict_port ins)).
  change (field "outputs" as_arr _) with (Some (map asdict_port outs)).
  cbv beta iota. rewrite !Ports_roundtrip.
  change (field "properties" as_obj _)
    with (Some (map (fun kv : string * pyvalue => (kv.1, json_of_value kv.2))
                    props)).
  change (field "id" as_str _) with (Some i).
  change (field "name" as_str _) with (Some n).
  change (field "block_type" as_str _) with (Some t).
  change (field "x" as_int _) with (Some x).
  change (field "y" as_int _) with (Some y).
  change (field "width" as_int _) with (Some w).
  change (field "height" as_int _) with (Some h).
  cbv beta iota. by rewrite properties_roundtrip.
Qed.

Lemma Connection_roundtrip c : Connection_of_json (asdict_connection c) = Some c.
Proof. by destruct c. Qed.

Lemma dict_keys_loaded (bs : list (string * Block)) :
  dict_keys (map (fun kv => (kv.1, as_loaded_block kv.2)) bs) = dict_keys bs.
Proof.
  unfold dict_keys. induction bs as [|[k b] bs IH]; [done|].
  cbn. f_equal. apply IH.
Qed.

Lemma dict_keys_app {V} (d1 d2 : list (string * V)) :
  dict_keys (d1 ++ d2) = dict_keys d1 ++ dict_keys d2.
Proof. unfold dict_keys. apply fmap_app. Qed.

(** The first loop of the loader rebuilds the blocks one by one. *)
Lemma load_blocks_saved (l pre : list (string * Block)) cs :
  dict_wf (pre ++ l) ->
  load_blocks (map (fun kv => (kv.1, asdict_block kv.2)) l)
    (mkBlockCanvas (map (fun kv => (kv.1, as_loaded_block kv.2)) pre) cs)
  = Some (mkBlockCanvas
            (map (fun kv => (kv.1, as_loaded_block kv.2)) (pre ++ l)) cs).
Proof.
  revert pre. induction l as [|[k b] l IH]; intros pre Hwf.
  - by rewrite app_nil_r.
  - cbn [map load_blocks fst snd blocks connections].
    rewrite Block_roundtrip. rewrite dict_set_new.
    + change [(k, as_loaded_block b)]
        with (map (fun kv : string * Block => (kv.1, as_loaded_block kv.2))
                  [(k, b)]).
      rewrite <- map_app, IH.
      * by rewrite <- app_assoc.
      * by rewrite <- app_assoc.
    + rewrite dict_keys_loaded. unfold dict_wf in Hwf.
      rewrite dict_keys_app in Hwf. apply NoDup_app in Hwf as (_ & Hd & _).
      intros Hin. apply (Hd _ Hin). left.
Qed.

Lemma load_connection_unfold cid conn canvas :
  load_connection cid conn canvas =
  mkBlockCanvas
    (point_back (target_block_id conn) (target_port_id conn)
                (Some (source_port_id conn)) (blocks canvas))
    (dict_set cid conn (connections canvas)).
Proof.
  unfold load_connection, point_back.
  destruct (dict_get _ (blocks canvas)) as [tblk|]; [|done].
  by destruct (get_port_by_id tblk _).
Qed.

Lemma update_port_same pid f ps :
  (forall p, find_port pid ps = Some p -> f p = p) -> update_port pid f ps = ps.
Proof.
  induction ps as [|q ps IH]; simpl; [done|].
  destruct (String.eqb (port_id q) pid); intros Hf.
  - by rewrite Hf.
  - by rewrite IH.
Qed.

Lemma block_update_port_same pid f b :
  (forall p, get_port_by_id b pid = Some p -> f p = p) ->
  block_update_port pid f b = b.
Proof.
  unfold get_port_by_id, block_update_port. intros Hf. destruct b; simpl in *.
  destruct (find_port pid inputs0) as [p0|] eqn:Hin; f_equal;
    apply update_port_same; intros p Hp; apply Hf;
    rewrite find_port_app; by rewrite ?Hp, ?Hin.
Qed.

(** Writing to a port the reference it holds leaves the blocks alone. *)
Lemma point_back_same tb tp v bs :
  (forall b p, dict_get tb bs = Some b -> get_port_by_id b tp = Some p ->
               connected_to p = v) ->
  point_back tb tp v bs = bs.
Proof.
  intros Hv. unfold point_back.
  destruct (dict_get tb bs) as [b|] eqn:Hb; [|done].
  destruct (get_port_by_id b tp) as [p|] eqn:Hp; [|done].
  rewrite block_update_port_same; [by apply dict_set_same|].
  intros q Hq. rewrite <- (Hv b q) by done. by destruct q.
Qed.

Lemma find_port_loaded pid ps :
  find_port pid (map as_loaded_port ps) = as_loaded_port <$> find_port pid ps.
Proof.
  induction ps as [|q ps IH]; simpl; [done|].
  by destruct (String.eqb (port_id q) pid).
Qed.

Lemma resolve_loaded g bid pid :
  resolve (as_loaded g) bid pid = as_loaded_port <$> resolve g bid pid.
Proof.
  unfold resolve, as_loaded; cbn [blocks].
  induction (blocks g) as [|[k b] bs IH]; simpl; [done|].
  case_decide; [|done].
  unfold get_port_by_id; simpl. by rewrite <- map_app, find_port_loaded.
Qed.

(** *** [disconnect_ports] *)

Lemma dict_keys_point_back tb tp v bs :
  dict_keys (point_back tb tp v bs) = dict_keys bs.
Proof.
  unfold point_back. destruct (dict_get tb bs) as [b|] eqn:Hb; [|done].
  destruct (get_port_by_id b tp); [|done].
  apply dict_keys_set_present. by rewrite Hb.
Qed.

(** X1.  [disconnect_ports] on an id the connection map does not hold
    returns the canvas as it is.  On the id of an edge it removes that
    edge and no other, keeps the blocks under their keys, and the port the
    edge targets, if it resolves, has no back-reference afterwards and
    its other fields as before; every other port resolves as before. *)
Theorem disconnect_ports_spec (g : BlockCanvas) (cid : string) :
  let g' := disconnect_ports cid g in
  (dict_get cid (connections g) = None -> g' = g)
  /\ (forall conn, dict_get cid (connections g) = Some conn ->
        dict_get cid (connections g') = None
        /\ (forall k, k <> cid ->
              dict_get k (connections g') = dict_get k (connections g))
        /\ dict_keys (blocks g') = dict_keys (blocks g)
        /\ (forall bid pid,
              (bid, pid) <> (target_block_id conn, target_port_id conn) ->
              resolve g' bid pid = resolve g bid pid)
        /\ match resolve g (target_block_id conn) (target_port_id conn) with
           | Some p =>
               exists p',
                 resolve g' (target_block_id conn) (target_port_id conn)
                 = Some p'
                 /\ connected_to p' = None
                 /\ port_fields p' = port_fields p
           | None =>
               resolve g' (target_block_id conn) (target_port_id conn) = None
           end).
Proof.
  cbv zeta. rewrite disconnect_ports_unfold. split.
  - by intros ->.
  - intros conn ->. cbn [connections]. split_and!.
    + rewrite dict_get_del. by rewrite decide_True.
    + intros k Hk. rewrite dict_get_del. by rewrite decide_False.
    + apply dict_keys_point_back.
    + intros bid pid Hne. rewrite resolve_point_back.
      rewrite decide_False; [done|]. intros [<- <-]. done.
    + rewrite resolve_point_back, decide_True by done.
      destruct (resolve g _ _) as [p|]; [|done].
      exists (set_connected_to None p). by split_and!.
Qed.

(** The one edge of [canvas_one_edge] disconnected: [C.in_c] points
    nowhere. *)
Lemma disconnect_ports_spec_witness :
  (connected_to <$> resolve (disconnect_ports "c1" canvas_one_edge) "C" "in_c")
  = Some None.
Proof.
  pose proof (proj2 (disconnect_ports_spec canvas_one_edge "c1")
                (mkConnection "c1" "A" "out_a" "C" "in_c") eq_refl)
    as (_ & _ & _ & _ & H).
  cbn [target_block_id target_port_id] in H.
  change (resolve canvas_one_edge "C" "in_c")
    with (Some (set_connected_to (Some "out_a") in_c)) in H.
  destruct H as (p' & Hp & Hc & _).
  apply (f_equal (fmap connected_to)) in Hp.
  cbn [fmap option_fmap option_map] in Hp. rewrite Hc in Hp. exact Hp.
Defined.

Lemma update_port_update_port pid f1 f2 ps :
  (forall p, port_id (f1 p) = port_id p) ->
  update_port pid f2 (update_port pid f1 ps)
  = update_port pid (fun p => f2 (f1 p)) ps.
Proof.
  intros Hf. induction ps as [|q ps IH]; simpl; [done|].
  destruct (String.eqb_spec (port_id q) pid) as [Hq|Hq]; simpl.
  - rewrite Hf. by rewrite (proj2 (String.eqb_eq _ _) Hq).
  - rewrite (proj2 (String.eqb_neq _ _) Hq). by rewrite IH.
Qed.

Lemma block_update_port_twice pid f1 f2 b :
  (forall p, port_id (f1 p) = port_id p) ->
  block_update_port pid f2 (block_update_port pid f1 b)
  = block_update_port pid (fun p => f2 (f1 p)) b.
Proof.
  intros Hf. unfold block_update_port.
  destruct (find_port pid (inputs b)) as [p|] eqn:Hin; cbn [inputs outputs].
  - rewrite find_port_update by done. rewrite decide_True by done.
    rewrite Hin. cbn. by rewrite update_port_update_port.
  - rewrite Hin. cbn. by rewrite update_port_update_port.
Qed.

(** The last assignment to a back-reference is the one that counts. *)
Lemma point_back_twice tb tp v1 v2 bs :
  point_back tb tp v2 (point_back tb tp v1 bs) = point_back tb tp v2 bs.
Proof.
  unfold point_back at 2 3.
  destruct (dict_get tb bs) as [b|] eqn:Hb; cycle 1.
  { unfold point_back. by rewrite Hb. }
  destruct (get_port_by_id b tp) as [p|] eqn:Hp; cycle 1.
  { unfold point_back. by rewrite Hb, Hp. }
  unfold point_back. rewrite dict_get_set_eq.
  rewrite get_port_by_id_update by done. rewrite decide_True by done.
  rewrite Hp. cbn [fmap option_fmap option_map].
  rewrite dict_set_set. f_equal.
  rewrite block_update_port_twice by done.
  unfold block_update_port.
  destruct (find_port tp (inputs b)); f_equal;
    apply (f_equal (fun f => update_port tp f _)); done.
Qed.

(** X2.  Disconnecting the edge [connect_ports] has just made gives the
    canvas back, when the id drawn for the edge was not in use and the
    target port had no back-reference. *)
Theorem connect_then_disconnect
    (g g1 : BlockCanvas) (fresh sb sp tb tp : string) (conn : Connection) :
  connect_ports fresh sb sp tb tp g = (Some conn, g1) ->
  dict_get fresh (connections g) = None ->
  (forall p, resolve g tb tp = Some p -> connected_to p = None) ->
  disconnect_ports fresh g1 = g.
Proof.
  intros Hc Hfresh Hnone. rewrite connect_ports_unfold in Hc.
  destruct (connectable g sb sp tb tp); [|done]. injection Hc as <- <-.
  rewrite disconnect_ports_unfold. cbn [connections blocks].
  rewrite dict_get_set_eq. cbn [target_block_id target_port_id].
  rewrite point_back_twice, dict_del_set_new by (by apply dict_get_None).
  rewrite point_back_same; [by destruct g|].
  intros b p Hb Hp. apply Hnone. unfold resolve. by rewrite Hb.
Qed.

Lemma connect_then_disconnect_witness :
  disconnect_ports "c1" canvas_one_edge = canvas_ABC.
Proof.
  apply (connect_then_disconnect canvas_ABC canvas_one_edge
           "c1" "A" "out_a" "C" "in_c"
           (mkConnection "c1" "A" "out_a" "C" "in_c")).
  - reflexivity.
  - reflexivity.
  - intros p Hp. vm_compute in Hp. by injection Hp as <-.
Defined.

(** *** Invariants of the reachable canvases *)

Lemma elem_of_point_back tb tp v bs kv :
  kv ∈ point_back tb tp v bs ->
  kv ∈ bs \/ exists b, (kv.1, b) ∈ bs
                       /\ kv.2 = block_update_port tp (set_connected_to v) b.
Proof.
  unfold point_back. destruct (dict_get tb bs) as [b|] eqn:Hb; [|by left].
  destruct (get_port_by_id b tp); [|by left].
  intros [->|?]%elem_of_dict_set; [|by left].
  right. exists b. split; [by apply dict_get_Some_elem | done].
Qed.

Lemma block_update_port_id pid f b :
  block_id (block_update_port pid f b) = block_id b.
Proof. unfold block_update_port. by destruct (find_port pid (inputs b)). Qed.

Lemma is_Some_dict_get_point_back tb tp v bs k :
  is_Some (dict_get k (point_back tb tp v bs)) <-> is_Some (dict_get k bs).
Proof.
  rewrite <- !not_eq_None_Some, !dict_get_None.
  by rewrite dict_keys_point_back.
Qed.

Lemma connectable_blocks g sb sp tb tp :
  connectable g sb sp tb tp = true ->
  is_Some (dict_get sb (blocks g)) /\ is_Some (dict_get tb (blocks g)).
Proof.
  unfold connectable, resolve.
  destruct (dict_get sb (blocks g)); [|done].
  destruct (dict_get tb (blocks g)); [by split; eexists|].
  by destruct (get_port_by_id _ _).
Qed.

(** X3.  On every canvas the four operations can build, each block is
    stored under its own id, each edge under its own id, and the source
    and target blocks of every edge are blocks of the canvas. *)
Theorem reachable_ids (g : BlockCanvas) :
  reachable g ->
  (forall bid b, (bid, b) ∈ blocks g -> block_id b = bid)
  /\ (forall cid c, (cid, c) ∈ connections g -> conn_id c = cid)
  /\ (forall cid c, (cid, c) ∈ connections g ->
        is_Some (dict_get (source_block_id c) (blocks g))
        /\ is_Some (dict_get (target_block_id c) (blocks g))).
Proof.
  induction 1 as [|g b _ (IHb & IHc & IHe) _|g bid _ (IHb & IHc & IHe)
                  |g fresh sb sp tb tp _ (IHb & IHc & IHe)
                  |g cid _ (IHb & IHc & IHe)].
  - split_and!; intros ? ? ?%elem_of_nil; done.
  - cbn [add_block blocks connections]. split_and!.
    + intros bid b' [?|?]%elem_of_dict_set; [by simplify_eq | by apply IHb].
    + done.
    + intros cid c Hin. destruct (IHe cid c Hin) as [Hs Ht].
      split; rewrite dict_get_set; case_decide; try done; by eexists.
  - unfold remove_block. destruct (dict_mem bid (blocks g)) eqn:Hm;
      [|by split_and!].
    cbn [blocks connections]. split_and!.
    + intros k b [Hin _]%elem_of_dict_del. by apply IHb.
    + intros k c [Hin _]%elem_of_foldl_dict_del. by apply IHc.
    + intros k c [Hin Hnot]%elem_of_foldl_dict_del.
      destruct (IHe k c Hin) as [Hs Ht]. simpl in Hnot.
      rewrite elem_of_conn_to_remove in Hnot.
      assert (source_block_id c <> bid /\ target_block_id c <> bid) as [? ?].
      { split; intros Heq; apply Hnot; exists c;
          (split; [done | apply conn_involves_true; auto]). }
      rewrite !dict_get_del, !decide_False by done. done.
  - rewrite connect_ports_unfold.
    destruct (connectable g sb sp tb tp) eqn:Hc; [|by split_and!].
    cbn [snd blocks connections]. split_and!.
    + intros bid b [Hin|(b0 & Hin & Heq)]%elem_of_point_back; [by apply IHb|].
      cbn in Hin, Heq. subst b. rewrite block_update_port_id. by apply IHb.
    + intros cid c [?|?]%elem_of_dict_set; [by simplify_eq | by apply IHc].
    + intros cid c Hin. rewrite !is_Some_dict_get_point_back.
      apply elem_of_dict_set in Hin as [?|Hin]; [|by apply (IHe cid)].
      simplify_eq. cbn. by apply (connectable_blocks g sb sp tb tp).
  - rewrite disconnect_ports_unfold.
    destruct (dict_get cid (connections g)) as [conn|]; [|by split_and!].
    cbn [blocks connections]. split_and!.
    + intros bid b [Hin|(b0 & Hin & Heq)]%elem_of_point_back; [by apply IHb|].
      cbn in Hin, Heq. subst b. rewrite block_update_port_id. by apply IHb.
    + intros k c [Hin _]%elem_of_dict_del. by apply IHc.
    + intros k c [Hin _]%elem_of_dict_del.
      rewrite !is_Some_dict_get_point_back. by apply (IHe k).
Qed.

Lemma reachable_ids_witness :
  is_Some (dict_get "B" (blocks canvas_two_edges))
  /\ is_Some (dict_get "C" (blocks canvas_two_edges)).
Proof.
  apply (proj2 (proj2 (reachable_ids _ reachable_two_edges))
           "c2" (mkConnection "c2" "B" "out_b" "C" "in_c")).
  vm_compute. right. left.
Defined.

(** *** Code generation *)

Lemma insert_by_app_lt {A} (key : A -> nat) x l1 l2 :
  Forall (fun y => (key y < key x)%nat) l1 ->
  insert_by key x (l1 ++ l2) = l1 ++ insert_by key x l2.
Proof.
  induction 1 as [|y l1 Hy _ IH]; [done|].
  cbn [app insert_by]. destruct (Nat.leb_spec (key x) (key y)); [lia|].
  by rewrite IH.
Qed.

Lemma insert_by_le {A} (key : A -> nat) x l :
  Forall (fun y => (key x <= key y)%nat) l -> insert_by key x l = x :: l.
Proof.
  destruct 1 as [|y l Hy _]; [done|].
  cbn [insert_by]. by destruct (Nat.leb_spec (key x) (key y)); [|lia].
Qed.

Lemma Forall_filter_key {A} (key : A -> nat) (P Q : nat -> Prop) f l :
  (forall y, f y = true -> P (key y)) ->
  Forall (fun y => P (key y)) (List.filter f l).
Proof.
  intros Hf. apply Forall_forall. intros y Hy%list_elem_of_In.
  apply List.filter_In in Hy as [_ Hy]. by apply Hf.
Qed.

(** A stable sort on keys 0, 1 and 2 lines up the three groups. *)
Lemma sort_by_three {A} (key : A -> nat) l :
  (forall y, (key y <= 2)%nat) ->
  sort_by key l
  = List.filter (fun y => key y =? 0)%nat l
    ++ List.filter (fun y => key y =? 1)%nat l
    ++ List.filter (fun y => key y =? 2)%nat l.
Proof.
  intros Hkey. induction l as [|x l IH]; [done|].
  cbn [sort_by List.filter]. rewrite IH. clear IH.
  set (F0 := List.filter (fun y => key y =? 0)%nat l).
  set (F1 := List.filter (fun y => key y =? 1)%nat l).
  set (F2 := List.filter (fun y => key y =? 2)%nat l).
  assert (H0 : Forall (fun y => key y = 0%nat) F0).
  { apply (Forall_filter_key key (fun n => n = 0%nat) (fun _ => True)).
    intros y. apply Nat.eqb_eq. }
  assert (H1 : Forall (fun y => key y = 1%nat) F1).
  { apply (Forall_filter_key key (fun n => n = 1%nat) (fun _ => True)).
    intros y. apply Nat.eqb_eq. }
  assert (H2 : Forall (fun y => key y = 2%nat) F2).
  { apply (Forall_filter_key key (fun n => n = 2%nat) (fun _ => True)).
    intros y. apply Nat.eqb_eq. }
  pose proof (Hkey x) as Hx.
  destruct (key x) as [|[|[|n]]] eqn:Ex; cbn [Nat.eqb]; [| | |lia].
  - rewrite insert_by_le; [done|].
    rewrite !Forall_app. split_and!; eapply Forall_impl; eauto; simpl; lia.
  - rewrite insert_by_app_lt
      by (eapply Forall_impl; [exact H0|]; simpl; intros; lia).
    rewrite insert_by_le; [done|].
    rewrite !Forall_app. split_and!; eapply Forall_impl; eauto; simpl; lia.
  - rewrite app_assoc, insert_by_app_lt.
    + rewrite insert_by_le; [by rewrite <- app_assoc|].
      eapply Forall_impl; [exact H2|]. simpl; intros; lia.
    + rewrite Forall_app. split; eapply Forall_impl; eauto; simpl; lia.
Qed.

Lemma block_sort_key_le b : (block_sort_key b <= 2)%nat.
Proof.
  unfold block_sort_key.
  repeat match goal with |- context [String.eqb ?a ?b] =>
    destruct (String.eqb a b) end; lia.
Qed.

Section CodeGenerationFacts.
Variable py_repr : pyvalue -> string.

(** X4.  The code [generate_code] returns is the header, an empty line,
    and one entry per block: first the blocks of type [input_value], then
    the blocks of type [operation], then all the others, each group in
    the order the blocks have in the canvas. *)
Theorem generate_code_order (g : BlockCanvas) :
  let bs := map snd (blocks g) in
  generate_code py_repr g
  = join newline
      (["# Generated Code"; ""]
       ++ map (to_code py_repr)
            (List.filter (fun b => String.eqb (block_type b) "input_value") bs
             ++ List.filter (fun b => String.eqb (block_type b) "operation") bs
             ++ List.filter
                  (fun b => negb (String.eqb (block_type b) "input_value")
                            && negb (String.eqb (block_type b) "operation"))
                  bs)).
Proof.
  cbv zeta. unfold generate_code.
  rewrite (sort_by_three block_sort_key) by apply block_sort_key_le.
  set (bs := map snd (blocks g)).
  rewrite (List.filter_ext (fun y => block_sort_key y =? 0)%nat
             (fun b => String.eqb (block_type b) "input_value")),
          (List.filter_ext (fun y => block_sort_key y =? 1)%nat
             (fun b => String.eqb (block_type b) "operation")),
          (List.filter_ext (fun y => block_sort_key y =? 2)%nat
             (fun b => negb (String.eqb (block_type b) "input_value")
                       && negb (String.eqb (block_type b) "operation")));
    [done | | |];
    intros b; unfold block_sort_key;
    (destruct (String.eqb_spec (block_type b) "input_value") as [E|E];
     [by rewrite ?E | by destruct (String.eqb (block_type b) "operation")]).
Qed.

Lemma insert_by_same_code x x' l l' :
  same_code py_repr x x' -> Forall2 (same_code py_repr) l l' ->
  Forall2 (same_code py_repr) (insert_by block_sort_key x l)
                    (insert_by block_sort_key x' l').
Proof.
  intros Hx Hl. induction Hl as [|y y' l l' Hy Hl IH]; cbn [insert_by].
  - by constructor.
  - destruct Hx as [Hk Hc], Hy as [Hk' Hc']. rewrite <- Hk, <- Hk'.
    destruct (_ <=? _)%nat; repeat constructor; try done.
Qed.

Lemma sort_by_same_code l l' :
  Forall2 (same_code py_repr) l l' ->
  map (to_code py_repr) (sort_by block_sort_key l)
  = map (to_code py_repr) (sort_by block_sort_key l').
Proof.
  intros Hl.
  assert (Hs : Forall2 (same_code py_repr) (sort_by block_sort_key l)
                                 (sort_by block_sort_key l')).
  { induction Hl; cbn [sort_by]; [constructor|].
    by apply insert_by_same_code. }
  induction Hs as [|? ? ? ? [_ Hc] _ IH]; [done|]. cbn [map]. by rewrite Hc, IH.
Qed.

Lemma update_port_names pid v ps :
  map port_name (update_port pid (set_connected_to v) ps) = map port_name ps.
Proof.
  induction ps as [|q ps IH]; simpl; [done|].
  destruct (String.eqb (port_id q) pid); simpl; [done | by rewrite IH].
Qed.

Lemma same_code_update_port pid v b :
  same_code py_repr b (block_update_port pid (set_connected_to v) b).
Proof.
  unfold same_code, block_update_port, block_sort_key, to_code, properties_get.
  destruct (find_port pid (inputs b));
    cbn [block_type block_name properties inputs outputs].
  - by rewrite update_port_names.
  - split; [done|].
    assert (Hhd : match update_port pid (set_connected_to v) (outputs b) with
                  | o :: _ => port_name o | [] => "None" end
                  = match outputs b with o :: _ => port_name o | [] => "None" end).
    { destruct (outputs b) as [|o os]; [done|]. simpl.
      by destruct (String.eqb (port_id o) pid). }
    by rewrite Hhd.
Qed.

Lemma same_code_dict_set (k : string) (v v' : Block) d :
  dict_get k d = Some v -> same_code py_repr v v' ->
  Forall2 (same_code py_repr) (map snd d) (map snd (dict_set k v' d)).
Proof.
  intros Hg Hv. induction d as [|[k0 v0] d IH]; [done|].
  simpl in Hg |- *. case_decide; simplify_eq; simpl.
  - constructor; [done|]. apply Forall2_same_length_lookup_2; [done|].
    intros i x y Hx Hy. by simplify_eq.
  - constructor; [done | by apply IH].
Qed.

Lemma same_code_point_back tb tp v bs :
  Forall2 (same_code py_repr)
          (map snd bs) (map snd (point_back tb tp v bs)).
Proof.
  assert (Hrefl : Forall2 (same_code py_repr) (map snd bs) (map snd bs)).
  { apply Forall2_same_length_lookup_2; [done|].
    intros i x y Hx Hy. by simplify_eq. }
  unfold point_back. destruct (dict_get tb bs) as [b|] eqn:Hb; [|done].
  destruct (get_port_by_id b tp); [|done].
  eapply same_code_dict_set; [done|]. apply same_code_update_port.
Qed.

(** X5.  The generated code does not depend on the edges: neither making
    an edge nor disconnecting one changes what [generate_code] returns. *)
Theorem generate_code_ignores_edges
    (g : BlockCanvas) (fresh sb sp tb tp cid : string) :
  generate_code py_repr (connect_ports fresh sb sp tb tp g).2
  = generate_code py_repr g
  /\ generate_code py_repr (disconnect_ports cid g) = generate_code py_repr g.
Proof.
  split.
  - rewrite connect_ports_unfold. destruct (connectable g sb sp tb tp); [|done].
    unfold generate_code; cbn [snd blocks]. do 2 f_equal. symmetry.
    apply sort_by_same_code, same_code_point_back.
  - rewrite disconnect_ports_unfold.
    destruct (dict_get cid (connections g)); [|done].
    unfold generate_code; cbn [blocks]. do 2 f_equal. symmetry.
    apply sort_by_same_code, same_code_point_back.
Qed.

End CodeGenerationFacts.

(** *** Building a block *)

Section PortPositionFacts.
Variable truediv : Z -> Z -> Q.
Variable mul_int_float : Z -> Q -> Q.

Local Abbreviation update_port_positions :=
  (update_port_positions truediv mul_int_float).
Local Abbreviation place_ports := (place_ports mul_int_float).
Local Abbreviation add_input := (add_input truediv mul_int_float).
Local Abbreviation add_output := (add_output truediv mul_int_float).

Lemma same_port_refl p : same_port p p.
Proof. by repeat split. Qed.

Lemma place_ports_same x s i ps : Forall2 same_port ps (place_ports x s i ps).
Proof.
  revert i. induction ps as [|p ps IH]; intros i; cbn [Editor.place_ports];
    constructor; [by repeat split | apply IH].
Qed.

Lemma place_ports_at x s i ps : ports_at x (place_ports x s i ps).
Proof.
  revert i. induction ps as [|p ps IH]; intros i; cbn [Editor.place_ports];
    constructor; [done | apply IH].
Qed.

Lemma place_ports_length x s i ps : length (place_ports x s i ps) = length ps.
Proof.
  revert i. induction ps as [|p ps IH]; intros i; cbn [Editor.place_ports];
    [done|]. cbn [length]. by rewrite IH.
Qed.

(** Placing ports forgets the positions they had. *)
Lemma place_ports_twice x s s' i i' ps :
  place_ports x s i (place_ports x s' i' ps) = place_ports x s i ps.
Proof.
  revert i i'. induction ps as [|p ps IH]; intros i i';
    cbn [Editor.place_ports]; [done|]. by rewrite IH.
Qed.

Lemma port_spacing_place h x s i ps :
  port_spacing truediv h (place_ports x s i ps) = port_spacing truediv h ps.
Proof.
  unfold port_spacing. pose proof (place_ports_length x s i ps) as Hlen.
  destruct ps as [|p ps]; [done|]. cbn [Editor.place_ports] in *.
  by rewrite Hlen.
Qed.

(** X6.  [_update_port_positions] changes the position of the ports and
    nothing else: ids, names, data types, directions and back-references
    stay, and so does the rest of the block.  It puts every input at
    [x = 0] and every output at [x = width], and running it again changes
    nothing. *)
Theorem update_port_positions_spec (b : Block) :
  let b' := update_port_positions b in
  update_port_positions b' = b'
  /\ Forall2 same_port (inputs b) (inputs b')
  /\ Forall2 same_port (outputs b) (outputs b')
  /\ ports_at 0 (inputs b')
  /\ ports_at (width b) (outputs b')
  /\ (block_id b', block_name b', block_type b', properties b')
     = (block_id b, block_name b, block_type b, properties b)
  /\ (block_x b', block_y b', width b', height b')
     = (block_x b, block_y b, width b, height b).
Proof.
  cbv zeta. unfold Editor.update_port_positions.
  cbn [inputs outputs block_id block_name block_type properties block_x
       block_y width height].
  split_and!; try done.
  - by rewrite !port_spacing_place, !place_ports_twice.
  - apply place_ports_same.
  - apply place_ports_same.
  - apply place_ports_at.
  - apply place_ports_at.
Qed.

Lemma find_port_same pid ps qs :
  Forall2 same_port ps qs ->
  option_Forall2 same_port (find_port pid ps) (find_port pid qs).
Proof.
  induction 1 as [|p q ps qs Hpq _ IH]; cbn [find_port]; [constructor|].
  destruct Hpq as (Hid & Hrest). rewrite <- Hid.
  destruct (String.eqb (port_id p) pid); [|done].
  constructor. by split.
Qed.

Lemma find_port_snoc_ne pid ps q :
  port_id q <> pid -> find_port pid (ps ++ [q]) = find_port pid ps.
Proof.
  intros Hne. rewrite find_port_app. cbn [find_port].
  rewrite (proj2 (String.eqb_neq _ _) Hne). by destruct (find_port pid ps).
Qed.

Lemma created_input_fields fresh name dt p :
  same_port (create_input fresh name dt) p ->
  (port_id p, port_name p, data_type p, is_input p, connected_to p)
  = (fresh, name, dt, true, None).
Proof.
  unfold same_port. cbn. intros (<- & <- & <- & <- & <-). done.
Qed.

Lemma created_output_fields fresh name dt p :
  same_port (create_output fresh name dt) p ->
  (port_id p, port_name p, data_type p, is_input p, connected_to p)
  = (fresh, name, dt, false, None).
Proof.
  unfold same_port. cbn. intros (<- & <- & <- & <- & <-). done.
Qed.

(** X7.  [add_input] appends one port to the inputs: an input port with
    the id, name and data type given and no back-reference.  The outputs
    and the inputs already there keep everything but their position, so a
    port id other than the new one resolves to the port it resolved to
    before, and the new id, when no port had it, resolves to the new
    port. *)
Theorem add_input_spec (b : Block) (fresh name dt : string) :
  let b' := add_input fresh name dt b in
  (exists ps p, inputs b' = ps ++ [p]
                /\ Forall2 same_port (inputs b) ps
                /\ (port_id p, port_name p, data_type p, is_input p,
                    connected_to p)
                   = (fresh, name, dt, true, None))
  /\ Forall2 same_port (outputs b) (outputs b')
  /\ (forall pid, pid <> fresh ->
        option_Forall2 same_port (get_port_by_id b pid) (get_port_by_id b' pid))
  /\ (get_port_by_id b fresh = None ->
        exists p, get_port_by_id b' fresh = Some p
                  /\ (port_id p, port_name p, data_type p, is_input p,
                      connected_to p)
                     = (fresh, name, dt, true, None)).
Proof.
  cbv zeta. unfold Editor.add_input, Editor.update_port_positions.
  cbn [inputs outputs height width].
  set (s := port_spacing truediv (height b) _).
  set (s' := port_spacing truediv (height b) (outputs b)).
  pose proof (place_ports_same 0 s 0
                (inputs b ++ [create_input fresh name dt])) as Hin.
  pose proof (place_ports_same (width b) s' 0 (outputs b)) as Hout.
  assert (Hall : Forall2 same_port
            ((inputs b ++ [create_input fresh name dt]) ++ outputs b)
            (place_ports 0 s 0 (inputs b ++ [create_input fresh name dt])
             ++ place_ports (width b) s' 0 (outputs b))).
  { by apply Forall2_app. }
  split_and!.
  - apply Forall2_app_inv_l in Hin as (ps & qs & Hps & Hqs & Heq).
    apply Forall2_cons_inv_l in Hqs as (p & qs' & Hp & Hnil & ->).
    apply Forall2_nil_inv_l in Hnil as ->. exists ps, p.
    split_and!; [done | done | by apply created_input_fields].
  - done.
  - intros pid Hpid. unfold get_port_by_id; cbn [inputs outputs].
    apply (find_port_same pid) in Hall.
    rewrite (find_port_app pid (_ ++ [_])), find_port_snoc_ne in Hall by done.
    by rewrite <- find_port_app in Hall.
  - unfold get_port_by_id; cbn [inputs outputs]. intros Hnone.
    apply (find_port_same fresh) in Hall.
    rewrite find_port_app in Hnone.
    destruct (find_port fresh (inputs b)) eqn:Hi; [done|].
    rewrite (find_port_app fresh (inputs b ++ [_])),
            (find_port_app fresh (inputs b)), Hi in Hall.
    cbn [find_port create_input port_id] in Hall.
    rewrite String.eqb_refl in Hall.
    inversion Hall as [q p Hqp Hq Hp|]; subst.
    exists p. split; [done | by apply created_input_fields].
Qed.

(** X8.  [add_output] appends one port to the outputs: an output port
    with the id, name and data type given and no back-reference.  The
    inputs and the outputs already there keep everything but their
    position; a port id other than the new one resolves to the port it
    resolved to before, and the new id, when no port had it, resolves to
    the new port. *)
Theorem add_output_spec (b : Block) (fresh name dt : string) :
  let b' := add_output fresh name dt b in
  (exists ps p, outputs b' = ps ++ [p]
                /\ Forall2 same_port (outputs b) ps
                /\ (port_id p, port_name p, data_type p, is_input p,
                    connected_to p)
                   = (fresh, name, dt, false, None))
  /\ Forall2 same_port (inputs b) (inputs b')
  /\ (forall pid, pid <> fresh ->
        option_Forall2 same_port (get_port_by_id b pid) (get_port_by_id b' pid))
  /\ (get_port_by_id b fresh = None ->
        exists p, get_port_by_id b' fresh = Some p
                  /\ (port_id p, port_name p, data_type p, is_input p,
                      connected_to p)
                     = (fresh, name, dt, false, None)).
Proof.
  cbv zeta. unfold Editor.add_output, Editor.update_port_positions.
  cbn [inputs outputs height width].
  set (s := port_spacing truediv (height b) (inputs b)).
  set (s' := port_spacing truediv (height b) _).
  pose proof (place_ports_same 0 s 0 (inputs b)) as Hin.
  pose proof (place_ports_same (width b) s' 0
                (outputs b ++ [create_output fresh name dt])) as Hout.
  assert (Hall : Forall2 same_port
            (inputs b ++ outputs b ++ [create_output fresh name dt])
            (place_ports 0 s 0 (inputs b)
             ++ place_ports (width b) s' 0
                  (outputs b ++ [create_output fresh name dt]))).
  { by apply Forall2_app. }
  split_and!.
  - apply Forall2_app_inv_l in Hout as (ps & qs & Hps & Hqs & Heq).
    apply Forall2_cons_inv_l in Hqs as (p & qs' & Hp & Hnil & ->).
    apply Forall2_nil_inv_l in Hnil as ->. exists ps, p.
    split_and!; [done | done | by apply created_output_fields].
  - done.
  - intros pid Hpid. unfold get_port_by_id; cbn [inputs outputs].
    apply (find_port_same pid) in Hall.
    rewrite app_assoc, find_port_snoc_ne in Hall by done. done.
  - unfold get_port_by_id; cbn [inputs outputs]. intros Hnone.
    apply (find_port_same fresh) in Hall.
    rewrite app_assoc, (find_port_app fresh (_ ++ _)), Hnone in Hall.
    cbn [find_port create_output port_id] in Hall.
    rewrite String.eqb_refl in Hall.
    inversion Hall as [q p Hqp Hq Hp|]; subst.
    exists p. split; [done | by apply created_output_fields].
Qed.

End PortPositionFacts.

(** *** Loading any saved canvas *)

Lemma load_connections_rederive (l pre : list (string * Connection)) bs :
  dict_wf (pre ++ l) ->
  load_connections (map (fun kv => (kv.1, asdict_connection kv.2)) l)
                   (mkBlockCanvas bs pre)
  = Some (mkBlockCanvas (rederive l bs) (pre ++ l)).
Proof.
  revert pre bs. induction l as [|[k c] l IH]; intros pre bs Hwf.
  - by rewrite app_nil_r.
  - cbn [map load_connections fst snd].
    rewrite Connection_roundtrip, load_connection_unfold.
    cbn [blocks connections]. rewrite dict_set_new.
    + rewrite IH by (by rewrite <- app_assoc). by rewrite <- app_assoc.
    + unfold dict_wf in Hwf.
      rewrite dict_keys_app in Hwf. apply NoDup_app in Hwf as (_ & Hd & _).
      intros Hin. apply (Hd _ Hin). left.
Qed.

Lemma dict_keys_rederive l bs : dict_keys (rederive l bs) = dict_keys bs.
Proof.
  revert bs. induction l as [|kv l IH]; intros bs; [done|].
  cbn [rederive foldl]. unfold rederive in IH. rewrite IH.
  apply dict_keys_point_back.
Qed.

Lemma resolve_rederive l bs cs cs' bid pid :
  resolve (mkBlockCanvas (rederive l bs) cs) bid pid
  = (fun p => match last_source_into (mkBlockCanvas bs l) bid pid with
              | Some s => set_connected_to (Some s) p
              | None => p
              end) <$> resolve (mkBlockCanvas bs cs') bid pid.
Proof.
  induction l as [|[k c] l IH] using rev_ind.
  - cbn. by destruct (resolve _ _ _).
  - unfold rederive. rewrite foldl_app. cbn [foldl snd].
    fold (rederive l bs).
    rewrite (resolve_point_back (mkBlockCanvas (rederive l bs) cs)).
    rewrite IH. clear IH.
    unfold last_source_into, edges_into. cbn [connections].
    rewrite List.filter_app. cbn [List.filter snd].
    destruct (String.eqb_spec (target_block_id c) bid) as [Hb|Hb];
      destruct (String.eqb_spec (target_port_id c) pid) as [Hp|Hp];
      cbn [andb]; rewrite ?app_nil_r;
      try (rewrite decide_False by naive_solver; done).
    rewrite decide_True by done. rewrite last_snoc. cbn [snd].
    destruct (resolve _ bid pid) as [p|]; [|done]. cbn.
    by destruct (last _).
Qed.

Lemma set_connected_to_loaded v p :
  set_connected_to v (as_loaded_port p) = as_loaded_port (set_connected_to v p).
Proof. done. Qed.

(** X9.  Loading what [save_to_json] wrote never fails, whatever the
    canvas.  The canvas read has the same connections and the same block
    keys; a port that is the target of edges points back to the source
    port of the last of them in the connection map, every other port
    keeps the back-reference it was saved with, and positions are
    lists. *)
Theorem load_save_any (g : BlockCanvas) :
  canvas_wf g ->
  exists g',
    load_from_json (save_to_json g) = Some g'
    /\ connections g' = connections g
    /\ dict_keys (blocks g') = dict_keys (blocks g)
    /\ (forall bid pid,
          resolve g' bid pid = reloaded_port g bid pid <$> resolve g bid pid).
Proof.
  intros [Hwb Hwc].
  exists (mkBlockCanvas (rederive (connections g) (blocks (as_loaded g)))
                        (connections g)).
  split_and!.
  - unfold load_from_json, save_to_json.
    change (field "blocks" as_obj _)
      with (Some (map (fun kv : string * Block => (kv.1, asdict_block kv.2))
                      (blocks g))).
    cbv beta iota.
    change empty_canvas
      with (mkBlockCanvas
              (map (fun kv : string * Block => (kv.1, as_loaded_block kv.2)) [])
              []).
    rewrite load_blocks_saved by done. rewrite app_nil_l.
    change (field "connections" as_obj _)
      with (Some (map (fun kv : string * Connection =>
                         (kv.1, asdict_connection kv.2)) (connections g))).
    cbv beta iota. by rewrite load_connections_rederive.
  - done.
  - cbn [blocks]. rewrite dict_keys_rederive. apply dict_keys_loaded.
  - intros bid pid.
    rewrite (resolve_rederive _ _ _ (connections g)).
    change (mkBlockCanvas (blocks (as_loaded g)) (connections g))
      with (as_loaded g).
    rewrite resolve_loaded. unfold reloaded_port.
    assert (Hl : last_source_into (as_loaded g) bid pid
                 = last_source_into g bid pid) by done.
    rewrite Hl. destruct (resolve g bid pid) as [p|]; [|done]. cbn.
    by destruct (last_source_into g bid pid).
Qed.

(** After two edges into [C.in_c] and the second one disconnected, the
    port is read back pointing to the source of the first. *)
Lemma load_save_any_witness :
  exists g',
    load_from_json (save_to_json canvas_disconnected) = Some g'
    /\ (connected_to <$> resolve g' "C" "in_c") = Some (Some "out_a").
Proof.
  destruct (load_save_any canvas_disconnected
              (reachable_wf _ reachable_disconnected))
    as (g' & Hload & _ & _ & Hres).
  exists g'. split; [done|]. by rewrite Hres.
Defined.

(** *** The round trip, exactly *)

Lemma dict_set_comm {V} (k1 k2 : string) (v1 v2 : V) d :
  k1 <> k2 -> is_Some (dict_get k1 d) -> is_Some (dict_get k2 d) ->
  dict_set k1 v1 (dict_set k2 v2 d) = dict_set k2 v2 (dict_set k1 v1 d).
Proof.
  intros Hne. induction d as [|[k v] d IH]; simpl.
  - by intros [? ?].
  - intros H1 H2.
    destruct (decide (k = k2)) as [E2|Hk2]; destruct (decide (k = k1)) as [E1|Hk1];
      simpl; rewrite ?decide_True, ?decide_False by congruence;
      simpl; rewrite ?decide_True, ?decide_False by congruence;
      try congruence.
    by rewrite IH.
Qed.

Lemma update_port_comm p1 p2 f1 f2 ps :
  p1 <> p2 ->
  (forall p, port_id (f1 p) = port_id p) ->
  (forall p, port_id (f2 p) = port_id p) ->
  update_port p1 f1 (update_port p2 f2 ps)
  = update_port p2 f2 (update_port p1 f1 ps).
Proof.
  intros Hne Hf1 Hf2. induction ps as [|q ps IH]; simpl; [done|].
  destruct (String.eqb_spec (port_id q) p2) as [H2|H2];
    destruct (String.eqb_spec (port_id q) p1) as [H1|H1]; simpl;
    rewrite ?Hf1, ?Hf2.
  - congruence.
  - rewrite (proj2 (String.eqb_neq _ _) H1), (proj2 (String.eqb_eq _ _) H2).
    done.
  - rewrite (proj2 (String.eqb_eq _ _) H1), (proj2 (String.eqb_neq _ _) H2).
    done.
  - rewrite (proj2 (String.eqb_neq _ _) H1), (proj2 (String.eqb_neq _ _) H2).
    by rewrite IH.
Qed.

Lemma block_update_port_comm p1 p2 f1 f2 b :
  p1 <> p2 ->
  (forall p, port_id (f1 p) = port_id p) ->
  (forall p, port_id (f2 p) = port_id p) ->
  block_update_port p1 f1 (block_update_port p2 f2 b)
  = block_update_port p2 f2 (block_update_port p1 f1 b).
Proof.
  intros Hne Hf1 Hf2. unfold block_update_port.
  destruct (find_port p2 (inputs b)) as [q2|] eqn:H2;
    destruct (find_port p1 (inputs b)) as [q1|] eqn:H1;
    cbn [inputs outputs block_id block_name block_type block_x block_y
         width height properties];
    rewrite ?find_port_update by done;
    rewrite ?decide_False by done; rewrite ?H1, ?H2;
    cbn [inputs outputs block_id block_name block_type block_x block_y
         width height properties];
    try done; f_equal; by apply update_port_comm.
Qed.

Lemma point_back_no_block tb tp v bs :
  dict_get tb bs = None -> point_back tb tp v bs = bs.
Proof. intros H. unfold point_back. by rewrite H. Qed.

Lemma point_back_no_port tb tp v bs b :
  dict_get tb bs = Some b -> get_port_by_id b tp = None ->
  point_back tb tp v bs = bs.
Proof. intros H1 H2. unfold point_back. by rewrite H1, H2. Qed.

Lemma point_back_port tb tp v bs b p :
  dict_get tb bs = Some b -> get_port_by_id b tp = Some p ->
  point_back tb tp v bs
  = dict_set tb (block_update_port tp (set_connected_to v) b) bs.
Proof. intros H1 H2. unfold point_back. by rewrite H1, H2. Qed.

Lemma point_back_comm_block tb tp1 v1 tp2 v2 bs :
  tp1 <> tp2 ->
  point_back tb tp1 v1 (point_back tb tp2 v2 bs)
  = point_back tb tp2 v2 (point_back tb tp1 v1 bs).
Proof.
  intros Hp.
  destruct (dict_get tb bs) as [b|] eqn:Hb;
    [|by rewrite !(point_back_no_block tb _ _ bs) by done].
  assert (Hup : forall tp tp' v p, tp <> tp' ->
            get_port_by_id b tp' = p ->
            get_port_by_id (block_update_port tp (set_connected_to v) b) tp'
            = p).
  { intros tp tp' v p Hne <-. rewrite get_port_by_id_update by done.
    by rewrite decide_False. }
  destruct (get_port_by_id b tp2) as [q2|] eqn:H2;
    destruct (get_port_by_id b tp1) as [q1|] eqn:H1.
  - rewrite (point_back_port tb tp2 v2 bs b q2),
      (point_back_port tb tp1 v1 bs b q1) by done.
    erewrite (point_back_port tb tp1 v1);
      [|apply dict_get_set_eq|by apply Hup].
    erewrite (point_back_port tb tp2 v2 (dict_set _ _ _));
      [|apply dict_get_set_eq|by apply Hup].
    rewrite !dict_set_set. f_equal. by apply block_update_port_comm.
  - rewrite (point_back_port tb tp2 v2 bs b q2),
      (point_back_no_port tb tp1 v1 bs b) by done.
    rewrite (point_back_port tb tp2 v2 bs b q2) by done.
    apply (point_back_no_port _ _ _ _ _ (dict_get_set_eq _ _ _)).
    by apply Hup.
  - rewrite (point_back_no_port tb tp2 v2 bs b),
      (point_back_port tb tp1 v1 bs b q1) by done.
    symmetry. apply (point_back_no_port _ _ _ _ _ (dict_get_set_eq _ _ _)).
    by apply Hup.
  - by rewrite !(point_back_no_port tb _ _ bs b) by done.
Qed.

(** Assignments to the back-references of two different ports can be made
    in either order. *)
Lemma point_back_comm tb1 tp1 v1 tb2 tp2 v2 bs :
  (tb1, tp1) <> (tb2, tp2) ->
  point_back tb1 tp1 v1 (point_back tb2 tp2 v2 bs)
  = point_back tb2 tp2 v2 (point_back tb1 tp1 v1 bs).
Proof.
  intros Hne. destruct (decide (tb1 = tb2)) as [->|Hb].
  { apply point_back_comm_block. congruence. }
  assert (Hget : forall ta tp v tb', ta <> tb' ->
            dict_get tb' (point_back ta tp v bs) = dict_get tb' bs).
  { intros ta tp v tb' Hab. unfold point_back.
    destruct (dict_get ta bs) as [b|]; [|done].
    destruct (get_port_by_id b tp); [|done]. by apply dict_get_set_ne. }
  destruct (dict_get tb1 bs) as [b1|] eqn:H1; cycle 1.
  { rewrite (point_back_no_block tb1 tp1 v1 bs) by done.
    apply point_back_no_block. by rewrite Hget. }
  destruct (get_port_by_id b1 tp1) as [q1|] eqn:Hq1; cycle 1.
  { rewrite (point_back_no_port tb1 tp1 v1 bs b1) by done.
    apply (point_back_no_port _ _ _ _ b1); [|done]. by rewrite Hget. }
  destruct (dict_get tb2 bs) as [b2|] eqn:H2; cycle 1.
  { rewrite (point_back_no_block tb2 tp2 v2 bs) by done.
    symmetry. apply point_back_no_block. by rewrite Hget. }
  destruct (get_port_by_id b2 tp2) as [q2|] eqn:Hq2; cycle 1.
  { rewrite (point_back_no_port tb2 tp2 v2 bs b2) by done.
    symmetry. apply (point_back_no_port _ _ _ _ b2); [|done]. by rewrite Hget. }
  rewrite (point_back_port tb1 tp1 v1 _ b1 q1); [|by rewrite Hget|done].
  rewrite (point_back_port tb2 tp2 v2 (point_back _ _ _ _) b2 q2);
    [|by rewrite Hget|done].
  rewrite (point_back_port tb1 tp1 v1 bs b1 q1),
    (point_back_port tb2 tp2 v2 bs b2 q2) by done.
  apply dict_set_comm; [done | by rewrite H1 | by rewrite H2].
Qed.

Lemma rederive_cons kv l bs :
  rederive (kv :: l) bs
  = rederive l (point_back (target_block_id kv.2) (target_port_id kv.2)
                           (Some (source_port_id kv.2)) bs).
Proof. done. Qed.

Lemma edge_into_false tb tp kv :
  edge_into tb tp kv = false ->
  (target_block_id kv.2, target_port_id kv.2) <> (tb, tp).
Proof.
  unfold edge_into. intros H [= H1 H2]. rewrite H1, H2 in H.
  by rewrite !String.eqb_refl in H.
Qed.

Lemma rederive_comm_out tb tp v l bs :
  Forall (fun kv => edge_into tb tp kv = false) l ->
  rederive l (point_back tb tp v bs) = point_back tb tp v (rederive l bs).
Proof.
  intros Hl. revert bs. induction Hl as [|kv l Hkv _ IH]; intros bs; [done|].
  rewrite !rederive_cons, <- IH. f_equal.
  by apply point_back_comm, edge_into_false.
Qed.

Lemma Forall_filter_negb {A} (f : A -> bool) l :
  Forall (fun x => f x = false) (List.filter (fun x => negb (f x)) l).
Proof.
  apply Forall_forall. intros x Hx%list_elem_of_In.
  apply List.filter_In in Hx as [_ Hx]. by apply negb_true_iff.
Qed.

(** An assignment makes the earlier assignments to the same port void. *)
Lemma rederive_absorb tb tp v l bs :
  point_back tb tp v (rederive l bs)
  = point_back tb tp v
      (rederive (List.filter (fun kv => negb (edge_into tb tp kv)) l) bs).
Proof.
  revert bs. induction l as [|kv l IH]; intros bs; [done|].
  rewrite rederive_cons, IH. cbn [List.filter].
  destruct (edge_into tb tp kv) eqn:Hkv; cbn [negb]; [|done].
  unfold edge_into in Hkv. apply andb_true_iff in Hkv as [H1 H2].
  apply String.eqb_eq in H1, H2. rewrite H1, H2.
  rewrite rederive_comm_out by apply Forall_filter_negb.
  apply point_back_twice.
Qed.

Lemma filter_filter_sub {A} (f h : A -> bool) l :
  (forall x, f x = true -> h x = true) ->
  List.filter f (List.filter h l) = List.filter f l.
Proof.
  intros Hfh. induction l as [|x l IH]; [done|]. cbn [List.filter].
  destruct (h x) eqn:Hh; cbn [List.filter].
  - by rewrite IH.
  - destruct (f x) eqn:Hf; [|done]. apply Hfh in Hf. congruence.
Qed.

Lemma filter_filter_negb {A} (f : A -> bool) l :
  List.filter f (List.filter (fun x => negb (f x)) l) = [].
Proof.
  induction l as [|x l IH]; [done|]. cbn [List.filter].
  destruct (f x) eqn:Hx; cbn [negb List.filter]; [done|]. by rewrite Hx.
Qed.

Lemma edge_into_other tb tp bid pid kv :
  (bid, pid) <> (tb, tp) ->
  edge_into bid pid kv = true -> negb (edge_into tb tp kv) = true.
Proof.
  unfold edge_into. intros Hne [H1 H2]%andb_true_iff.
  apply String.eqb_eq in H1, H2. apply negb_true_iff, andb_false_iff.
  destruct (String.eqb_spec (target_block_id kv.2) tb) as [E1|E1]; [|by left].
  destruct (String.eqb_spec (target_port_id kv.2) tp) as [E2|E2]; [|by right].
  congruence.
Qed.

(** When every port already points back along the last edge into it, the
    assignments of the loader change nothing. *)
Lemma rederive_fixed l bs :
  (forall bid pid p s,
     resolve (mkBlockCanvas bs []) bid pid = Some p ->
     last_source_into (mkBlockCanvas bs l) bid pid = Some s ->
     connected_to p = Some s) ->
  rederive l bs = bs.
Proof.
  remember (length l) as n eqn:Hn. revert l Hn.
  induction n as [n IH] using lt_wf_ind. intros l Hn Hag.
  destruct l as [|x l0 _] using rev_ind; [done|].
  set (tb := target_block_id x.2). set (tp := target_port_id x.2).
  unfold rederive. rewrite foldl_app. cbn [foldl]. fold (rederive l0 bs).
  fold tb tp. rewrite rederive_absorb.
  rewrite <- rederive_comm_out by apply Forall_filter_negb.
  assert (Hx : point_back tb tp (Some (source_port_id x.2)) bs = bs).
  { apply point_back_same. intros b p Hb Hp.
    apply (Hag tb tp).
    - unfold resolve; cbn [blocks]. by rewrite Hb.
    - unfold last_source_into, edges_into; cbn [connections].
      rewrite List.filter_app. cbn [List.filter]. unfold tb, tp.
      rewrite !String.eqb_refl. cbn [andb]. by rewrite last_snoc. }
  rewrite Hx.
  apply (IH (length (List.filter (fun kv => negb (edge_into tb tp kv)) l0)));
    [|done|].
  { rewrite Hn, length_app. cbn [length].
    pose proof (List.filter_length_le (fun kv => negb (edge_into tb tp kv)) l0).
    lia. }
  intros bid pid p s Hp Hs. apply (Hag bid pid); [done|].
  unfold last_source_into, edges_into in Hs |- *. cbn [connections] in Hs |- *.
  change (fun kv : string * Connection =>
            String.eqb (target_block_id kv.2) bid
            && String.eqb (target_port_id kv.2) pid)
    with (edge_into bid pid) in Hs |- *.
  destruct (decide ((bid, pid) = (tb, tp))) as [[= -> ->]|Hne].
  - exfalso. revert Hs.
    assert (List.filter (edge_into tb tp)
              (List.filter (fun kv => negb (edge_into tb tp kv)) l0) = [])
      as ->; [|done].
    apply filter_filter_negb.
  - rewrite filter_filter_sub in Hs by (intros kv; by apply edge_into_other).
    rewrite List.filter_app. cbn [List.filter].
    assert (edge_into bid pid x = false) as ->; [|by rewrite app_nil_r].
    apply not_true_is_false. intros Hx'.
    apply (edge_into_other tb tp) in Hx'; [|done].
    apply negb_true_iff in Hx'. unfold edge_into, tb, tp in Hx'.
    by rewrite !String.eqb_refl in Hx'.
Qed.

Lemma properties_loaded_fixed b :
  properties (as_loaded_block b) = properties b
  <-> Forall (fun kv => no_tuple kv.2 = true) (properties b).
Proof.
  unfold as_loaded_block; cbn [properties].
  rewrite map_fixed. apply Forall_iff_transfer, Forall_forall.
  intros [k v] _. cbn [fst snd]. rewrite <- as_loaded_value_fixed.
  split; [by intros [=] | by intros ->].
Qed.

Lemma load_save_compute g :
  canvas_wf g ->
  load_from_json (save_to_json g)
  = Some (mkBlockCanvas (rederive (connections g) (blocks (as_loaded g)))
                        (connections g)).
Proof.
  intros [Hwb Hwc]. unfold load_from_json, save_to_json.
  change (field "blocks" as_obj _)
    with (Some (map (fun kv : string * Block => (kv.1, asdict_block kv.2))
                    (blocks g))).
  cbv beta iota.
  change empty_canvas
    with (mkBlockCanvas
            (map (fun kv : string * Block => (kv.1, as_loaded_block kv.2)) [])
            []).
  rewrite load_blocks_saved by done. rewrite app_nil_l.
  change (field "connections" as_obj _)
    with (Some (map (fun kv : string * Connection =>
                       (kv.1, asdict_connection kv.2)) (connections g))).
  cbv beta iota. by rewrite load_connections_rederive.
Qed.

(** C4, amended.  Loading what [save_to_json] wrote gives the canvas back
    with every tuple in it turned into the list of the same elements (the
    same blocks in the same order with every field of every port, the
    back-references included, and the same connections) exactly when
    every port that is the target of edges points back to the source port
    of the last of them in the connection map.  The tuples are the
    position of every port and those inside the property values: the
    properties of a block come back as they were exactly when none of
    their values holds a tuple. *)
Theorem load_save_round_trip (g : BlockCanvas) :
  canvas_wf g ->
  (load_from_json (save_to_json g) = Some (as_loaded g)
   <-> backrefs_follow_last g)
  /\ (forall b,
       properties (as_loaded_block b) = properties b
       <-> Forall (fun kv => no_tuple kv.2 = true) (properties b)).
Proof.
  intros Hwf. split; [|intros b; apply properties_loaded_fixed].
  rewrite load_save_compute by done. split.
  - intros Heq bid pid p s Hp Hs.
    assert (Hbs : rederive (connections g) (blocks (as_loaded g))
                  = blocks (as_loaded g)) by (by injection Heq).
    pose proof (resolve_rederive (connections g) (blocks (as_loaded g))
                  (connections g) (connections g) bid pid) as Hr.
    rewrite Hbs in Hr.
    change (mkBlockCanvas (blocks (as_loaded g)) (connections g))
      with (as_loaded g) in Hr.
    assert (Hl : last_source_into (as_loaded g) bid pid
                 = last_source_into g bid pid) by done.
    rewrite Hl, Hs, resolve_loaded, Hp in Hr. cbn in Hr.
    by injection Hr as Hr.
  - intros Hag. unfold as_loaded at 2. do 2 f_equal.
    apply rederive_fixed. intros bid pid p s Hp Hs.
    assert (Hp' : resolve (as_loaded (mkBlockCanvas (blocks g) [])) bid pid
                  = Some p) by exact Hp.
    clear Hp. rename Hp' into Hp. rewrite resolve_loaded in Hp.
    destruct (resolve (mkBlockCanvas (blocks g) []) bid pid) as [q|] eqn:Hq;
      [|done].
    injection Hp as <-. cbn [as_loaded_port connected_to].
    by apply (Hag bid pid).
Qed.

Lemma backrefs_follow_last_two_edges : backrefs_follow_last canvas_two_edges.
Proof.
  intros bid pid p s Hp Hs.
  unfold last_source_into, edges_into in Hs.
  change (connections canvas_two_edges)
    with [("c1", mkConnection "c1" "A" "out_a" "C" "in_c");
          ("c2", mkConnection "c2" "B" "out_b" "C" "in_c")] in Hs.
  cbn [List.filter snd target_block_id target_port_id] in Hs.
  destruct (String.eqb_spec "C" bid) as [<-|]; [|done].
  destruct (String.eqb_spec "in_c" pid) as [<-|]; [|done].
  cbn in Hs. injection Hs as <-.
  vm_compute in Hp. by injection Hp as <-.
Qed.

(** Two edges into [C.in_c]: the port points back along the second, and
    the canvas is read back as it was saved. *)
Lemma load_save_round_trip_witness :
  load_from_json (save_to_json canvas_two_edges)
  = Some (as_loaded canvas_two_edges).
Proof.
  apply (proj2 (proj1 (load_save_round_trip canvas_two_edges
                         (reachable_wf _ reachable_two_edges)))).
  exact backrefs_follow_last_two_edges.
Defined.

(** A property holding the tuple [(1, 2)] is read back holding the list
    [[1, 2]]. *)
Example load_save_tuple_property :
  (properties <$> dict_get "T" (blocks (add_block block_T empty_canvas)))
  = Some [("default_value", VSeq PyTuple [VNum (PyInt 1); VNum (PyInt 2)])]
  /\ (g' ← load_from_json (save_to_json (add_block block_T empty_canvas));
      properties <$> dict_get "T" (blocks g'))
     = Some [("default_value", VSeq PyList [VNum (PyInt 1); VNum (PyInt 2)])].
Proof. split; reflexivity. Qed.


(** Scenario A of the specification: the value source comes before the
    operation, whatever the order they were added in. *)
Example generate_code_sorted (py_repr : pyvalue -> string) :
  generate_code py_repr
    (add_block (mkBlock "A" "a" "input_value" 0 0 150 100 [] []
                        [("default_value", VStr "7")])
       (add_block (mkBlock "B" "b" "operation" 0 0 150 100 [] []
                           [("operation", VStr "*")])
          (add_block (mkBlock "F" "f" "function" 0 0 150 100 [loop_in] []
                              []) empty_canvas)))
  = "# Generated Code

a = 7
result = input1 * input2
def my_function(param1):
    return None".
Proof. reflexivity. Qed.

End EditorFacts.

(** ** The URDF reader and the layout *)

Module UrdfFacts.
Import Urdf.

(** *** Default interfaces *)

(** C6.  A joint built with no state and no command interfaces (empty
    lists, or the [None] defaults) gets ["position", "velocity"] and
    ["position"] when its type is revolute, prismatic or continuous, and
    keeps both lists empty when its type is fixed; a non-empty list [l]
    given to the constructor is the list of the joint, whatever the
    type. *)
Theorem Joint_init_interfaces {F : Type}
    (name joint_type' parent' child' : pystr)
    (axis' : option (list F)) (limit' : option (list (string * F)))
    (st cmd hw : option (list pystr)) :
  let j := Joint_init name joint_type' parent' child' axis' limit' st cmd hw in
  ((st = None \/ st = Some []) /\ (cmd = None \/ cmd = Some []) ->
     (joint_type' ∈ [Some "revolute"; Some "prismatic"; Some "continuous"] ->
        state_interfaces j = [Some "position"; Some "velocity"]
        /\ command_interfaces j = [Some "position"])
     /\ (joint_type' = Some "fixed" ->
        state_interfaces j = [] /\ command_interfaces j = []))
  /\ (forall l, st = Some l -> l <> [] -> state_interfaces j = l)
  /\ (forall l, cmd = Some l -> l <> [] -> command_interfaces j = l).
Proof.
  cbv zeta. unfold Joint_init; cbn [state_interfaces command_interfaces].
  unfold default_interfaces, is_moving_type. split_and!.
  - intros [Hst Hcmd].
    assert (list_or_empty st = []) as -> by (by destruct Hst as [-> | ->]).
    assert (list_or_empty cmd = []) as -> by (by destruct Hcmd as [-> | ->]).
    cbn [is_empty]. split.
    + intros Hm. by rewrite bool_decide_eq_true_2.
    + intros ->. rewrite bool_decide_eq_false_2 by set_solver.
      by rewrite bool_decide_eq_true_2.
  - intros l -> Hl. cbn [list_or_empty]. by destruct l.
  - intros l -> Hl. cbn [list_or_empty]. by destruct l.
Qed.

(** Scenario B of the specification. *)
Example revolute_joint_defaults :
  let j := Joint_init (F := Q) (Some "j") (Some "revolute") (Some "base")
                      (Some "arm") None None (Some []) (Some []) None in
  state_interfaces j = [Some "position"; Some "velocity"]
  /\ command_interfaces j = [Some "position"].
Proof. done. Qed.

(** *** The reader *)

Example py_split_blanks :
  py_split "  position   velocity effort " = ["position"; "velocity"; "effort"].
Proof. reflexivity. Qed.

(** An em space, U+2003, separates two words. *)
Example py_split_em_space :
  py_split (encode [0x61; 0x2003; 0x62]%N) = ["a"; "b"].
Proof. reflexivity. Qed.

(** The bytes 0xA0 and 0x85 inside the letters U+00E0 and U+0145 are no
    white space. *)
Example py_split_letters :
  py_split (encode [0xE0; 0x20; 0x145]%N)
  = [encode [0xE0]%N; encode [0x145]%N].
Proof. reflexivity. Qed.

(** C7 at the failing input: a joint whose [gazebo_ros_control] plugin has
    a [command_interface] element with the text ["effort"].  The reader
    asks the list [command_interfaces] for a [text] attribute, which
    raises, and the handler of [parse] ends the program with status 1: no
    joint is returned. *)
Theorem parse_gazebo_command_interface_exits {F : Type}
    (py_float : string -> option F) :
  parse py_float robot_gazebo_both = Raises (SystemExit 1)
  /\ parse_joint py_float
       (joint_gazebo [state_interface_text; command_interface_text])
     = Raises AttributeError.
Proof. split; reflexivity. Qed.

(** The sibling branch reads [state_ifaces.text]: with the
    [state_interface] element alone the document is read and the joint
    has the tokens of its text. *)
Lemma parse_gazebo_state_interface {F : Type} (py_float : string -> option F) :
  exists links j,
    parse py_float robot_gazebo_state_only = Returns (links, [j])
    /\ state_interfaces j = [Some "position"; Some "velocity"]
    /\ command_interfaces j = [Some "position"].
Proof. do 2 eexists. split; [reflexivity | done]. Qed.

Lemma parse_joints_raises {F : Type} (py_float : string -> option F)
    (elems : list Element) (joints : list (Joint F)) (joint_elem : Element) :
  joint_elem ∈ elems ->
  (exists e, parse_joint py_float joint_elem = Raises e) ->
  exists e, parse_joints py_float elems joints = Raises e.
Proof.
  intros Hin [e He]. revert joints.
  induction elems as [|x elems IH]; intros joints.
  - by apply elem_of_nil in Hin.
  - cbn [parse_joints]. unfold mbind, outcome_bind.
    destruct (parse_joint py_float x) as [j|e'] eqn:Hx; [|by eexists].
    apply elem_of_cons in Hin as [->|Hin]; [congruence|].
    by apply IH.
Qed.

(** X16.  Every document with a joint that has a [parent] and a [child]
    element and a [gazebo_ros_control] plugin whose [command_interface]
    element has a text ends the same way: [parse] leaves through
    [sys.exit(1)]. *)
Lemma parse_command_interface_text_exits {F : Type}
    (py_float : string -> option F)
    (root joint_elem parent_elem child_elem gazebo plugin command_ifaces
       : Element) :
  joint_elem ∈ findall "joint" root ->
  find "parent" joint_elem = Some parent_elem ->
  find "child" joint_elem = Some child_elem ->
  find "gazebo" joint_elem = Some gazebo ->
  find_with_attr "plugin" "name" "gazebo_ros_control" gazebo = Some plugin ->
  find "command_interface" plugin = Some command_ifaces ->
  truthy (text command_ifaces) = true ->
  parse py_float root = Raises (SystemExit 1).
Proof.
  intros Hin Hp Hc Hg Hpl Hci Htxt.
  assert (Hj : exists e, parse_joint py_float joint_elem = Raises e).
  { unfold parse_joint. rewrite Hp, Hc, Hg, Hpl, Hci, Htxt.
    unfold list_text, mbind, outcome_bind.
    repeat match goal with
    | |- exists e, match ?m with Returns _ => _ | Raises _ => _ end = _ =>
        destruct m; [|by eexists]
    end.
    by eexists. }
  destruct (parse_joints_raises py_float _ [] _ Hin Hj) as [e He].
  unfold parse, parse_body. unfold mbind at 1, outcome_bind at 1.
  by rewrite He.
Qed.

(** *** The layout pass *)

Scheme ref_place_mut := Minimality for ref_place Sort Prop
  with ref_place_children_mut := Minimality for ref_place_children Sort Prop.

Section LayoutFacts.
Context {F : Type}.
Variables spacing_x spacing_y margin : Z.

Local Abbreviation layout_subtree :=
  (layout_subtree (F:=F) spacing_x spacing_y margin).
Local Abbreviation calculate_layout :=
  (calculate_layout (F:=F) spacing_x spacing_y margin).
Local Abbreviation ref_place := (ref_place spacing_x spacing_y margin).
Local Abbreviation ref_place_children :=
  (ref_place_children spacing_x spacing_y margin).
Local Abbreviation ref_place_roots := (ref_place_roots spacing_x spacing_y margin).
Local Abbreviation ref_layout := (ref_layout spacing_x spacing_y margin).

Implicit Types (joints : list (Joint F)) (pos : gmap pystr (Z * Z)).

Lemma children_of_ref joints n :
  map fst (children_of n joints) = ref_children (edges_of joints) n.
Proof.
  unfold ref_children, edges_of.
  induction joints as [|j joints IH]; [done|].
  cbn [children_of map List.filter fst].
  case_bool_decide; cbn [map fst snd]; by rewrite IH.
Qed.

Lemma children_of_child joints n c :
  c ∈ children_of n joints -> c.1 ∈ map child joints.
Proof.
  induction joints as [|j joints IH]; cbn [children_of map].
  - by intros ?%elem_of_nil.
  - case_bool_decide.
    + intros [->|?]%elem_of_cons; [left | right; auto].
    + intros ?. right. auto.
Qed.

(** **** The pass only adds positions *)

Lemma for_each_mono {A} (body : A -> gmap pystr (Z * Z) ->
                                option (gmap pystr (Z * Z))) l pos pos' :
  (forall a p p', a ∈ l -> body a p = Some p' -> p ⊆ p') ->
  for_each body l pos = Some pos' -> pos ⊆ pos'.
Proof.
  revert pos. induction l as [|a l IH]; intros pos Hbody; cbn [for_each].
  - by intros [= ->].
  - destruct (body a pos) as [p1|] eqn:Ha; [|done]. intros Hl.
    transitivity p1.
    + eapply Hbody; [left | done].
    + apply IH; [|done]. intros a' p p' Hin. apply Hbody. by right.
Qed.

Lemma layout_subtree_mono fuel joints n depth y_offset pos pos' :
  layout_subtree fuel joints n depth y_offset pos = Some pos' -> pos ⊆ pos'.
Proof.
  revert n depth y_offset pos pos'.
  induction fuel as [|fuel IH]; intros n depth y_offset pos pos';
    cbn [Urdf.layout_subtree]; [done|].
  destruct (pos !! n) as [p|] eqn:Hn; [by intros [= ->]|].
  intros Hl. transitivity (<[n := (margin + depth * spacing_x,
                                   margin + y_offset)]> pos).
  - by apply insert_subseteq.
  - eapply for_each_mono; [|exact Hl]. intros a p p' _. apply IH.
Qed.

(** **** The pass follows the reference placement *)

Lemma layout_subtree_sound fuel joints n depth y_offset pos pos' :
  layout_subtree fuel joints n depth y_offset pos = Some pos' ->
  ref_place (edges_of joints) pos n depth y_offset pos'.
Proof.
  revert n depth y_offset pos pos'.
  induction fuel as [|fuel IH]; intros n depth y_offset pos pos';
    cbn [Urdf.layout_subtree]; [done|].
  destruct (pos !! n) as [p|] eqn:Hn.
  - intros [= ->]. by eapply ref_place_sticky.
  - intros Hl. apply ref_place_assign; [done|].
    rewrite <- children_of_ref. unfold enumerate in Hl.
    revert Hl. generalize (children_of n joints).
    generalize (<[n := (margin + depth * spacing_x, margin + y_offset)]> pos).
    generalize 0. intros k p1 cs. revert k p1.
    induction cs as [|c cs IHcs]; intros k p1; cbn [enumerate_from for_each map].
    + intros [= ->]. constructor.
    + cbn [fst snd].
      destruct (layout_subtree fuel joints c.1 (depth + 1)
                  (y_offset + k * spacing_y) p1) as [p2|] eqn:Hc; [|done].
      intros Hl. econstructor; [by apply IH | by apply IHcs].
Qed.

(** **** The reference placement is a function *)

Lemma ref_place_deterministic edges pos n depth yOffset pos1 :
  ref_place edges pos n depth yOffset pos1 ->
  forall pos2, ref_place edges pos n depth yOffset pos2 -> pos2 = pos1.
Proof.
  intros H.
  induction H using ref_place_mut with
    (P0 := fun pos cs k depth yOffset pos1 =>
             forall pos2, ref_place_children edges pos cs k depth yOffset pos2
                          -> pos2 = pos1).
  - intros pos2 H2. inversion H2; subst; [done | congruence].
  - intros pos2 H2. inversion H2; subst; [congruence | auto].
  - intros pos2 H2. by inversion H2.
  - intros pos3 H3. inversion H3; subst.
    match goal with
    | Hc : ref_place _ _ _ _ _ ?q, Hr : ref_place_children _ ?q _ _ _ _ _
      |- _ => apply IHref_place in Hc; subst q; by apply IHref_place0
    end.
Qed.

Lemma ref_place_roots_deterministic edges pos roots i pos1 :
  ref_place_roots edges pos roots i pos1 ->
  forall pos2, ref_place_roots edges pos roots i pos2 -> pos2 = pos1.
Proof.
  induction 1 as [|pos r rs i p1 p2 Hr Hrs IH]; intros pos3 H3;
    inversion H3; subst; [done|].
  match goal with
  | Hc : ref_place _ _ _ _ _ ?q |- _ =>
      apply (ref_place_deterministic _ _ _ _ _ _ Hr) in Hc; subst q
  end.
  by apply IH.
Qed.

(** **** The pass returns

    Every call that assigns a position takes a name out of the set of the
    names still without one, so a fuel above the size of that set is
    enough. *)

Lemma layout_subtree_returns (U : gset pystr) fuel joints n depth y_offset pos :
  (forall c, c ∈ map child joints -> c ∈ U) ->
  n ∈ U ->
  (size (U ∖ dom pos) < fuel)%nat ->
  is_Some (layout_subtree fuel joints n depth y_offset pos).
Proof.
  intros HU. revert n depth y_offset pos.
  induction fuel as [|fuel IH]; intros n depth y_offset pos Hn Hsize;
    cbn [Urdf.layout_subtree]; [lia|].
  destruct (pos !! n) as [p|] eqn:Hpos; [by eexists|].
  set (pos1 := <[n := (margin + depth * spacing_x, margin + y_offset)]> pos).
  assert (Hlt : (size (U ∖ dom pos1) < fuel)%nat).
  { assert (U ∖ dom pos1 ⊂ U ∖ dom pos) as Hsub%subset_size; [|lia].
    unfold pos1. rewrite dom_insert_L.
    apply not_elem_of_dom in Hpos. set_solver. }
  assert (Hcs : forall c, c ∈ children_of n joints -> c.1 ∈ U).
  { intros c Hc. by eapply HU, children_of_child. }
  unfold enumerate. revert Hlt Hcs.
  generalize (children_of n joints), pos1, 0. clear pos1 Hpos Hsize.
  intros cs. induction cs as [|c cs IHcs]; intros p1 k Hlt Hcs;
    cbn [enumerate_from for_each]; [by eexists|].
  cbn [fst snd].
  destruct (IH c.1 (depth + 1) (y_offset + k * spacing_y) p1) as [p2 Hp2];
    [apply Hcs; left | done |].
  rewrite Hp2. apply IHcs.
  - apply layout_subtree_mono, subseteq_dom in Hp2.
    assert (U ∖ dom p2 ⊆ U ∖ dom p1) as Hsub%subseteq_size by set_solver.
    lia.
  - intros c' Hc'. apply Hcs. by right.
Qed.

Lemma size_list_to_set_le (l : list pystr) :
  (size (list_to_set (C := gset pystr) l) <= length l)%nat.
Proof.
  induction l as [|x l IH]; cbn [list_to_set length].
  - by rewrite size_empty.
  - rewrite size_union_alt, size_singleton.
    assert (list_to_set (C := gset pystr) l ∖ {[x]} ⊆ list_to_set l)
      as Hsub%subseteq_size by set_solver.
    lia.
Qed.

(** **** The roots *)

Lemma root_links_ref (links : list (pystr * Link)) joints :
  root_links links joints = ref_roots (nodes_of links) (edges_of joints).
Proof.
  unfold root_links, ref_roots, nodes_of.
  assert (Hf : List.filter
      (fun link => bool_decide (link ∉ (list_to_set (map child joints)
                                          : gset pystr))) (dict_keys links)
    = List.filter (fun n => bool_decide (n ∉ map snd (edges_of joints)))
                  (dict_keys links)).
  { apply List.filter_ext. intros a. apply bool_decide_ext.
    rewrite elem_of_list_to_set. unfold edges_of.
    by rewrite map_map. }
  rewrite Hf. clear Hf.
  destruct (List.filter _ (dict_keys links)) as [|r rs]; cbn [is_empty andb].
  - by destruct links as [|[k l] links].
  - done.
Qed.

Lemma root_links_keys (links : list (pystr * Link)) joints r :
  r ∈ root_links links joints -> r ∈ dict_keys links.
Proof.
  unfold root_links.
  set (roots := List.filter _ (dict_keys links)).
  assert (Hroots : r ∈ roots -> r ∈ dict_keys links).
  { unfold roots. rewrite !list_elem_of_In, List.filter_In. tauto. }
  destruct (is_empty roots && negb (is_empty links)); [|done].
  destruct (dict_keys links) as [|k ks]; [done|].
  intros ->%list_elem_of_singleton. left.
Qed.

(** **** The whole pass *)

Lemma calculate_layout_sound fuel links joints prior pos :
  calculate_layout fuel links joints prior = Some pos ->
  ref_layout (nodes_of links) (edges_of joints) prior pos.
Proof.
  unfold Urdf.calculate_layout, Urdf.ref_layout, enumerate.
  rewrite <- root_links_ref.
  generalize (root_links links joints). intros roots.
  generalize 0 at 2 3. revert prior.
  induction roots as [|r roots IH]; intros prior i;
    cbn [enumerate_from for_each].
  - intros [= ->]. constructor.
  - cbn [fst snd].
    destruct (layout_subtree fuel joints r 0 (i * spacing_y * 2) prior)
      as [p1|] eqn:Hr; [|done].
    intros Hl.
    eapply ref_roots_cons; [eapply layout_subtree_sound; exact Hr | by apply IH].
Qed.

Lemma calculate_layout_mono fuel links joints prior pos :
  calculate_layout fuel links joints prior = Some pos -> prior ⊆ pos.
Proof.
  unfold Urdf.calculate_layout. apply for_each_mono.
  intros a p p' _. apply layout_subtree_mono.
Qed.

Lemma calculate_layout_returns fuel links joints prior :
  (length links + length joints < fuel)%nat ->
  is_Some (calculate_layout fuel links joints prior).
Proof.
  intros Hfuel.
  set (U := (list_to_set (dict_keys links) ∪ list_to_set (map child joints)
             : gset pystr)).
  assert (HU : (size U <= length links + length joints)%nat).
  { unfold U. rewrite size_union_alt.
    pose proof (size_list_to_set_le (dict_keys links)) as H1.
    pose proof (size_list_to_set_le (map child joints)) as H2.
    assert (list_to_set (C := gset pystr) (map child joints)
              ∖ list_to_set (dict_keys links)
            ⊆ list_to_set (map child joints)) as Hs%subseteq_size
      by set_solver.
    assert (length (dict_keys links) = length links) as H3
      by apply length_fmap.
    rewrite length_map in H2. lia. }
  assert (Hroots : forall r, r ∈ root_links links joints -> r ∈ U).
  { intros r Hr%root_links_keys. unfold U. set_solver. }
  assert (Hchild : forall c, c ∈ map child joints -> c ∈ U).
  { intros c Hc. unfold U. set_solver. }
  unfold Urdf.calculate_layout, enumerate. revert Hroots.
  generalize (root_links links joints). intros roots.
  generalize 0 at 2. intros i. revert prior i.
  induction roots as [|r roots IH]; intros prior i Hroots;
    cbn [enumerate_from for_each]; [by eexists|].
  cbn [fst snd].
  destruct (layout_subtree_returns U fuel joints r 0 (i * spacing_y * 2) prior)
    as [p1 Hp1]; [done | apply Hroots; left | |].
  { assert (U ∖ dom prior ⊆ U) as Hs%subseteq_size by set_solver. lia. }
  rewrite Hp1. apply IH. intros r' Hr'. apply Hroots. by right.
Qed.

(** C3.  Whatever the links, the joints and the positions known before,
    the layout pass returns for every fuel above the number of links and
    joints, always with the same position map; that map is the one the
    reference placement of the specification relates to the prior map
    (roots, root offsets, [x] and [y] of a newly placed node, children in
    edge order with their offsets, immediate return on a node that has a
    position), and the only one; every position of the prior map is in
    it unchanged. *)
Theorem calculate_layout_refines_reference
    (links : list (pystr * Link)) (joints : list (Joint F))
    (prior : gmap pystr (Z * Z)) :
  exists pos,
    (forall fuel, (length links + length joints < fuel)%nat ->
       calculate_layout fuel links joints prior = Some pos)
    /\ ref_layout (nodes_of links) (edges_of joints) prior pos
    /\ (forall pos', ref_layout (nodes_of links) (edges_of joints) prior pos'
                     -> pos' = pos)
    /\ (forall n p, prior !! n = Some p -> pos !! n = Some p).
Proof.
  destruct (calculate_layout_returns (S (length links + length joints))
              links joints prior) as [pos Hpos]; [lia|].
  pose proof (calculate_layout_sound _ _ _ _ _ Hpos) as Href.
  exists pos. split_and!.
  - intros fuel Hfuel.
    destruct (calculate_layout_returns fuel links joints prior)
      as [pos' Hpos']; [done|].
    rewrite Hpos'. f_equal.
    apply calculate_layout_sound in Hpos'.
    by apply (ref_place_roots_deterministic _ _ _ _ _ Href).
  - done.
  - intros pos' Hpos'.
    by apply (ref_place_roots_deterministic _ _ _ _ _ Href).
  - intros n p Hn. apply calculate_layout_mono in Hpos.
    by eapply lookup_weaken.
Qed.

(** **** What the pass places, and where *)

Local Abbreviation layout_step := (layout_step (F:=F) spacing_x spacing_y margin).
Local Abbreviation on_grid := (on_grid spacing_x spacing_y margin).

Lemma layout_step_refl joints pos : layout_step joints pos pos.
Proof.
  split_and!; [done | |].
  - intros n p Hn Hp. congruence.
  - intros j _ Hn [p Hp]. congruence.
Qed.

Lemma layout_step_trans joints p1 p2 p3 :
  layout_step joints p1 p2 -> layout_step joints p2 p3 ->
  layout_step joints p1 p3.
Proof.
  intros (H12 & Hg12 & Hc12) (H23 & Hg23 & Hc23). split_and!.
  - by transitivity p2.
  - intros n p Hn Hp. destruct (p2 !! n) as [q|] eqn:Hq.
    + pose proof (lookup_weaken _ _ _ _ Hq H23) as Hq'.
      rewrite Hp in Hq'. injection Hq' as ->. by eapply Hg12.
    + by eapply Hg23.
  - intros j Hj Hn Hs. destruct (p2 !! parent j) as [q|] eqn:Hq.
    + destruct (Hc12 j Hj Hn) as [c Hc]; [by eexists|].
      exists c. by eapply lookup_weaken.
    + by apply Hc23.
Qed.

Lemma for_each_layout_step {A} joints
    (body : A -> gmap pystr (Z * Z) -> option (gmap pystr (Z * Z)))
    (key : A -> pystr) l pos pos' :
  (forall a q q', a ∈ l -> body a q = Some q' ->
     layout_step joints q q' /\ is_Some (q' !! key a)) ->
  for_each body l pos = Some pos' ->
  layout_step joints pos pos' /\ (forall a, a ∈ l -> is_Some (pos' !! key a)).
Proof.
  revert pos. induction l as [|a l IH]; intros pos Hbody; cbn [for_each].
  - intros [= ->]. split; [apply layout_step_refl|].
    by intros a ?%elem_of_nil.
  - destruct (body a pos) as [p1|] eqn:Ha; [|done]. intros Hl.
    destruct (Hbody a pos p1) as [Hs1 [q Hq]]; [left | done |].
    destruct (IH p1) as [Hs2 Hk2]; [|done|].
    { intros a' q0 q' Hin. apply Hbody. by right. }
    split; [by eapply layout_step_trans|].
    intros a' [->|Hin]%elem_of_cons; [|by apply Hk2].
    exists q. eapply lookup_weaken; [done|]. apply Hs2.
Qed.

Lemma elem_of_enumerate_from {A} (k : Z) (l : list A) ia :
  ia ∈ enumerate_from k l -> k <= ia.1 /\ ia.2 ∈ l.
Proof.
  revert k. induction l as [|a l IH]; intros k; cbn [enumerate_from].
  - by intros ?%elem_of_nil.
  - intros [->|Hin]%elem_of_cons; [split; [simpl; lia | left]|].
    apply IH in Hin as [? ?]. split; [lia | by right].
Qed.

Lemma elem_of_enumerate_from_2 {A} (k : Z) (l : list A) a :
  a ∈ l -> exists i, (i, a) ∈ enumerate_from k l.
Proof.
  revert k. induction l as [|b l IH]; intros k; cbn [enumerate_from].
  - by intros ?%elem_of_nil.
  - intros [->|Hin]%elem_of_cons; [exists k; left|].
    destruct (IH (k + 1) Hin) as [i Hi]. exists i. by right.
Qed.

Lemma elem_of_children_of joints n j :
  j ∈ joints -> parent j = n -> (child j, j) ∈ children_of n joints.
Proof.
  intros Hin Hp. induction joints as [|j0 joints IH]; cbn [children_of].
  - by apply elem_of_nil in Hin.
  - apply elem_of_cons in Hin as [<-|Hin].
    + rewrite bool_decide_eq_true_2 by done. left.
    + case_bool_decide; [right|]; by apply IH.
Qed.

Lemma layout_subtree_step fuel joints n depth y_offset k pos pos' :
  0 <= depth -> 0 <= k -> y_offset = k * spacing_y ->
  layout_subtree fuel joints n depth y_offset pos = Some pos' ->
  layout_step joints pos pos' /\ is_Some (pos' !! n).
Proof.
  revert n depth y_offset k pos pos'.
  induction fuel as [|fuel IH]; intros n depth y_offset k pos pos' Hd Hk Hy;
    cbn [Urdf.layout_subtree]; [done|].
  destruct (pos !! n) as [p|] eqn:Hn.
  { intros [= <-]. split; [apply layout_step_refl | by eexists]. }
  set (pos1 := <[n := (margin + depth * spacing_x, margin + y_offset)]> pos).
  intros Hl.
  apply (for_each_layout_step joints _ (fun ic => ic.2.1)) in Hl
    as [(Hsub & Hgrid & Hch) Hkeys].
  - assert (Hn1 : pos1 !! n = Some (margin + depth * spacing_x,
                                    margin + y_offset))
      by apply lookup_insert_eq.
    pose proof (lookup_weaken _ _ _ _ Hn1 Hsub) as Hn'.
    split; [|by eexists]. split_and!.
    + transitivity pos1; [by apply insert_subseteq | done].
    + intros m p Hm Hp. destruct (decide (m = n)) as [->|Hne].
      * rewrite Hn' in Hp. injection Hp as <-. exists depth, k. by subst.
      * apply (Hgrid m); [|done]. unfold pos1. by rewrite lookup_insert_ne.
    + intros j Hj Hm Hs. destruct (decide (parent j = n)) as [Hp|Hne].
      * destruct (elem_of_enumerate_from_2 0 (children_of n joints)
                    (child j, j)) as [i Hi];
          [by apply elem_of_children_of|].
        apply (Hkeys (i, (child j, j))), Hi.
      * apply Hch; [done | | done]. unfold pos1. by rewrite lookup_insert_ne.
  - intros [i [c j]] q q' [Hi _]%elem_of_enumerate_from Hq. cbn in Hi, Hq |- *.
    apply (IH _ _ _ (k + i)) in Hq; [done | lia | lia | subst; lia].
Qed.

Lemma calculate_layout_covers_roots fuel (links : list (pystr * Link)) joints
    prior pos :
  calculate_layout fuel links joints prior = Some pos ->
  forall r, r ∈ root_links links joints -> is_Some (pos !! r).
Proof.
  unfold Urdf.calculate_layout. intros Hl.
  apply (for_each_layout_step joints _ (fun ir => ir.2)) in Hl
    as [_ Hkeys]; cycle 1.
  { intros [i r] q q' [Hi _]%elem_of_enumerate_from Hq. cbn in Hi, Hq |- *.
    apply (layout_subtree_step _ _ _ _ _ (2 * i)) in Hq;
      [done | lia | lia | lia]. }
  intros r Hr. destruct (elem_of_enumerate_from_2 0 _ _ Hr) as [i Hi].
  apply (Hkeys (i, r)), Hi.
Qed.

(** X10.  When the layout pass returns, every root link has a position,
    and whenever a link got its position in this pass the child of every
    joint from it has one as well.  Started from the empty position map,
    the pass therefore places every link that a chain of joints connects
    to a root. *)
Theorem calculate_layout_covers (fuel : nat) (links : list (pystr * Link))
    (joints : list (Joint F)) (prior pos : gmap pystr (Z * Z)) :
  calculate_layout fuel links joints prior = Some pos ->
  (forall r, r ∈ root_links links joints -> is_Some (pos !! r))
  /\ (forall j, j ∈ joints -> prior !! parent j = None ->
        is_Some (pos !! parent j) -> is_Some (pos !! child j))
  /\ (prior = ∅ -> forall n, reached links joints n -> is_Some (pos !! n)).
Proof.
  unfold Urdf.calculate_layout. intros Hl.
  apply (for_each_layout_step joints _ (fun ir => ir.2)) in Hl
    as [(Hsub & Hgrid & Hch) Hkeys]; cycle 1.
  { intros [i r] q q' [Hi _]%elem_of_enumerate_from Hq. cbn in Hi, Hq |- *.
    apply (layout_subtree_step _ _ _ _ _ (2 * i)) in Hq;
      [done | lia | lia | lia]. }
  assert (Hroots : forall r, r ∈ root_links links joints -> is_Some (pos !! r)).
  { intros r Hr.
    destruct (elem_of_enumerate_from_2 0 _ _ Hr) as [i Hi].
    apply (Hkeys (i, r)), Hi. }
  split_and!; [done | done |].
  intros -> n Hn. induction Hn as [r Hr|j Hj _ IH]; [by apply Hroots|].
  apply Hch; [done | apply lookup_empty | done].
Qed.


(** X11.  Every position the layout pass assigns lies on the grid
    [(margin + depth * spacing_x, margin + k * spacing_y)] with
    [depth >= 0] and [k >= 0]; the first root link, when it had no
    position, is placed at [(margin, margin)]. *)
Theorem calculate_layout_grid (fuel : nat) (links : list (pystr * Link))
    (joints : list (Joint F)) (prior pos : gmap pystr (Z * Z)) :
  calculate_layout fuel links joints prior = Some pos ->
  (forall n p, prior !! n = None -> pos !! n = Some p -> on_grid p)
  /\ (forall r, head (root_links links joints) = Some r ->
        prior !! r = None -> pos !! r = Some (margin, margin)).
Proof.
  intros Hl. split.
  - unfold Urdf.calculate_layout in Hl.
    apply (for_each_layout_step joints _ (fun ir => ir.2)) in Hl
      as [(Hsub & Hgrid & Hch) Hkeys]; [done|].
    intros [i r] q q' [Hi _]%elem_of_enumerate_from Hq. cbn in Hi, Hq |- *.
    apply (layout_subtree_step _ _ _ _ _ (2 * i)) in Hq;
      [done | lia | lia | lia].
  - intros r Hr Hn. unfold Urdf.calculate_layout, enumerate in Hl.
    destruct (root_links links joints) as [|r' rs]; [done|].
    injection Hr as ->. cbn [enumerate_from for_each fst snd] in Hl.
    destruct (layout_subtree fuel joints r 0 (0 * spacing_y * 2) prior)
      as [p1|] eqn:Hp1; [|done].
    apply for_each_mono in Hl;
      [|intros a p p' _; apply layout_subtree_mono].
    destruct fuel as [|fuel]; [done|]. cbn [Urdf.layout_subtree] in Hp1.
    rewrite Hn in Hp1. apply for_each_mono in Hp1;
      [|intros a p p' _; apply layout_subtree_mono].
    eapply lookup_weaken; [|exact Hl]. eapply lookup_weaken; [|exact Hp1].
    rewrite lookup_insert_eq. do 2 f_equal; lia.
Qed.


(** X12.  Running the layout pass again on the position map it returned
    changes nothing: every root link has a position by then, so every
    call returns at once. *)
Theorem calculate_layout_again (fuel : nat) (links : list (pystr * Link))
    (joints : list (Joint F)) (prior pos : gmap pystr (Z * Z)) :
  calculate_layout fuel links joints prior = Some pos ->
  calculate_layout fuel links joints pos = Some pos.
Proof.
  intros Hl. pose proof (calculate_layout_covers_roots _ _ _ _ _ Hl) as Hroots.
  unfold Urdf.calculate_layout, enumerate in Hl |- *.
  destruct (root_links links joints) as [|r rs] eqn:Hrs; [done|].
  destruct fuel as [|fuel]; [done|].
  clear Hl. revert Hroots. generalize (r :: rs). intros roots Hroots.
  generalize 0 at 2. induction roots as [|r' roots IH]; intros i;
    cbn [enumerate_from for_each fst snd Urdf.layout_subtree]; [done|].
  destruct (Hroots r') as [p Hp]; [left|]. rewrite Hp.
  apply IH. intros r0 Hr0. apply Hroots. by right.
Qed.

End LayoutFacts.

Lemma calculate_layout_covers_witness :
  is_Some ((<[Some "L3" := (230, 150)]>
              (<[Some "L2" := (230, 50)]> (<[Some "L1" := (50, 50)]> ∅))
            : gmap pystr (Z * Z)) !! Some "L3").
Proof.
  refine (proj2 (proj2 (calculate_layout_covers 180 100 50 6 three_links
                          two_joints ∅ _ _)) eq_refl (Some "L3") _).
  - by vm_compute.
  - apply (reached_child three_links two_joints
             (Joint_init (Some "j13") (Some "fixed") (Some "L1") (Some "L3")
                         None None None None None)).
    + right. left.
    + apply reached_root. vm_compute. left.
Defined.

Lemma calculate_layout_grid_witness :
  (<[Some "L3" := (230, 150)]>
     (<[Some "L2" := (230, 50)]> (<[Some "L1" := (50, 50)]> ∅))
   : gmap pystr (Z * Z)) !! Some "L1" = Some (50, 50).
Proof.
  refine (proj2 (calculate_layout_grid 180 100 50 6 three_links two_joints ∅ _ _)
            (Some "L1") eq_refl eq_refl).
  by vm_compute.
Defined.

(** Scenario C of the specification, with the constants of the programs:
    [L1] at depth 0, [L2] and [L3] at depth 1, one vertical spacing
    apart. *)
Example layout_three_links :
  calculate_layout 180 100 50 6 three_links two_joints ∅
  = Some (<[Some "L3" := (230, 150)]>
            (<[Some "L2" := (230, 50)]> (<[Some "L1" := (50, 50)]> ∅))).
Proof. by vm_compute. Qed.

Lemma calculate_layout_again_witness :
  let pos : gmap pystr (Z * Z) :=
    <[Some "L3" := (230, 150)]>
      (<[Some "L2" := (230, 50)]> (<[Some "L1" := (50, 50)]> ∅)) in
  calculate_layout 180 100 50 6 three_links two_joints pos = Some pos.
Proof.
  cbv zeta.
  apply (calculate_layout_again 180 100 50 6 three_links two_joints ∅).
  by vm_compute.
Defined.

(** *** What the reader returns *)

Lemma parse_links_get (elems : list Element) (links : list (pystr * Link))
    (name : pystr) :
  dict_get name (parse_links elems links)
  = match last (List.filter (fun e => bool_decide (get e "name" = name)) elems)
    with
    | Some e => Some (parse_link e)
    | None => dict_get name links
    end.
Proof.
  revert links. induction elems as [|e elems IH]; intros links; [done|].
  cbn [parse_links List.filter]. rewrite IH, dict_get_set.
  cbn [parse_link link_name].
  case_bool_decide as Hn.
  - rewrite decide_True by done.
    rewrite last_cons. by destruct (last _).
  - by rewrite decide_False.
Qed.

Lemma parse_links_wf (elems : list Element) (links : list (pystr * Link)) :
  dict_wf links -> dict_wf (parse_links elems links).
Proof.
  revert links. induction elems as [|e elems IH]; intros links Hwf; [done|].
  cbn [parse_links]. by apply IH, dict_wf_set.
Qed.

Lemma parse_returns_inv {F : Type} (py_float : string -> option F) root r :
  parse py_float root = Returns r ->
  r.1 = parse_links (findall "link" root) []
  /\ parse_joints py_float (findall "joint" root) [] = Returns r.2.
Proof.
  unfold parse, parse_body. unfold mbind at 1, outcome_bind at 1.
  destruct (parse_joints py_float _ []) as [js|e]; [|done].
  by intros [= <-].
Qed.

(** X14.  In the links a successful [parse] returns, a name is a key
    exactly when some [link] element carries it, and it stands for the
    last such element of the document: of two [link] elements with one
    name the later one wins.  No key occurs twice. *)
Theorem parse_links_last_wins {F : Type} (py_float : string -> option F)
    (root : Element) (links : list (pystr * Link)) (joints : list (Joint F)) :
  parse py_float root = Returns (links, joints) ->
  dict_wf links
  /\ forall name,
       dict_get name links
       = parse_link
           <$> last (List.filter (fun e => bool_decide (get e "name" = name))
                                 (findall "link" root)).
Proof.
  intros [Hl _]%parse_returns_inv. cbn [fst] in Hl. subst links. split.
  - apply parse_links_wf, NoDup_nil_2.
  - intros name. rewrite parse_links_get. by destruct (last _).
Qed.

Lemma parse_links_last_wins_witness :
  dict_get (Some "arm") links_base_arm
  = parse_link
      <$> last (List.filter (fun e => bool_decide (get e "name" = Some "arm"))
                            (findall "link" robot_gazebo_state_only)).
Proof.
  apply (proj2 (parse_links_last_wins no_float robot_gazebo_state_only
                  links_base_arm [joint_shoulder] eq_refl)).
Defined.

Lemma parse_joint_endpoints {F : Type} (py_float : string -> option F)
    (joint_elem : Element) (oj : option (Joint F)) :
  parse_joint py_float joint_elem = Returns oj ->
  joint_signature <$> oj = joint_endpoints joint_elem.
Proof.
  unfold parse_joint, joint_endpoints.
  destruct (find "parent" joint_elem) as [parent_elem|]; [|by intros [= <-]].
  destruct (find "child" joint_elem) as [child_elem|]; [|by intros [= <-]].
  unfold mbind, outcome_bind.
  repeat match goal with
  | |- match ?m with Returns _ => _ | Raises _ => _ end = _ -> _ =>
      destruct m; [|done]
  end.
  by intros [= <-].
Qed.

Lemma parse_joints_endpoints {F : Type} (py_float : string -> option F)
    (elems : list Element) (acc joints : list (Joint F)) :
  parse_joints py_float elems acc = Returns joints ->
  map joint_signature joints
  = map joint_signature acc ++ omap joint_endpoints elems.
Proof.
  revert acc. induction elems as [|e elems IH]; intros acc.
  - intros [= <-]. by rewrite app_nil_r.
  - cbn [parse_joints omap list_omap]. unfold mbind at 1, outcome_bind at 1.
    destruct (parse_joint py_float e) as [oj|] eqn:He; [|done].
    apply parse_joint_endpoints in He. intros Hj%IH. rewrite Hj, <- He.
    destruct oj as [j|]; cbn; [|done].
    by rewrite map_app, <- app_assoc.
Qed.

(** X15.  The joints a successful [parse] returns are the [joint]
    elements of the document that have a [parent] and a [child] element,
    in document order, each with the name and type attributes of the
    element and the [link] attributes of its [parent] and [child]; a
    [joint] element without one of the two is left out, without an
    error. *)
Theorem parse_joints_in_order {F : Type} (py_float : string -> option F)
    (root : Element) (links : list (pystr * Link)) (joints : list (Joint F)) :
  parse py_float root = Returns (links, joints) ->
  map joint_signature joints = omap joint_endpoints (findall "joint" root).
Proof.
  intros [_ Hj]%parse_returns_inv.
  by apply parse_joints_endpoints in Hj.
Qed.

Lemma parse_joints_in_order_witness :
  map joint_signature [joint_shoulder]
  = omap joint_endpoints (findall "joint" robot_gazebo_state_only).
Proof.
  exact (parse_joints_in_order no_float robot_gazebo_state_only
           links_base_arm [joint_shoulder] eq_refl).
Defined.

(** *** Documents the reader gives up on *)

(** The bad [command_interface] read of the sample document. *)
Lemma parse_command_interface_text_exits_witness :
  parse no_float robot_gazebo_both = Raises (SystemExit 1).
Proof.
  apply (parse_command_interface_text_exits no_float robot_gazebo_both
           (joint_gazebo [state_interface_text; command_interface_text])
           (elem "parent" [("link", "base")] [])
           (elem "child" [("link", "arm")] [])
           (elem "gazebo" []
              [elem "plugin" [("name", "gazebo_ros_control")]
                    [state_interface_text; command_interface_text]])
           (elem "plugin" [("name", "gazebo_ros_control")]
                 [state_interface_text; command_interface_text])
           command_interface_text);
    try reflexivity.
  vm_compute. left.
Defined.

Lemma map_float_raises {F : Type} (py_float : string -> option F)
    (toks : list string) (t : string) :
  t ∈ toks -> py_float t = None ->
  map_float py_float toks = Raises ValueError.
Proof.
  intros Hin Ht. induction toks as [|s toks IH]; [by apply elem_of_nil in Hin|].
  cbn [map_float]. unfold mbind, outcome_bind, float.
  destruct (py_float s) as [x|] eqn:Hs; [|done].
  apply elem_of_cons in Hin as [->|Hin]; [congruence|].
  by rewrite IH.
Qed.

(** X17.  A joint that has a [parent] and a [child] element and an axis
    with a component [float] cannot read ends the program: [parse] leaves
    through [sys.exit(1)] and returns no link and no joint. *)
Theorem parse_bad_axis_exits {F : Type} (py_float : string -> option F)
    (root joint_elem parent_elem child_elem axis_elem : Element)
    (xyz t : string) :
  joint_elem ∈ findall "joint" root ->
  find "parent" joint_elem = Some parent_elem ->
  find "child" joint_elem = Some child_elem ->
  find "axis" joint_elem = Some axis_elem ->
  get axis_elem "xyz" = Some xyz ->
  t ∈ py_split xyz ->
  py_float t = None ->
  parse py_float root = Raises (SystemExit 1).
Proof.
  intros Hin Hp Hc Ha Hxyz Ht Hf.
  assert (Hj : exists e, parse_joint py_float joint_elem = Raises e).
  { unfold parse_joint. rewrite Hp, Hc, Ha, Hxyz.
    assert (truthy (Some xyz) = true) as ->.
    { destruct xyz as [|c xyz]; [by apply elem_of_nil in Ht | done]. }
    rewrite (map_float_raises py_float _ t Ht Hf). by eexists. }
  destruct (parse_joints_raises py_float _ [] _ Hin Hj) as [e He].
  unfold parse, parse_body. unfold mbind at 1, outcome_bind at 1.
  by rewrite He.
Qed.

Lemma parse_bad_axis_exits_witness :
  parse zero_float robot_bad_axis = Raises (SystemExit 1).
Proof.
  apply (parse_bad_axis_exits zero_float robot_bad_axis
           (elem "joint" [("name", "shoulder"); ("type", "revolute")]
              [elem "parent" [("link", "base")] [];
               elem "child" [("link", "arm")] [];
               elem "axis" [("xyz", "0 0 one")] []])
           (elem "parent" [("link", "base")] [])
           (elem "child" [("link", "arm")] [])
           (elem "axis" [("xyz", "0 0 one")] [])
           "0 0 one" "one");
    try reflexivity.
  - vm_compute. left.
  - vm_compute. do 2 right. left.
Defined.

(** *** Hardware interfaces typed in by the user *)

(** **** UTF-8 *)

Lemma byte_value n : (n < 256)%N -> N_of_ascii (byte n) = n.
Proof. apply N_ascii_embedding. Qed.

Lemma byte_inj a b : (a < 256)%N -> (b < 256)%N -> byte a = byte b -> a = b.
Proof.
  intros Ha Hb H. apply (f_equal N_of_ascii) in H.
  by rewrite !byte_value in H.
Qed.

(** The quotients and remainders [utf8] takes of [n], as numbers of their
    own. *)
Ltac div64 n :=
  pose proof (N.div_mod n 64 ltac:(done));
  pose proof (N.mod_lt n 64 ltac:(done)).

Ltac name_term t :=
  let x := fresh "x" in set (x := t) in *; clearbody x.

Ltac div_vars n :=
  div64 n; div64 (n / 64)%N; div64 (n / 64 / 64)%N;
  name_term (n / 64 / 64 / 64)%N; name_term ((n / 64 / 64) mod 64)%N;
  name_term (n / 64 / 64)%N; name_term ((n / 64) mod 64)%N;
  name_term (n / 64)%N; name_term (n mod 64)%N.

Ltac utf8_cases n :=
  repeat match goal with |- context [(n <? ?k)%N] =>
    destruct (N.ltb_spec n k) end.

Ltac bool_cases :=
  repeat match goal with
  | |- context [(?a <? ?k)%N] => destruct (N.ltb_spec a k)
  | |- context [(?a <=? ?k)%N] => destruct (N.leb_spec a k)
  end.

(** The first byte of a character is no continuation byte and tells how
    many follow, which are continuation bytes. *)
Lemma utf8_shape n :
  (n < 0x110000)%N ->
  exists c tl,
    utf8 n = c :: tl /\ continuation c = false
    /\ Forall (fun x => continuation x = true) tl
    /\ length tl = tail_length c.
Proof.
  intros Hn. unfold utf8. div_vars n. utf8_cases n;
    eexists _, _; (split; [reflexivity|]);
    unfold continuation, tail_length; rewrite ?Forall_cons;
    cbv zeta; rewrite !byte_value by lia;
    split_and!; try apply Forall_nil_2; bool_cases; try done; lia.
Qed.

Lemma utf8_inj n m :
  (n < 0x110000)%N -> (m < 0x110000)%N -> utf8 n = utf8 m -> n = m.
Proof.
  intros Hn Hm. unfold utf8. div_vars n. div_vars m.
  utf8_cases n; utf8_cases m; intros Heq; try done;
    simplify_eq;
    repeat match goal with H : byte _ = byte _ |- _ =>
      apply byte_inj in H; [|lia..] end;
    lia.
Qed.

Lemma elem_of_rev {A} (l : list A) x : x ∈ rev l <-> x ∈ l.
Proof. rewrite !list_elem_of_In. symmetry. apply List.in_rev. Qed.

Lemma utf8_not_nil n : utf8 n <> [].
Proof. unfold utf8. by repeat case_match. Qed.

Lemma is_prefix_app p r : is_prefix p (p ++ r) = true.
Proof.
  induction p as [|a p IH]; [done|]. cbn [is_prefix app].
  by rewrite Ascii.eqb_refl.
Qed.

Lemma is_prefix_spec p l : is_prefix p l = true -> exists r, l = p ++ r.
Proof.
  revert l. induction p as [|a p IH]; intros l; [by exists l|].
  destruct l as [|b l]; [done|]. cbn [is_prefix].
  intros [Hab [r ->]%IH]%andb_true_iff. apply Ascii.eqb_eq in Hab as ->.
  by exists r.
Qed.

(** No character starts with the bytes of another. *)
Lemma utf8_prefix p n rest :
  (p < 0x110000)%N -> (n < 0x110000)%N ->
  is_prefix (utf8 p) (utf8 n ++ rest) = true -> p = n.
Proof.
  intros Hp Hn [r Hr]%is_prefix_spec.
  destruct (utf8_shape p Hp) as (cp & tp & Ep & _ & _ & Hlp).
  destruct (utf8_shape n Hn) as (cn & tn & En & _ & _ & Hln).
  apply utf8_inj; [done..|]. rewrite Ep, En in Hr |- *.
  cbn [app] in Hr. injection Hr as -> Hr.
  f_equal. symmetry. apply (app_inj_1 _ _ _ _ (eq_trans Hln (eq_sym Hlp)) Hr).
Qed.

(** Nor does a character end with the bytes of another. *)
Lemma utf8_suffix p n rest :
  (p < 0x110000)%N -> (n < 0x110000)%N ->
  is_prefix (rev (utf8 p)) (rev (utf8 n) ++ rest) = true -> p = n.
Proof.
  intros Hp Hn [r Hr]%is_prefix_spec.
  destruct (utf8_shape p Hp) as (cp & tp & Ep & Hcp & Htp & _).
  destruct (utf8_shape n Hn) as (cn & tn & En & Hcn & Htn & _).
  apply utf8_inj; [done..|]. rewrite Ep, En in Hr |- *.
  cbn [rev] in Hr. rewrite <- !app_assoc in Hr. cbn [app] in Hr.
  destruct (lt_eq_lt_dec (length tp) (length tn)) as [[Hlt|Heq]|Hgt].
  - exfalso. apply (f_equal (fun l => l !! length (rev tp))) in Hr.
    rewrite (list_lookup_middle (rev tp)) in Hr by done.
    rewrite lookup_app_l in Hr by (rewrite !length_rev; lia).
    assert (Hin : cp ∈ rev tn) by (by eapply list_elem_of_lookup_2).
    rewrite elem_of_rev in Hin. rewrite Forall_forall in Htn.
    specialize (Htn _ Hin). congruence.
  - apply app_inj_1 in Hr as [Ht [= -> _]]; [|by rewrite !length_rev].
    f_equal. apply (f_equal (@rev ascii)) in Ht.
    by rewrite !rev_involutive in Ht.
  - exfalso. apply (f_equal (fun l => l !! length (rev tn))) in Hr.
    rewrite (list_lookup_middle (rev tn)) in Hr by done.
    rewrite lookup_app_l in Hr by (rewrite !length_rev; lia).
    assert (Hin : cn ∈ rev tp) by (by eapply list_elem_of_lookup_2).
    rewrite elem_of_rev in Hin. rewrite Forall_forall in Htp.
    specialize (Htp _ Hin). congruence.
Qed.

Lemma space_point_spec n : space_point n = true <-> n ∈ white_space.
Proof.
  unfold space_point, white_space.
  rewrite !elem_of_cons, elem_of_nil, !orb_true_iff, !andb_true_iff,
    !N.leb_le, !N.eqb_eq.
  lia.
Qed.

Lemma white_space_valid n :
  space_point n = true -> (n < 0x110000)%N /\ n <> 44%N.
Proof.
  unfold space_point.
  rewrite !orb_true_iff, !andb_true_iff, !N.leb_le, !N.eqb_eq. lia.
Qed.

(** **** White space at the ends of a text *)

Section DropSpace.
(** The bytes of a character, read forwards or backwards. *)
Variable e : N -> list ascii.
Hypothesis e_not_nil : forall n, e n <> [].
Hypothesis e_exclusive : forall p n rest,
  (p < 0x110000)%N -> (n < 0x110000)%N ->
  is_prefix (e p) (e n ++ rest) = true -> p = n.

Lemma space_width_space p rest :
  space_point p = true ->
  space_width (map e white_space) (e p ++ rest) = length (e p).
Proof.
  intros Hp. unfold space_width.
  destruct (List.find _ (map e white_space)) as [q|] eqn:Hq.
  - apply List.find_some in Hq as [Hin Hpre].
    apply list_elem_of_In, list_elem_of_fmap in Hin as (p' & -> & Hp').
    apply space_point_spec in Hp'. do 2 f_equal.
    apply (e_exclusive _ _ rest); [by apply white_space_valid.. | done].
  - exfalso. pose proof (List.find_none _ _ Hq (e p)) as Hnone.
    cbv beta in Hnone. rewrite is_prefix_app in Hnone.
    enough (false = true) by done. symmetry. apply Hnone.
    apply list_elem_of_In, list_elem_of_fmap. exists p.
    split; [done | by apply space_point_spec].
Qed.

Lemma space_width_other n rest :
  (n < 0x110000)%N -> space_point n = false ->
  space_width (map e white_space) (e n ++ rest) = 0%nat.
Proof.
  intros Hn Hs. unfold space_width.
  destruct (List.find _ (map e white_space)) as [q|] eqn:Hq; [|done].
  exfalso. apply List.find_some in Hq as [Hin Hpre].
  apply list_elem_of_In, list_elem_of_fmap in Hin as (p' & -> & Hp').
  apply space_point_spec in Hp'.
  apply e_exclusive in Hpre; [|by apply white_space_valid | done].
  congruence.
Qed.

Lemma drop_space_skip chars tl rest :
  drop_space chars (length tl) (tl ++ rest) = drop_space chars 0 rest.
Proof. induction tl as [|a tl IH]; [done | apply IH]. Qed.

Lemma drop_space_pad pad rest :
  Forall (fun n => space_point n = true) pad ->
  drop_space (map e white_space) 0 (concat (map e pad) ++ rest)
  = drop_space (map e white_space) 0 rest.
Proof.
  induction 1 as [|p pad Hp _ IH]; [done|].
  cbn [map concat]. rewrite <- app_assoc.
  pose proof (space_width_space p (concat (map e pad) ++ rest) Hp) as Hw.
  destruct (e p) as [|c tl] eqn:Ep; [by apply e_not_nil in Ep|].
  cbn [app drop_space] in Hw |- *. rewrite Hw. cbn [length].
  by rewrite drop_space_skip.
Qed.

Lemma drop_space_stop n rest :
  (n < 0x110000)%N -> space_point n = false ->
  drop_space (map e white_space) 0 (e n ++ rest) = e n ++ rest.
Proof.
  intros Hn Hs. pose proof (space_width_other n rest Hn Hs) as Hw.
  destruct (e n) as [|c tl] eqn:En; [by apply e_not_nil in En|].
  cbn [app drop_space] in Hw |- *. by rewrite Hw.
Qed.
End DropSpace.

Lemma rev_concat_utf8 pts :
  rev (concat (map utf8 pts)) = concat (map (fun n => rev (utf8 n)) (rev pts)).
Proof.
  induction pts as [|n pts IH]; [done|].
  cbn [map concat rev]. rewrite rev_app_distr, IH, map_app, concat_app.
  cbn [map concat]. by rewrite app_nil_r.
Qed.

Lemma rev_utf8_not_nil n : rev (utf8 n) <> [].
Proof.
  intros H. apply (f_equal (@rev ascii)) in H. rewrite rev_involutive in H.
  by apply utf8_not_nil in H.
Qed.

(** [strip] leaves the name of an entry. *)
Lemma strip_entry e : well_formed_entry e -> strip (entry_text e) = encode (name_points e).
Proof.
  destruct e as [b nm a]. unfold well_formed_entry, entry_text, strip, encode.
  cbn [before name_points after]. intros (Hb & Ha & Hnm & Hhd & Hlast).
  rewrite list_ascii_of_string_of_list_ascii, !map_app, !concat_app.
  unfold space_chars. rewrite map_map.
  rewrite (drop_space_pad utf8 utf8_not_nil utf8_prefix) by done.
  destruct nm as [|n nm'] using rev_ind.
  { cbn [map concat app].
    rewrite <- (app_nil_r (concat (map utf8 a))).
    by rewrite (drop_space_pad utf8 utf8_not_nil utf8_prefix). }
  clear IHnm'. set (nm := nm' ++ [n]) in *.
  assert (Hn : (n < 0x110000)%N /\ space_point n = false).
  { split; [|apply Hlast; unfold nm; by rewrite last_snoc].
    rewrite Forall_forall in Hnm. apply (Hnm n). unfold nm. set_solver. }
  assert (Hstop : drop_space (map utf8 white_space) 0
                    (concat (map utf8 nm) ++ concat (map utf8 a))
                  = concat (map utf8 nm) ++ concat (map utf8 a)).
  { destruct nm as [|m nm1] eqn:Enm; [by destruct nm'|].
    cbn [map concat]. rewrite <- app_assoc.
    apply (drop_space_stop utf8 utf8_not_nil utf8_prefix).
    - by apply Forall_cons in Hnm as [[? _] _].
    - by apply Hhd. }
  rewrite Hstop, rev_app_distr, !rev_concat_utf8.
  rewrite (drop_space_pad (fun n => rev (utf8 n)) rev_utf8_not_nil utf8_suffix)
    by (by apply Forall_rev).
  unfold nm at 1. rewrite rev_app_distr. cbn [rev app map concat].
  rewrite (drop_space_stop (fun n => rev (utf8 n)) rev_utf8_not_nil utf8_suffix)
    by apply Hn.
  f_equal. change (rev (utf8 n) ++ concat (map (fun n => rev (utf8 n)) (rev nm')))
    with (concat (map (fun n => rev (utf8 n)) (n :: rev nm'))).
  replace (n :: rev nm') with (rev nm) by (unfold nm; by rewrite rev_app_distr).
  by rewrite <- rev_concat_utf8, rev_involutive.
Qed.

(** **** The pieces between commas *)

(** The byte of the comma occurs in the comma alone. *)
Lemma utf8_no_comma n : (n < 0x110000)%N -> n <> 44%N -> comma ∉ utf8 n.
Proof.
  intros Hn Hne. change comma with (byte 44). unfold utf8. div_vars n.
  utf8_cases n; rewrite ?not_elem_of_cons; split_and!;
    try apply not_elem_of_nil;
    intros Hc; apply byte_inj in Hc; lia.
Qed.

Lemma encode_no_comma pts :
  Forall (fun n => (n < 0x110000)%N /\ n <> 44%N) pts ->
  comma ∉ list_ascii_of_string (encode pts).
Proof.
  unfold encode. rewrite list_ascii_of_string_of_list_ascii.
  induction 1 as [|n pts [Hn Hne] _ IH]; cbn [map concat].
  - apply not_elem_of_nil.
  - rewrite not_elem_of_app. split; [by apply utf8_no_comma | done].
Qed.

Lemma entry_text_no_comma e :
  well_formed_entry e -> comma ∉ list_ascii_of_string (entry_text e).
Proof.
  intros (Hb & Ha & Hnm & _). apply encode_no_comma.
  rewrite !Forall_app. split_and!; [|done|];
    (eapply Forall_impl; [eassumption|]); apply white_space_valid.
Qed.

Lemma append_empty_r (t : string) : t +:+ "" = t.
Proof.
  induction t as [|c t IH]; [done|].
  change (String c t +:+ "") with (String c (t +:+ "")). by rewrite IH.
Qed.

Lemma split_on_aux_piece t cur s :
  comma ∉ list_ascii_of_string t ->
  split_on_aux comma cur (t +:+ s)
  = split_on_aux comma (rev (list_ascii_of_string t) ++ cur) s.
Proof.
  revert cur. induction t as [|c t IH]; intros cur Ht; [done|].
  cbn [list_ascii_of_string] in Ht. apply not_elem_of_cons in Ht as [Hc Ht].
  change (String c t +:+ s) with (String c (t +:+ s)).
  cbn [split_on_aux list_ascii_of_string rev].
  destruct (Ascii.eqb_spec c comma) as [->|_]; [done|].
  rewrite IH by done. by rewrite <- app_assoc.
Qed.

Lemma split_on_aux_last t :
  comma ∉ list_ascii_of_string t -> split_on_aux comma [] t = [t].
Proof.
  intros Ht. rewrite <- (append_empty_r t) at 1.
  rewrite split_on_aux_piece by done. cbn [split_on_aux].
  by rewrite app_nil_r, rev_involutive, string_of_list_ascii_of_string.
Qed.

(** Pieces without a comma, joined by commas, are what [split(",")] gives
    back. *)
Lemma split_on_join pieces :
  pieces <> [] ->
  Forall (fun t => comma ∉ list_ascii_of_string t) pieces ->
  split_on comma (Editor.join "," pieces) = pieces.
Proof.
  unfold split_on. intros Hne Hall.
  induction Hall as [|t pieces Ht Hall IH]; [done|]. clear Hne.
  destruct pieces as [|u pieces]; [by apply split_on_aux_last|].
  change (Editor.join "," (t :: u :: pieces))
    with (t +:+ "," +:+ Editor.join "," (u :: pieces)).
  rewrite split_on_aux_piece by done.
  change ("," +:+ Editor.join "," (u :: pieces))
    with (String comma (Editor.join "," (u :: pieces))).
  cbn [split_on_aux]. rewrite Ascii.eqb_refl, app_nil_r, rev_involutive.
  rewrite string_of_list_ascii_of_string. f_equal. by apply IH.
Qed.

Lemma encode_empty pts : encode pts = "" <-> pts = [].
Proof.
  split; [|by intros ->]. destruct pts as [|n pts]; [done|].
  unfold encode. cbn [map concat].
  destruct (utf8 n) as [|c tl] eqn:En; [by apply utf8_not_nil in En | done].
Qed.

(** The names of the entries that have one. *)
Lemma interface_names_entries entries :
  entries <> [] -> Forall well_formed_entry entries ->
  interface_names (Editor.join "," (map entry_text entries))
  = map encode
      (List.filter (fun pts => bool_decide (pts <> []))
                   (map name_points entries)).
Proof.
  intros Hne Hwf. unfold interface_names.
  rewrite split_on_join.
  - clear Hne. induction Hwf as [|e entries He _ IH]; [done|].
    cbn [map List.filter]. rewrite strip_entry by done. rewrite IH.
    destruct (name_points e) as [|n pts] eqn:Hn; [done|].
    rewrite bool_decide_true by done. cbn [map].
    destruct (encode (n :: pts)) eqn:E; [by apply encode_empty in E | done].
  - by destruct entries.
  - apply Forall_fmap. eapply Forall_impl; [exact Hwf|].
    intros e. apply entry_text_no_comma.
Qed.

(** X18.  A cancelled dialog or an empty answer leaves the joint as it
    is; any other answer changes the hardware interfaces of the joint and
    nothing else.  An answer is a list of entries separated by commas,
    each entry a name, which may be missing, with white space of any kind
    around it: the hardware interfaces of the joint are then the names of
    the entries that have one, without the white space, in the order of
    the answer. *)
Theorem set_hardware_interfaces_spec {F : Type} (joint : Joint F) :
  set_hardware_interfaces None joint = joint
  /\ set_hardware_interfaces (Some "") joint = joint
  /\ (forall answer,
      let joint' := set_hardware_interfaces (Some answer) joint in
      (joint_name joint', joint_type joint', parent joint', child joint',
       axis joint', limit joint', state_interfaces joint',
       command_interfaces joint')
      = (joint_name joint, joint_type joint, parent joint, child joint,
         axis joint, limit joint, state_interfaces joint,
         command_interfaces joint))
  /\ (forall entries,
      Forall well_formed_entry entries ->
      let answer := Editor.join "," (map entry_text entries) in
      answer <> "" ->
      hardware_interfaces (set_hardware_interfaces (Some answer) joint)
      = map (fun pts => Some (encode pts))
          (List.filter (fun pts => bool_decide (pts <> []))
                       (map name_points entries))).
Proof.
  split_and!; [done | done | |].
  - intros answer. cbv zeta. unfold set_hardware_interfaces.
    by destruct (truthy (Some answer)).
  - intros entries Hwf answer Hne. unfold set_hardware_interfaces.
    assert (truthy (Some answer) = true) as -> by (by destruct answer).
    cbn [hardware_interfaces]. unfold answer.
    rewrite interface_names_entries; [by rewrite map_map | | done].
    intros ->. by apply Hne.
Qed.

(** The answer [" can0" U+2003 "," U+00A0 "," U+3000 "ethercat"]: the
    names are read between an em space, a no-break space and an
    ideographic space. *)
Lemma set_hardware_interfaces_spec_witness :
  hardware_interfaces
    (set_hardware_interfaces
       (Some (Editor.join ","
                [encode [0x20; 0x63; 0x61; 0x6E; 0x30; 0x2003];
                 encode [0xA0];
                 encode [0x3000; 0x65; 0x74; 0x68; 0x65; 0x72; 0x63; 0x61;
                         0x74]]%N))
       joint_shoulder)
  = [Some "can0"; Some "ethercat"].
Proof.
  apply (proj2 (proj2 (proj2 (set_hardware_interfaces_spec joint_shoulder)))
           [mkEntry [0x20] [0x63; 0x61; 0x6E; 0x30] [0x2003];
            mkEntry [0xA0] [] [];
            mkEntry [0x3000] [0x65; 0x74; 0x68; 0x65; 0x72; 0x63; 0x61; 0x74]
                    []]%N).
  - unfold well_formed_entry; cbn [before name_points after head last].
    repeat first [apply Forall_nil_2 | apply Forall_cons_2 | split];
      try done; intros ? [=]; by subst.
  - done.
Defined.

Example interface_names_example :
  interface_names " can0 , ,ethercat " = ["can0"; "ethercat"].
Proof. reflexivity. Qed.

End UrdfFacts.
